(** * Asset extraction route ([src/app/api/explode/route.ts])

    A shallow embedding of the [POST] handler of the explode route and of
    its helpers [resolveUrl], [extractColors], [extractBackgroundImages]
    and [extractFonts], together with the properties of the specification
    that can be stated about them.

    JavaScript strings are sequences of UTF-16 code units; a code unit is
    modelled as a number of type [N] and a string as a list of them.  The
    regular expressions of the source are kept as syntax trees and run by
    a backtracking matcher that enumerates the ways to match in the
    priority order of ECMAScript (greedy quantifiers, left alternative
    first); the first one is the match the program sees.

    What the route does not define is a parameter of its embedding: the
    URL parser behind [new URL], the answers of [fetch], the parser
    behind [cheerio.load], whose result is taken as the list of the
    elements of the document, and the order in which the promises of the
    stylesheets settle.

    The handlers of the page that calls the route
    ([src/app/page.tsx]) are embedded after it: [handleExplode] as a
    function of the state of the component and of the outcome of its
    request, [handleFontClick] as the address it opens. *)

From Stdlib Require Import String Ascii.
From Stdlib Require Import List NArith ZArith Zify Bool Arith Lia Permutation.
Import ListNotations.

Set Implicit Arguments.

(** ** Strings *)

Definition cu := N.
Definition jsstring := list cu.

(** The code unit of a one-character literal. *)
Definition ch (s : string) : cu :=
  match s with
  | String a _ => N_of_ascii a
  | EmptyString => 0%N
  end.
Definition js (s : string) : jsstring := map N_of_ascii (list_ascii_of_string s).

Fixpoint jseqb (a b : jsstring) : bool :=
  match a, b with
  | [], [] => true
  | x :: a', y :: b' => N.eqb x y && jseqb a' b'
  | _, _ => false
  end.

(** [WhiteSpace] and [LineTerminator] of ECMAScript: what [\s] matches and
    what [String.prototype.trim] removes. *)
Definition is_space (c : cu) : bool :=
  ((9 <=? c) && (c <=? 13) || (c =? 32) || (c =? 160) || (c =? 5760)
   || (8192 <=? c) && (c <=? 8202) || (c =? 8232) || (c =? 8233)
   || (c =? 8239) || (c =? 8287) || (c =? 12288) || (c =? 65279))%N.

(** [\w]: the basic word characters, used by [\b]. *)
Definition is_word (c : cu) : bool :=
  ((48 <=? c) && (c <=? 57) || (65 <=? c) && (c <=? 90) || (c =? 95)
   || (97 <=? c) && (c <=? 122))%N.

Definition is_lower (c : cu) : bool := ((97 <=? c) && (c <=? 122))%N.
Definition is_upper (c : cu) : bool := ((65 <=? c) && (c <=? 90))%N.

(** Upper and lower case on the ASCII letters.  The program upper-cases
    only what [colorRegex] matched, and every pattern character of its
    case-insensitive expressions is ASCII: a code unit from 128 on keeps a
    canonical form from 128 on, so it never equals one of them. *)
Definition upper (c : cu) : cu := if is_lower c then (c - 32)%N else c.
Definition lower (c : cu) : cu := if is_upper c then (c + 32)%N else c.
Definition toUpperCase (s : jsstring) : jsstring := map upper s.

Fixpoint dropWhile (p : cu -> bool) (s : jsstring) : jsstring :=
  match s with
  | c :: s' => if p c then dropWhile p s' else s
  | [] => []
  end.

Fixpoint takeWhile (p : cu -> bool) (s : jsstring) : jsstring :=
  match s with
  | c :: s' => if p c then c :: takeWhile p s' else []
  | [] => []
  end.

(** [s.trim()] *)
Definition trim (s : jsstring) : jsstring :=
  rev (dropWhile is_space (rev (dropWhile is_space s))).

(** [s.startsWith(p)] *)
Fixpoint startsWith (p s : jsstring) : bool :=
  match p, s with
  | [], _ => true
  | x :: p', y :: s' => N.eqb x y && startsWith p' s'
  | _ :: _, [] => false
  end.

(** [s.includes(p)], the test behind the attribute selector [[href*='p']]. *)
Fixpoint includes (p s : jsstring) : bool :=
  startsWith p s || match s with [] => false | _ :: s' => includes p s' end.

(** [s.split(sep)] for a separator of one code unit. *)
Fixpoint split_on (sep : cu) (s : jsstring) : list jsstring :=
  match s with
  | [] => [[]]
  | c :: s' =>
      if N.eqb c sep then [] :: split_on sep s'
      else match split_on sep s' with
           | w :: ws => (c :: w) :: ws
           | [] => [[c]]
           end
  end.

(** [parts.join(sep)] *)
Fixpoint join (sep : jsstring) (parts : list jsstring) : jsstring :=
  match parts with
  | [] => []
  | [p] => p
  | p :: ps => p ++ sep ++ join sep ps
  end.

(** [s[i]] inside a template literal: a missing index prints as
    [undefined]. *)
Definition charAt (s : jsstring) (i : nat) : jsstring :=
  match nth_error s i with
  | Some c => [c]
  | None => js "undefined"
  end.

(** ** Regular expressions *)

Module RegExp.

Inductive ClassItem : Type :=
| CChar (c : cu)
| CRange (lo hi : cu)
| CSpace.

Inductive Regex : Type :=
| REmpty
| RChar (c : cu)
| RClass (negated : bool) (items : list ClassItem)
| RSeq (r1 r2 : Regex)
| RAlt (r1 r2 : Regex)
| RStar (r : Regex)
| RGroup (r : Regex)
| RWordB
| RBegin
| REnd.

(** [r+], [r?], [r{n}] and a literal run of characters. *)
Definition RPlus (r : Regex) : Regex := RSeq r (RStar r).
Definition ROpt (r : Regex) : Regex := RAlt r REmpty.
Fixpoint RRep (n : nat) (r : Regex) : Regex :=
  match n with
  | O => REmpty
  | S n' => RSeq r (RRep n' r)
  end.
Fixpoint RLit (s : jsstring) : Regex :=
  match s with
  | [] => REmpty
  | c :: s' => RSeq (RChar c) (RLit s')
  end.

(** The state of a match in progress: the text before the current
    position (nearest unit first), the text from it on, and what the one
    capture group of the expression holds. *)
Record MState : Type := mkSt {
  consumed : list cu;
  remaining : list cu;
  cap1 : option jsstring
}.

(** [Canonicalize]: with the [i] flag units are compared upper-cased. *)
Definition canon (ic : bool) (c : cu) : cu := if ic then upper c else c.

Definition in_range (lo hi c : cu) : bool := ((lo <=? c) && (c <=? hi))%N.

Definition item_matches (ic : bool) (x : cu) (it : ClassItem) : bool :=
  match it with
  | CChar c => N.eqb (canon ic x) (canon ic c)
  | CRange lo hi =>
      in_range lo hi x || (ic && (in_range lo hi (upper x) || in_range lo hi (lower x)))
  | CSpace => is_space x
  end.

Definition class_matches (ic neg : bool) (items : list ClassItem) (x : cu) : bool :=
  xorb neg (existsb (item_matches ic x) items).

Definition word_before (st : MState) : bool :=
  match consumed st with c :: _ => is_word c | [] => false end.
Definition word_after (st : MState) : bool :=
  match remaining st with c :: _ => is_word c | [] => false end.

Definition step (x : cu) (xs : list cu) (st : MState) : MState :=
  mkSt (x :: consumed st) xs (cap1 st).

Definition set_cap (from to : MState) : MState :=
  mkSt (consumed to) (remaining to)
       (Some (firstn (length (remaining from) - length (remaining to)) (remaining from))).

(** The iterations of [r*], the longest first, for a body that matches as
    [body] says.  An iteration that consumes nothing is rejected, as in
    ECMAScript, so the number of units left bounds the number of
    iterations. *)
Fixpoint star_loop (body : MState -> list MState) (fuel : nat) (s : MState)
  {struct fuel} : list MState :=
  match fuel with
  | O => [s]
  | S f =>
      flat_map
        (fun s' =>
           if length (remaining s') <? length (remaining s)
           then star_loop body f s' else [])
        (body s)
      ++ [s]
  end.

(** All the ways [r] matches from [st], best first. *)
Fixpoint matcher (ic : bool) (r : Regex) (st : MState) {struct r} : list MState :=
  match r with
  | REmpty => [st]
  | RChar c =>
      match remaining st with
      | x :: xs => if N.eqb (canon ic x) (canon ic c) then [step x xs st] else []
      | [] => []
      end
  | RClass neg items =>
      match remaining st with
      | x :: xs => if class_matches ic neg items x then [step x xs st] else []
      | [] => []
      end
  | RSeq a b => flat_map (matcher ic b) (matcher ic a st)
  | RAlt a b => matcher ic a st ++ matcher ic b st
  | RStar a => star_loop (matcher ic a) (length (remaining st)) st
  | RGroup a => map (set_cap st) (matcher ic a st)
  | RWordB => if xorb (word_before st) (word_after st) then [st] else []
  | RBegin => match consumed st with [] => [st] | _ :: _ => [] end
  | REnd => match remaining st with [] => [st] | _ :: _ => [] end
  end.

(** A match as the program reads it: [match[0]] and [match[1]]. *)
Record Match : Type := mkMatch {
  m_0 : jsstring;
  m_1 : option jsstring
}.

Definition match_at (ic : bool) (r : Regex) (pre rest : list cu) : option Match :=
  match matcher ic r (mkSt pre rest None) with
  | e :: _ =>
      Some (mkMatch (firstn (length rest - length (remaining e)) rest) (cap1 e))
  | [] => None
  end.

(** [r.exec(s)] for an expression without the [g] flag: the leftmost
    match. *)
Fixpoint exec_from (ic : bool) (r : Regex) (pre rest : list cu) : option Match :=
  match match_at ic r pre rest with
  | Some m => Some m
  | None =>
      match rest with
      | [] => None
      | c :: rest' => exec_from ic r (c :: pre) rest'
      end
  end.

Definition exec (ic : bool) (r : Regex) (s : jsstring) : option Match :=
  exec_from ic r [] s.

(** The successive matches of an expression with the [g] flag, as
    [s.match(r)] and the loop [while ((m = r.exec(s)) !== null)] find
    them: search resumes where the last match ended ([skip] counts the
    units of it still to pass). *)
Fixpoint matchAll_from (ic : bool) (r : Regex) (skip : nat) (pre rest : list cu)
  {struct rest} : list Match :=
  match skip with
  | S n =>
      match rest with
      | [] => []
      | c :: rest' => matchAll_from ic r n (c :: pre) rest'
      end
  | O =>
      match match_at ic r pre rest with
      | Some m =>
          m :: match rest with
               | [] => []
               | c :: rest' => matchAll_from ic r (length (m_0 m) - 1) (c :: pre) rest'
               end
      | None =>
          match rest with
          | [] => []
          | c :: rest' => matchAll_from ic r 0 (c :: pre) rest'
          end
      end
  end.

Definition matchAll (ic : bool) (r : Regex) (s : jsstring) : list Match :=
  matchAll_from ic r 0 [] s.

End RegExp.
Import RegExp.

(** ** The helpers of the route *)

Definition dquote : cu := 34%N.
Definition newline : jsstring := [10%N].
Definition squote : cu := ch "'".
Definition is_quote (c : cu) : bool := N.eqb c squote || N.eqb c dquote.

Definition nonempty (s : jsstring) : bool :=
  match s with [] => false | _ :: _ => true end.

(** A [Set<string>]: its elements in insertion order, each once. *)
Definition JSSet := list jsstring.

Definition set_has (x : jsstring) (s : JSSet) : bool := existsb (jseqb x) s.

Definition set_add (x : jsstring) (s : JSSet) : JSSet :=
  if set_has x s then s else s ++ [x].

(** [xs.forEach((x) => s.add(x))] *)
Definition add_all (xs : list jsstring) (s : JSSet) : JSSet :=
  fold_left (fun acc x => set_add x acc) xs s.

(** [match[1]]; the group of each expression below takes part in every
    match of it. *)
Definition grp (m : Match) : jsstring :=
  match m_1 m with Some g => g | None => [] end.

Definition hexdigit : Regex :=
  RClass false [CRange (ch "0") (ch "9"); CRange (ch "A") (ch "F");
                CRange (ch "a") (ch "f")].

(** [/#([0-9A-Fa-f]{6}|[0-9A-Fa-f]{3})\b/g] *)
Definition colorRegex : Regex :=
  RSeq (RChar (ch "#"))
       (RSeq (RGroup (RAlt (RRep 6 hexdigit) (RRep 3 hexdigit))) RWordB).

Definition normalizeColor (color : jsstring) : jsstring :=
  if length color =? 4
  then toUpperCase (js "#" ++ charAt color 1 ++ charAt color 1
                    ++ charAt color 2 ++ charAt color 2
                    ++ charAt color 3 ++ charAt color 3)
  else toUpperCase color.

Definition extractColors (text : jsstring) : list jsstring :=
  let matches := map m_0 (matchAll false colorRegex text) in
  map normalizeColor matches.

Definition quoteClass : Regex := RClass false [CChar squote; CChar dquote].
Definition spaceClass : Regex := RClass false [CSpace].

(** [/url\(['\x22]?([^'\x22)]+)['\x22]?\)/g], the double quote written
    [\x22] here *)
Definition bgRegex : Regex :=
  RSeq (RLit (js "url("))
       (RSeq (ROpt quoteClass)
             (RSeq (RGroup (RPlus (RClass true [CChar squote; CChar dquote; CChar (ch ")")])))
                   (RSeq (ROpt quoteClass) (RChar (ch ")"))))).

(** [/font-family\s*:\s*([^;{}]+)/gi] *)
Definition fontFamilyRegex : Regex :=
  RSeq (RLit (js "font-family"))
       (RSeq (RStar spaceClass)
             (RSeq (RChar (ch ":"))
                   (RSeq (RStar spaceClass)
                         (RGroup (RPlus (RClass true [CChar (ch ";"); CChar (ch "{");
                                                      CChar (ch "}")])))))).

(** [/^(inherit|initial|unset|none)$/i] *)
Definition keywordRegex : Regex :=
  RSeq RBegin
       (RSeq (RGroup (RAlt (RLit (js "inherit"))
                           (RAlt (RLit (js "initial"))
                                 (RAlt (RLit (js "unset")) (RLit (js "none"))))))
             REnd).

(** [/@font-face\s*{([^}]+)}/gi] *)
Definition fontFaceRegex : Regex :=
  RSeq (RLit (js "@font-face"))
       (RSeq (RStar spaceClass)
             (RSeq (RChar (ch "{"))
                   (RSeq (RGroup (RPlus (RClass true [CChar (ch "}")])))
                         (RChar (ch "}"))))).

(** [/font-family\s*:\s*['\x22]?([^'\x22;]+)['\x22]?/i] *)
Definition faceFamilyRegex : Regex :=
  RSeq (RLit (js "font-family"))
       (RSeq (RStar spaceClass)
             (RSeq (RChar (ch ":"))
                   (RSeq (RStar spaceClass)
                         (RSeq (ROpt quoteClass)
                               (RSeq (RGroup (RPlus (RClass true [CChar squote; CChar dquote;
                                                                  CChar (ch ";")])))
                                     (ROpt quoteClass)))))).

(** [font.trim().replace(/['\x22]/g, '')] *)
Definition cleanFont (font : jsstring) : jsstring :=
  filter (fun c => negb (is_quote c)) (trim font).

Definition is_keyword (cleaned : jsstring) : bool :=
  match exec true keywordRegex cleaned with Some _ => true | None => false end.

(** The body of the first loop of [extractFonts], for one match. *)
Definition addDeclaration (fonts : JSSet) (m : Match) : JSSet :=
  let fontDeclaration := trim (grp m) in
  fold_left
    (fun fonts font =>
       let cleaned := cleanFont font in
       if nonempty cleaned && negb (is_keyword cleaned)
       then set_add cleaned fonts else fonts)
    (split_on (ch ",") fontDeclaration) fonts.

(** The body of the second loop, for one [@font-face] block. *)
Definition addFontFace (fonts : JSSet) (m : Match) : JSSet :=
  let fontFaceBlock := grp m in
  match exec true faceFamilyRegex fontFaceBlock with
  | Some familyMatch => set_add (trim (grp familyMatch)) fonts
  | None => fonts
  end.

Definition extractFonts (css : jsstring) : list jsstring :=
  let fonts := [] in
  let fonts := fold_left addDeclaration (matchAll true fontFamilyRegex css) fonts in
  let fonts := fold_left addFontFace (matchAll true fontFaceRegex css) fonts in
  fonts.

(** ** [decodeURIComponent] *)

Definition hexval (c : cu) : option N :=
  if in_range 48%N 57%N c then Some (c - 48)%N
  else if in_range 65%N 70%N c then Some (c - 55)%N
  else if in_range 97%N 102%N c then Some (c - 87)%N
  else None.

(** A [%XX] escape or any other code unit. *)
Inductive UriToken : Type :=
| Plain (c : cu)
| Octet (b : N).

(** A [%] that two hexadecimal digits do not follow is a [URIError]. *)
Fixpoint uri_tokens (s : jsstring) : option (list UriToken) :=
  match s with
  | [] => Some []
  | c :: s1 =>
      if N.eqb c (ch "%") then
        match s1 with
        | h1 :: h2 :: s3 =>
            match hexval h1, hexval h2, uri_tokens s3 with
            | Some a, Some b, Some ts => Some (Octet (16 * a + b)%N :: ts)
            | _, _, _ => None
            end
        | _ => None
        end
      else option_map (cons (Plain c)) (uri_tokens s1)
  end.

Definition valid_code_point (v least : N) : bool :=
  (least <=? v)%N && (v <=? 1114111)%N && negb (in_range 55296%N 57343%N v).

(** [UTF16EncodeCodePoint] *)
Definition utf16 (v : N) : jsstring :=
  if (v <? 65536)%N then [v]
  else [(55296 + (v - 65536) / 1024)%N; (56320 + (v - 65536) mod 1024)%N].

(** The escapes spell UTF-8: [need] octets of the current sequence are
    still to come, [acc] is the code point read so far and [least] the
    least one a sequence of this length may encode.  Anything else is a
    [URIError]. *)
Fixpoint utf8_decode (need : nat) (acc least : N) (ts : list UriToken) {struct ts}
  : option jsstring :=
  match need, ts with
  | O, [] => Some []
  | O, Plain c :: ts' => option_map (cons c) (utf8_decode 0 0%N 0%N ts')
  | O, Octet b :: ts' =>
      if (b <? 128)%N then option_map (cons b) (utf8_decode 0 0%N 0%N ts')
      else if (b <? 192)%N then None
      else if (b <? 224)%N then utf8_decode 1 (b - 192)%N 128%N ts'
      else if (b <? 240)%N then utf8_decode 2 (b - 224)%N 2048%N ts'
      else if (b <? 248)%N then utf8_decode 3 (b - 240)%N 65536%N ts'
      else None
  | S n, Octet b :: ts' =>
      if in_range 128%N 191%N b then
        let acc' := (acc * 64 + (b - 128))%N in
        match n with
        | O =>
            if valid_code_point acc' least
            then option_map (app (utf16 acc')) (utf8_decode 0 0%N 0%N ts')
            else None
        | S _ => utf8_decode n acc' least ts'
        end
      else None
  | S _, _ => None
  end.

(** [None] stands for the [URIError] the function throws. *)
Definition decodeURIComponent (s : jsstring) : option jsstring :=
  match uri_tokens s with
  | Some ts => utf8_decode 0 0%N 0%N ts
  | None => None
  end.

(** ** The parsed document *)

(** An element of the tree [cheerio.load] returns: its tag name, its
    attributes and what [.html()] gives for it.  A document is the list of
    its elements in document order, the order in which a selection is
    visited. *)
Record Element : Type := mkElem {
  tag : jsstring;
  attrs : list (jsstring * jsstring);
  html : jsstring
}.

Definition Document := list Element.

(** [$(elem).attr(name)]; [None] is [undefined]. *)
Fixpoint lookup (name : jsstring) (l : list (jsstring * jsstring)) : option jsstring :=
  match l with
  | [] => None
  | (n, v) :: l' => if jseqb n name then Some v else lookup name l'
  end.

Definition attr (elem : Element) (name : string) : option jsstring :=
  lookup (js name) (attrs elem).

(** A value that passes [if (v)]: defined and not the empty string. *)
Definition truthy (v : option jsstring) : option jsstring :=
  match v with
  | Some (c :: s) => Some (c :: s)
  | _ => None
  end.

Definition has_attr (elem : Element) (name : string) : bool :=
  match attr elem name with Some _ => true | None => false end.

Definition tag_is (name : string) (elem : Element) : bool := jseqb (tag elem) (js name).

(** The selectors of the route.  The selector engine of cheerio compares
    the value of [rel] without regard to case in an HTML document, as it
    does for the attributes HTML declares case-insensitive; [href] is not
    one of them. *)
Definition sel_img (e : Element) : bool := tag_is "img" e.
Definition sel_srcset (e : Element) : bool :=
  (tag_is "img" e || tag_is "source" e) && has_attr e "srcset".
Definition sel_styled (e : Element) : bool := has_attr e "style".
Definition sel_style (e : Element) : bool := tag_is "style" e.
Definition sel_stylesheet (e : Element) : bool :=
  tag_is "link" e &&
  match attr e "rel" with
  | Some v => jseqb (map lower v) (js "stylesheet")
  | None => false
  end.
Definition sel_google (e : Element) : bool :=
  tag_is "link" e &&
  match attr e "href" with
  | Some v => includes (js "fonts.googleapis.com") v
  | None => false
  end.

(** ** The network *)

Inductive FetchOutcome : Type :=
| NetworkError
| Response (status : nat) (statusText : jsstring) (body : option jsstring).

(** [res.ok] *)
Definition ok (status : nat) : bool := (200 <=? status) && (status <=? 299).

(** What one stylesheet promise of the route appends to [allCss]:
    [fetch(...).then((res) => res.ok ? res.text() : '').then((css) =>
    { if (css) allCss.push(css) }).catch(() => {})]; a body of [None] is a
    [text()] that rejects. *)
Definition stylesheet_text (o : FetchOutcome) : option jsstring :=
  match o with
  | NetworkError => None
  | Response status _ body => if ok status then truthy body else None
  end.

Fixpoint remove_nth {A : Type} (k : nat) (l : list A) : list A :=
  match l, k with
  | [], _ => []
  | _ :: t, O => t
  | x :: t, S k' => x :: remove_nth k' t
  end.

(** The order in which concurrent promises settle is not the program's
    to choose: a schedule picks, at each step, which of the pending ones
    settles next.  Every schedule gives an order and every order comes
    from one. *)
Fixpoint settle {A : Type} (fuel : nat) (sched : list nat) (pending : list A) : list A :=
  match fuel, pending with
  | S f, d :: _ =>
      let k := hd 0 sched mod length pending in
      nth k pending d :: settle f (tl sched) (remove_nth k pending)
  | _, _ => []
  end.

Definition settle_order {A : Type} (sched : list nat) (pending : list A) : list A :=
  settle (length pending) sched pending.

Fixpoint somes {A : Type} (l : list (option A)) : list A :=
  match l with
  | [] => []
  | Some x :: l' => x :: somes l'
  | None :: l' => somes l'
  end.

(** ** The route *)

Record ExplodeResponse : Type := mkResponse {
  images : list jsstring;
  colors : list jsstring;
  fonts : list jsstring
}.

(** [NextResponse.json(...)]: the error object with its status, or the
    three collections. *)
Inductive HttpResponse : Type :=
| ErrorJson (status : nat) (error : jsstring)
| OkJson (response : ExplodeResponse).

(** [await request.json()]: a body that is not JSON, or the [url] field of
    the body when it has one. *)
Inductive Request : Type :=
| BadJson
| Body (url : option jsstring).

Definition internalError : HttpResponse := ErrorJson 500 (js "Internal server error").

(** [src.trim().split(/\s+/)[0]]: what precedes the first run of white
    space. *)
Definition firstToken (src : jsstring) : jsstring :=
  takeWhile (fun c => negb (is_space c)) (trim src).

(** [/family=([^&:]+)/i] *)
Definition googleFamilyRegex : Regex :=
  RSeq (RLit (js "family="))
       (RGroup (RPlus (RClass true [CChar (ch "&"); CChar (ch ":")]))).

(** [family.replace(/\+/g, ' ')] *)
Definition plusToSpace (family : jsstring) : jsstring :=
  map (fun c => if N.eqb c (ch "+") then ch " " else c) family.

Section Route.

(** [new URL(input, base).href], [None] when the constructor throws. *)
Variable URL : jsstring -> option jsstring -> option jsstring.

(** The outcome of the [n]-th [fetch] of a request, sent to the given
    address: the document is number 0, the stylesheets follow in the
    order of their links. *)
Variable fetch : nat -> jsstring -> FetchOutcome.

(** [cheerio.load] *)
Variable load : jsstring -> Document.

(** The order in which the stylesheet promises settle. *)
Variable sched : list nat.

Definition resolveUrl (baseUrl relativeUrl : jsstring) : jsstring :=
  match URL relativeUrl (Some baseUrl) with
  | Some href => href
  | None => relativeUrl
  end.

Definition extractBackgroundImages (css baseUrl : jsstring) : list jsstring :=
  fold_left
    (fun images m =>
       let imageUrl := grp m in
       if negb (startsWith (js "data:") imageUrl)
       then images ++ [resolveUrl baseUrl imageUrl] else images)
    (matchAll false bgRegex css) [].

(** Extract images from <img> tags *)
Definition addImgSrc (url : jsstring) (images : JSSet) (elem : Element) : JSSet :=
  match truthy (attr elem "src") with
  | Some src =>
      if negb (startsWith (js "data:") src)
      then set_add (resolveUrl url src) images else images
  | None => images
  end.

(** Extract images from srcset attributes *)
Definition addSrcset (url : jsstring) (images : JSSet) (elem : Element) : JSSet :=
  match truthy (attr elem "srcset") with
  | Some srcset =>
      fold_left
        (fun images src =>
           let imgUrl := firstToken src in
           if nonempty imgUrl && negb (startsWith (js "data:") imgUrl)
           then set_add (resolveUrl url imgUrl) images else images)
        (split_on (ch ",") srcset) images
  | None => images
  end.

(** Extract inline styles and collect CSS *)
Definition inlineStyles (doc : Document) : list jsstring :=
  flat_map
    (fun elem => match truthy (attr elem "style") with
                 | Some style => [style]
                 | None => []
                 end)
    (filter sel_styled doc).

(** Extract CSS from <style> tags *)
Definition styleBlocks (doc : Document) : list jsstring :=
  flat_map
    (fun elem => match truthy (Some (html elem)) with
                 | Some css => [css]
                 | None => []
                 end)
    (filter sel_style doc).

(** Extract CSS from <link> tags: the addresses fetched, in the order of
    the links. *)
Definition stylesheetUrls (url : jsstring) (doc : Document) : list jsstring :=
  flat_map
    (fun elem => match truthy (attr elem "href") with
                 | Some href => [resolveUrl url href]
                 | None => []
                 end)
    (filter sel_stylesheet doc).

Definition fetchAll (from : nat) (urls : list jsstring) : list FetchOutcome :=
  map (fun nu => fetch (fst nu) (snd nu)) (combine (seq from (length urls)) urls).

(** What [allCss] holds once [Promise.all] has resolved: the fragments
    pushed while walking the document, then the stylesheets received, in
    the order their promises settled. *)
Definition collectCss (url : jsstring) (doc : Document) : list jsstring :=
  inlineStyles doc ++ styleBlocks doc
  ++ somes (settle_order sched (map stylesheet_text (fetchAll 1 (stylesheetUrls url doc)))).

(** Also check for Google Fonts in link tags; [None] is the [URIError]
    of [decodeURIComponent]. *)
Definition addGoogleFonts (fonts : option JSSet) (elem : Element) : option JSSet :=
  match fonts with
  | None => None
  | Some fonts =>
      match truthy (attr elem "href") with
      | Some href =>
          match exec true googleFamilyRegex href with
          | Some familyMatch =>
              match decodeURIComponent (grp familyMatch) with
              | Some decoded =>
                  let families := split_on (ch "|") decoded in
                  Some (fold_left (fun fonts family => set_add (plusToSpace family) fonts)
                                  families fonts)
              | None => None
              end
          | None => Some fonts
          end
      | None => Some fonts
      end
  end.

(** What follows [cheerio.load]: the three collections, or [None] when
    an exception reaches the handler of the route. *)
Definition extractAssets (url : jsstring) (doc : Document) : option ExplodeResponse :=
  let images := fold_left (addImgSrc url) (filter sel_img doc) [] in
  let images := fold_left (addSrcset url) (filter sel_srcset doc) images in
  let combinedCss := join newline (collectCss url doc) in
  let images := add_all (extractBackgroundImages combinedCss url) images in
  let colors := add_all (extractColors combinedCss) [] in
  let fonts := add_all (extractFonts combinedCss) [] in
  match fold_left addGoogleFonts (filter sel_google doc) (Some fonts) with
  | Some fonts => Some (mkResponse images colors fonts)
  | None => None
  end.

(** The handler, with the addresses it sent a [fetch] to. *)
Definition POST (request : Request) : HttpResponse * list jsstring :=
  match request with
  | BadJson => (internalError, [])
  | Body url =>
      match truthy url with
      | None => (ErrorJson 400 (js "URL is required"), [])
      | Some url =>
          match URL url None with
          | None => (ErrorJson 400 (js "Invalid URL format"), [])
          | Some _ =>
              match fetch 0 url with
              | NetworkError => (internalError, [url])
              | Response status statusText body =>
                  if negb (ok status)
                  then (ErrorJson 502 (js "Failed to fetch URL: " ++ statusText), [url])
                  else
                    match body with
                    | None => (internalError, [url])
                    | Some html =>
                        let doc := load html in
                        let log := url :: stylesheetUrls url doc in
                        match extractAssets url doc with
                        | Some response => (OkJson response, log)
                        | None => (internalError, log)
                        end
                    end
              end
          end
      end
  end.

End Route.

(** * The page ([src/app/page.tsx]) *)

(** ** [String.prototype.replace] *)

(** [s.replace(r, by)] for an expression with the [g] flag and a
    replacement without [$]: every match is replaced, the search resuming
    where the match ended, one unit further after an empty match. *)
Fixpoint replace_from (ic : bool) (r : Regex) (by_ : jsstring) (skip : nat)
         (pre rest : list cu) {struct rest} : jsstring :=
  match skip with
  | S n =>
      match rest with
      | [] => []
      | c :: rest' => replace_from ic r by_ n (c :: pre) rest'
      end
  | O =>
      match match_at ic r pre rest with
      | Some m =>
          by_ ++ match rest with
                 | [] => []
                 | c :: rest' =>
                     match length (m_0 m) with
                     | O => c :: replace_from ic r by_ 0 (c :: pre) rest'
                     | S n => replace_from ic r by_ n (c :: pre) rest'
                     end
                 end
      | None =>
          match rest with
          | [] => []
          | c :: rest' => c :: replace_from ic r by_ 0 (c :: pre) rest'
          end
      end
  end.

Definition replaceAll (ic : bool) (r : Regex) (by_ : jsstring) (s : jsstring) : jsstring :=
  replace_from ic r by_ 0 [] s.

(** ** [encodeURIComponent] *)

(** [uriUnescaped]: letters, digits and the marks [-_.!~*'()]. *)
Definition uri_unreserved (c : cu) : bool :=
  in_range 48%N 57%N c || in_range 65%N 90%N c || in_range 97%N 122%N c
  || existsb (N.eqb c) (js "-_.!~*'()").

Definition hexdigit_of (k : N) : cu :=
  nth (N.to_nat k) (js "0123456789ABCDEF") (ch "0").

(** [%XX] for an octet. *)
Definition escape (b : N) : jsstring :=
  [ch "%"; hexdigit_of (b / 16)%N; hexdigit_of (b mod 16)%N].

(** The octets of the UTF-8 encoding of a code point. *)
Definition utf8 (v : N) : list N :=
  if (v <? 128)%N then [v]
  else if (v <? 2048)%N then [192 + v / 64; 128 + v mod 64]%N
  else if (v <? 65536)%N
       then [224 + v / 4096; 128 + (v / 64) mod 64; 128 + v mod 64]%N
       else [240 + v / 262144; 128 + (v / 4096) mod 64; 128 + (v / 64) mod 64;
             128 + v mod 64]%N.

Definition is_lead (c : cu) : bool := in_range 55296%N 56319%N c.
Definition is_trail (c : cu) : bool := in_range 56320%N 57343%N c.

(** [UTF16SurrogatePairToCodePoint] *)
Definition pair_code_point (lead trail : cu) : N :=
  (65536 + (lead - 55296) * 1024 + (trail - 56320))%N.

(** [None] stands for the [URIError] a surrogate without its pair
    raises. *)
Fixpoint encodeURIComponent (s : jsstring) : option jsstring :=
  match s with
  | [] => Some []
  | c :: s1 =>
      if uri_unreserved c then option_map (cons c) (encodeURIComponent s1)
      else if is_trail c then None
      else if is_lead c then
        match s1 with
        | d :: s2 =>
            if is_trail d
            then option_map (app (flat_map escape (utf8 (pair_code_point c d))))
                            (encodeURIComponent s2)
            else None
        | [] => None
        end
      else option_map (app (flat_map escape (utf8 c))) (encodeURIComponent s1)
  end.

(** ** The component *)

Module Page.

(** The JSON document of an answer of the route: the error object or the
    three collections. *)
Inductive Data : Type :=
| ErrorObject (error : jsstring)
| Collections (data : ExplodeResponse).

(** What [fetch('/api/explode', ...)] comes to, seen from the page.  The
    promise rejects, with an [Error] of the given message or with a value
    that is not an [Error]; or it resolves with a status and a body, which
    [response.json()] parses, or rejects with an [Error] of the given
    message. *)
Inductive ApiOutcome : Type :=
| Rejected (message : option jsstring)
| Answered (status : nat) (body : jsstring + Data).

Inductive Filter : Type := FilterAll | FilterImages | FilterColors | FilterFonts.

(** The state of the component. *)
Record State : Type := mkState {
  url : jsstring;
  loading : bool;
  result : option Data;
  error : jsstring;
  activeFilter : Filter;
  toastMessage : jsstring
}.

Definition setLoading (v : bool) (st : State) : State :=
  mkState (url st) v (result st) (error st) (activeFilter st) (toastMessage st).
Definition setError (v : jsstring) (st : State) : State :=
  mkState (url st) (loading st) (result st) v (activeFilter st) (toastMessage st).
Definition setResult (v : option Data) (st : State) : State :=
  mkState (url st) (loading st) v (error st) (activeFilter st) (toastMessage st).

Definition specimen : jsstring := js "https://fonts.google.com/specimen/".

(** [handleFontClick]: the address given to [window.open], or [None]
    when [encodeURIComponent] throws. *)
Definition handleFontClick (font : jsstring) : option jsstring :=
  let fontName :=
    replaceAll false quoteClass [] (trim (hd [] (split_on (ch ",") font))) in
  option_map (app specimen)
             (encodeURIComponent (replaceAll false (RPlus spaceClass) (js "+") fontName)).

Section Handlers.

(** The outcome of the request sent for a target. *)
Variable api : jsstring -> ApiOutcome.

(** [handleExplode]: the state once the handler has run to its end, and
    the targets it sent a request for. *)
Definition handleExplode (st : State) : State * list jsstring :=
  if negb (nonempty (trim (url st)))
  then (setError (js "Please enter a URL") st, [])
  else
    let st := setResult None (setError [] (setLoading true st)) in
    let st :=
      match api (url st) with
      | Rejected (Some message) => setError message st
      | Rejected None => setError (js "An error occurred") st
      | Answered status body =>
          if negb (ok status) then setError (js "Failed to explode URL") st
          else match body with
               | inr data => setResult (Some data) st
               | inl message => setError message st
               end
      end in
    (setLoading false st, [url st]).

End Handlers.

(** [NextResponse.json(body, { status })], the status 200 when none is
    given. *)
Definition status_of (resp : HttpResponse) : nat :=
  match resp with
  | ErrorJson status _ => status
  | OkJson _ => 200
  end.

Definition body_of (resp : HttpResponse) : Data :=
  match resp with
  | ErrorJson _ error => ErrorObject error
  | OkJson response => Collections response
  end.

(** The route behind [/api/explode], reached with the body
    [JSON.stringify({ url })]. *)
Definition explode (URL : jsstring -> option jsstring -> option jsstring)
           (fetch : nat -> jsstring -> FetchOutcome) (load : jsstring -> Document)
           (sched : list nat) (target : jsstring) : ApiOutcome :=
  let resp := fst (POST URL fetch load sched (Body (Some target))) in
  Answered (status_of resp) (inr (body_of resp)).

End Page.

(** * Notions of the specification

    What the properties below are stated with: the tokens, declarations
    and blocks of a text described without regular expressions, the
    corpus of a request, and two sample requests. *)

Unset Implicit Arguments.

(** ** Sets *)

(** The elements of a list, each at its first occurrence. *)
Fixpoint first_occurrences (seen : list jsstring) (xs : list jsstring) : list jsstring :=
  match xs with
  | [] => []
  | x :: xs' =>
      if set_has x seen then first_occurrences seen xs'
      else x :: first_occurrences (seen ++ [x]) xs'
  end.

(** ** Colors *)

Definition is_hex (c : cu) : bool :=
  in_range 48%N 57%N c || in_range 65%N 70%N c || in_range 97%N 102%N c.

Definition is_upper_hex (c : cu) : bool :=
  in_range 48%N 57%N c || in_range 65%N 70%N c.

(** What the specification calls a token: [#], then exactly [n]
    hexadecimal digits, then a word boundary (the end of the text or a
    unit that is not a word character). *)
Definition token_at (n : nat) (rest : jsstring) : option jsstring :=
  match rest with
  | h :: t =>
      if N.eqb h (ch "#") && (n <=? length t) && forallb is_hex (firstn n t)
         && negb (match skipn n t with c :: _ => is_word c | [] => false end)
      then Some (h :: firstn n t) else None
  | [] => None
  end.

Definition color_token (rest : jsstring) : option jsstring :=
  match token_at 6 rest with
  | Some t => Some t
  | None => token_at 3 rest
  end.

Definition opt_list {A : Type} (o : option A) : list A :=
  match o with Some x => [x] | None => [] end.

(** The tokens of a text: the one that starts at each position, if any. *)
Fixpoint color_tokens (text : jsstring) : list jsstring :=
  match text with
  | [] => []
  | _ :: t => opt_list (color_token text) ++ color_tokens t
  end.

(** [#RGB] to [#RRGGBB], upper-cased. *)
Definition expand (token : jsstring) : jsstring :=
  match token with
  | [h; r; g; b] => toUpperCase [h; r; r; g; g; b; b]
  | _ => toUpperCase token
  end.

(** [#] followed by six upper-case hexadecimal digits. *)
Definition is_color (c : jsstring) : bool :=
  match c with
  | h :: ds => N.eqb h (ch "#") && (length ds =? 6) && forallb is_upper_hex ds
  | [] => false
  end.

(** ** Matches, described directly *)

(** What is left of [rest] after the literal [lit], compared as the flag
    [ic] says. *)
Fixpoint strip_prefix (ic : bool) (lit rest : jsstring) : option jsstring :=
  match lit, rest with
  | [], _ => Some rest
  | c :: lit', x :: rest' =>
      if N.eqb (canon ic x) (canon ic c) then strip_prefix ic lit' rest' else None
  | _ :: _, [] => None
  end.

(** The states a greedy [c*] offers for a class [c] that accepts the
    units [p] does: after the longest run first, then after each shorter
    one. *)
Fixpoint star_states (p : cu -> bool) (pre rest : list cu) (cap : option jsstring)
  : list MState :=
  match rest with
  | x :: xs =>
      if p x then star_states p (x :: pre) xs cap ++ [mkSt pre rest cap]
      else [mkSt pre rest cap]
  | [] => [mkSt pre rest cap]
  end.

(** The first success of [h] over the states [c*] offers. *)
Fixpoint star_first {B : Type} (h : MState -> option B) (p : cu -> bool)
         (pre rest : list cu) (cap : option jsstring) : option B :=
  match rest with
  | x :: xs =>
      if p x then
        match star_first h p (x :: pre) xs cap with
        | Some b => Some b
        | None => h (mkSt pre rest cap)
        end
      else h (mkSt pre rest cap)
  | [] => h (mkSt pre [] cap)
  end.

(** The ways [#] followed by [n] digits and a boundary matches, once [#]
    has been read. *)
Definition hex_run (n : nat) (st : MState) : list MState :=
  flat_map (matcher false RWordB)
           (map (set_cap st) (matcher false (RRep n hexdigit) st)).


(** An expression every match of which takes at least one unit. *)
Fixpoint consuming (r : Regex) : bool :=
  match r with
  | RChar _ | RClass _ _ => true
  | RSeq a b => consuming a || consuming b
  | RAlt a b => consuming a && consuming b
  | RGroup a => consuming a
  | _ => false
  end.

Definition cap_of (e : MState) : jsstring :=
  match cap1 e with Some g => g | None => [] end.

Definition some_match {A : Type} (l : list A) : bool :=
  match l with [] => false | _ :: _ => true end.

Definition as_match (m : jsstring * jsstring) : Match := mkMatch (fst m) (Some (snd m)).

(** The leftmost match of an expression whose match at a position is
    [f] of the text from that position on. *)
Fixpoint find_match (f : jsstring -> option (jsstring * jsstring)) (rest : jsstring)
  : option (jsstring * jsstring) :=
  match f rest with
  | Some m => Some m
  | None => match rest with [] => None | _ :: t => find_match f t end
  end.

(** The leftmost capture of an expression that captures [f] of the text
    from a position on. *)
Fixpoint find_first (f : jsstring -> option jsstring) (rest : jsstring) : option jsstring :=
  match f rest with
  | Some c => Some c
  | None => match rest with [] => None | _ :: t => find_first f t end
  end.

(** The successive matches of an expression whose match at a position
    is [f] of the text from that position on, each search resuming where
    the last match ended. *)
Fixpoint find_all (f : jsstring -> option (jsstring * jsstring)) (skip : nat)
         (rest : jsstring) {struct rest} : list (jsstring * jsstring) :=
  match skip with
  | S n => match rest with [] => [] | _ :: t => find_all f n t end
  | O =>
      match f rest with
      | Some m =>
          m :: match rest with [] => [] | _ :: t => find_all f (length (fst m) - 1) t end
      | None => match rest with [] => [] | _ :: t => find_all f 0 t end
      end
  end.

(** ** The font-service parameter *)

Definition not_amp_colon (c : cu) : bool :=
  negb (N.eqb c (ch "&") || N.eqb c (ch ":")).

(** A match of [googleFamilyRegex] at the head of [rest]: the literal,
    compared without regard to case, then the longest run free of [&] and
    [:], which must not be empty.  The result is [match[0]] and
    [match[1]]. *)
Definition family_at (rest : jsstring) : option (jsstring * jsstring) :=
  match strip_prefix true (js "family=") rest with
  | Some r1 =>
      match takeWhile not_amp_colon r1 with
      | [] => None
      | run => Some (firstn 7 rest ++ run, run)
      end
  | None => None
  end.

(** What one font-service link contributes: the names of
    [addGoogleFonts], or [None] for the [URIError]. *)
Definition hrefFamilies (href : jsstring) : option (list jsstring) :=
  match exec true googleFamilyRegex href with
  | Some familyMatch =>
      option_map (fun decoded => map plusToSpace (split_on (ch "|") decoded))
                 (decodeURIComponent (grp familyMatch))
  | None => Some []
  end.

(** The names one link contributes; [None] is the [URIError]. *)
Definition linkFamilies (elem : Element) : option (list jsstring) :=
  match truthy (attr elem "href") with
  | Some href => hrefFamilies href
  | None => Some []
  end.

(** ** Declarations of [font-family] *)

(** What [\s*(c+)] captures when white space belongs to the class [c]:
    the run of [c] without its leading white space, or, when the run is
    white space only, the last unit of it. *)
Definition after_spaces (run : jsstring) : jsstring :=
  match dropWhile is_space run with
  | [] => [last run 0%N]
  | g => g
  end.

Definition not_terminator (c : cu) : bool :=
  negb (N.eqb c (ch ";") || N.eqb c (ch "{") || N.eqb c (ch "}")).

(** A declaration at the head of [rest], as the specification words it:
    [font-family] without regard to case, white space, a colon, and the
    value, the longest run free of [;], [{] and [}], which must not be
    empty.  The result is the text of the declaration and that run. *)
Definition declaration_at (rest : jsstring) : option (jsstring * jsstring) :=
  match strip_prefix true (js "font-family") rest with
  | Some r1 =>
      match dropWhile is_space r1 with
      | c :: r3 =>
          if N.eqb c (ch ":") then
            match takeWhile not_terminator r3 with
            | [] => None
            | run => Some (firstn 11 rest ++ takeWhile is_space r1 ++ c :: run, run)
            end
          else None
      | [] => None
      end
  | None => None
  end.

Definition declaration_match (d : jsstring * jsstring) : Match :=
  mkMatch (fst d) (Some (after_spaces (snd d))).

(** Equal without regard to the case of ASCII letters. *)
Definition ci_equal (a b : jsstring) : bool := jseqb (map upper a) (map upper b).

Definition css_wide_keyword (s : jsstring) : bool :=
  existsb (ci_equal s) [js "inherit"; js "initial"; js "unset"; js "none"].

(** The values of the declarations of a text, trimmed. *)
Definition declarations (css : jsstring) : list jsstring :=
  map (fun d => trim (snd d)) (find_all declaration_at 0 css).

(** The families a value declares: its pieces between commas, each
    trimmed and rid of every quote character, but for the empty ones and
    the CSS-wide keywords. *)
Definition familiesOf (value : jsstring) : list jsstring :=
  filter (fun f => nonempty f && negb (css_wide_keyword f))
         (map cleanFont (split_on (ch ",") value)).

Definition declaredFamilies (css : jsstring) : list jsstring :=
  flat_map familiesOf (declarations css).

(** Stripping as the specification words it: the quote characters and
    the white space at both ends of a token are removed. *)
Definition strip_quotes_and_space (tok : jsstring) : jsstring :=
  let edge := fun c => is_quote c || is_space c in
  rev (dropWhile edge (rev (dropWhile edge tok))).

(** ** [@font-face] blocks *)

Definition not_rbrace (c : cu) : bool := negb (N.eqb c (ch "}")).

(** A block at the head of [rest]: [@font-face] without regard to case,
    white space, [{], a body free of [}] that is not empty, and [}].  The
    result is the text of the block and its body. *)
Definition block_at (rest : jsstring) : option (jsstring * jsstring) :=
  match strip_prefix true (js "@font-face") rest with
  | Some r1 =>
      match dropWhile is_space r1 with
      | c :: r3 =>
          if N.eqb c (ch "{") then
            match takeWhile not_rbrace r3, dropWhile not_rbrace r3 with
            | y :: body, b :: _ =>
                Some (firstn 10 rest ++ takeWhile is_space r1 ++ c :: (y :: body) ++ [b],
                      y :: body)
            | _, _ => None
            end
          else None
      | [] => None
      end
  | None => None
  end.

Definition not_quote_semi (c : cu) : bool := negb (is_quote c || N.eqb c (ch ";")).

Definition skip_quote (rest : jsstring) : jsstring :=
  match rest with
  | q :: v => if is_quote q then v else rest
  | [] => []
  end.

Definition familyClass : Regex :=
  RClass true [CChar squote; CChar dquote; CChar (ch ";")].

(** [([^'\x22;]+)['\x22]?] *)
Definition familyTail : Regex := RSeq (RGroup (RPlus familyClass)) (ROpt quoteClass).

(** What [faceFamilyRegex] captures at the head of [rest]: after
    [font-family], white space, a colon, white space and an optional
    quote, the longest run free of quotes and [;]; when that run is
    empty, the last unit of the white space after the colon. *)
Definition face_family_at (rest : jsstring) : option jsstring :=
  match strip_prefix true (js "font-family") rest with
  | Some r1 =>
      match dropWhile is_space r1 with
      | c :: r3 =>
          if N.eqb c (ch ":") then
            match takeWhile not_quote_semi (skip_quote (dropWhile is_space r3)) with
            | [] =>
                match rev (takeWhile is_space r3) with
                | [] => None
                | w :: _ => Some [w]
                end
            | run => Some run
            end
          else None
      | [] => None
      end
  | None => None
  end.

(** The bodies of the [@font-face] blocks of a text. *)
Definition blocks (css : jsstring) : list jsstring :=
  map snd (find_all block_at 0 css).

(** The family a block declares: what its first [font-family] declaration
    captures, trimmed. *)
Definition block_family (body : jsstring) : option jsstring :=
  option_map trim (find_first face_family_at body).

Definition faceFamilies (css : jsstring) : list jsstring :=
  flat_map (fun body => opt_list (block_family body)) (blocks css).

(** ** The request *)

(** The corpus the three extractors run over. *)
Definition corpus (URL : jsstring -> option jsstring -> option jsstring)
           (fetch : nat -> jsstring -> FetchOutcome) (sched : list nat)
           (url : jsstring) (doc : Document) : jsstring :=
  join newline (collectCss URL fetch sched url doc).

(** The references to images found in the markup, before the corpus is
    read. *)
Definition markupImages (URL : jsstring -> option jsstring -> option jsstring)
           (url : jsstring) (doc : Document) : JSSet :=
  fold_left (addSrcset URL url) (filter sel_srcset doc)
            (fold_left (addImgSrc URL url) (filter sel_img doc) []).




(** ** The escapes of the font-service parameter *)

Definition no_percent (s : jsstring) : bool :=
  forallb (fun c => negb (N.eqb c (ch "%"))) s.

(** ** Background images *)

Definition not_quote_paren (c : cu) : bool := negb (is_quote c || N.eqb c (ch ")")).

(** The quote a reference may open with. *)
Definition leading_quote (rest : jsstring) : jsstring :=
  match rest with
  | q :: _ => if is_quote q then [q] else []
  | [] => []
  end.

(** What closes a reference at the head of [rest]: [)], or a quote and
    [)]. *)
Definition closing (rest : jsstring) : option jsstring :=
  match rest with
  | c :: after =>
      if N.eqb c (ch ")") then Some [c]
      else if is_quote c then
        match after with
        | d :: _ => if N.eqb d (ch ")") then Some [c; d] else None
        | [] => None
        end
      else None
  | [] => None
  end.

(** A reference at the head of [rest]: [url(], an optional quote, the
    longest run free of quotes and [)], which must not be empty, an
    optional quote and [)].  The result is the text of the reference and
    that run. *)
Definition background_at (rest : jsstring) : option (jsstring * jsstring) :=
  match strip_prefix false (js "url(") rest with
  | Some r1 =>
      match takeWhile not_quote_paren (skip_quote r1) with
      | [] => None
      | run =>
          match closing (dropWhile not_quote_paren (skip_quote r1)) with
          | Some close => Some (js "url(" ++ leading_quote r1 ++ run ++ close, run)
          | None => None
          end
      end
  | None => None
  end.

(** The references of a text, as written. *)
Definition backgrounds (css : jsstring) : list jsstring :=
  map snd (find_all background_at 0 css).

Definition bgClass : Regex := RClass true [CChar squote; CChar dquote; CChar (ch ")")].
Definition bgTail : Regex := RSeq (ROpt quoteClass) (RChar (ch ")")).

(** ** The images of an answer *)

(** A reference the route keeps: not empty, and not a data URI. *)
Definition usable (ref : jsstring) : bool :=
  nonempty ref && negb (startsWith (js "data:") ref).

(** The [src] of the images of a document, in document order. *)
Definition srcReferences (doc : Document) : list jsstring :=
  flat_map (fun e => opt_list (attr e "src")) (filter sel_img doc).

(** The candidates of the [srcset] attributes: of each piece between
    commas, what precedes the first white space. *)
Definition srcsetReferences (doc : Document) : list jsstring :=
  flat_map (fun e => match attr e "srcset" with
                     | Some srcset => map firstToken (split_on (ch ",") srcset)
                     | None => []
                     end)
           (filter sel_srcset doc).

(** ** Replacements, described directly *)

(** A text with each run of white space replaced by one [+]; [inRun]
    tells that the unit before was white space. *)
Fixpoint plus_runs (inRun : bool) (s : jsstring) : jsstring :=
  match s with
  | [] => []
  | c :: s' =>
      if is_space c
      then if inRun then plus_runs true s' else ch "+" :: plus_runs true s'
      else c :: plus_runs false s'
  end.

(** The name [handleFontClick] looks up: the first piece of the entry,
    trimmed, without its quote characters. *)
Definition specimenName (font : jsstring) : jsstring :=
  filter (fun c => negb (is_quote c)) (trim (hd [] (split_on (ch ",") font))).


(** A string of UTF-16 code units. *)
Definition code_units (s : jsstring) : bool := forallb (fun c => (c <? 65536)%N) s.

(** A unit an encoded component is made of: one that stands for itself,
    an apostrophe, or part of an escape. *)
Definition encoded_unit (c : cu) : bool := uri_unreserved c || N.eqb c (ch "%").

(** ** Fonts and the text *)

(** The text contains [font-family], in any letter case. *)
Definition mentions_font_family (css : jsstring) : Prop :=
  exists before lit after,
    css = before ++ lit ++ after /\ map upper lit = map upper (js "font-family").

(** ** Sample requests *)

Module Sample.

Local Open Scope string_scope.

(** A resolver given by a table of the addresses it accepts. *)
Definition tableURL (t : list (string * string)) (input : jsstring)
           (base : option jsstring) : option jsstring :=
  lookup input (map (fun p => (js (fst p), js (snd p))) t).

Definition elem (t : string) (a : list (string * string)) (inner : string) : Element :=
  mkElem (js t) (map (fun p => (js (fst p), js (snd p))) a) (js inner).

Definition url : jsstring := js "https://x.com/".

Definition URL : jsstring -> option jsstring -> option jsstring :=
  tableURL [("https://x.com/", "https://x.com/");
            ("https://x.com/a.css", "https://x.com/a.css");
            ("https://x.com/b.css", "https://x.com/b.css");
            ("/a.png", "https://x.com/a.png");
            ("/bg.png", "https://x.com/bg.png")].

(** A page with two stylesheets, two inline styles, a style block and an
    image. *)
Definition doc : Document :=
  [elem "link" [("rel", "stylesheet"); ("href", "https://x.com/a.css")] "";
   elem "link" [("rel", "stylesheet"); ("href", "https://x.com/b.css")] "";
   elem "p" [("style", "color: #fff")] "";
   elem "p" [("style", "color:#FFF; background: url(/bg.png)")] "";
   elem "style" [] "@font-face{font-family:'My Font'}";
   elem "img" [("src", "/a.png")] ""].

(** The page is served, the first stylesheet is not found, the second
    is. *)
Definition fetch (n : nat) (address : jsstring) : FetchOutcome :=
  if jseqb address url then Response 200 (js "OK") (Some (js "<html>"))
  else if jseqb address (js "https://x.com/b.css")
       then Response 200 (js "OK") (Some (js "h1 { color: #0f0; font-family: Georgia; }"))
       else Response 404 (js "Not Found") None.

Definition load (text : jsstring) : Document := doc.

Definition response : ExplodeResponse :=
  mkResponse [js "https://x.com/a.png"; js "https://x.com/bg.png"]
             [js "#FFFFFF"; js "#00FF00"]
             [js "My Font"; js "Georgia"].

End Sample.

(** A page whose one stylesheet link points to the font service. *)
Module FontService.

Local Open Scope string_scope.

Definition address : jsstring :=
  js "https://fonts.googleapis.com/css?family=Open+Sans|Roboto:400".

Definition URL : jsstring -> option jsstring -> option jsstring :=
  Sample.tableURL
    [("https://x.com/", "https://x.com/");
     ("https://fonts.googleapis.com/css?family=Open+Sans|Roboto:400",
      "https://fonts.googleapis.com/css?family=Open+Sans|Roboto:400")].

Definition link : Element :=
  Sample.elem "link"
    [("rel", "stylesheet");
     ("href", "https://fonts.googleapis.com/css?family=Open+Sans|Roboto:400")] "".

Definition load (text : jsstring) : Document := [link].

Definition fetch (n : nat) (target : jsstring) : FetchOutcome :=
  if jseqb target address
  then Response 200 (js "OK") (Some (js "@font-face{font-family:'Open Sans'}"))
  else Response 200 (js "OK") (Some (js "<html>")).

Definition response : ExplodeResponse :=
  mkResponse [] [] [js "Open Sans"; js "Roboto"].

End FontService.

(** * Properties *)

Ltac bool_N :=
  repeat match goal with
         | H : _ && _ = true |- _ => apply andb_true_iff in H; destruct H
         | H : _ || _ = true |- _ => apply orb_true_iff in H; destruct H
         | H : _ || _ = false |- _ => apply orb_false_iff in H; destruct H
         | H : negb _ = true |- _ => apply negb_true_iff in H
         | H : negb _ = false |- _ => apply negb_false_iff in H
         | H : (_ <=? _)%N = true |- _ => apply N.leb_le in H
         | H : (_ <=? _)%N = false |- _ => apply N.leb_gt in H
         | H : (_ <? _)%N = true |- _ => apply N.ltb_lt in H
         | H : (_ <? _)%N = false |- _ => apply N.ltb_ge in H
         | H : (_ =? _)%N = true |- _ => apply N.eqb_eq in H
         | H : (_ =? _)%N = false |- _ => apply N.eqb_neq in H
         end.

(** ** Strings and sets *)

Lemma jseqb_eq (a b : jsstring) : jseqb a b = true <-> a = b.
Proof.
  revert b; induction a as [|x a IH]; intros [|y b]; simpl; split;
    try congruence; try reflexivity.
  - intros H. apply andb_true_iff in H as [Hx Hab].
    apply N.eqb_eq in Hx. apply IH in Hab. congruence.
  - intros H. injection H as -> ->. rewrite N.eqb_refl. simpl. now apply IH.
Qed.

Lemma jseqb_refl (a : jsstring) : jseqb a a = true.
Proof. now apply jseqb_eq. Qed.

Lemma set_has_In (x : jsstring) (s : JSSet) : set_has x s = true <-> In x s.
Proof.
  unfold set_has. rewrite existsb_exists. split.
  - intros (y & Hy & E). apply jseqb_eq in E. now subst.
  - intros H. exists x. split; [assumption | apply jseqb_refl].
Qed.

Lemma set_has_not_In (x : jsstring) (s : JSSet) : set_has x s = false <-> ~ In x s.
Proof.
  rewrite <- set_has_In. destruct (set_has x s); split; congruence.
Qed.

Lemma set_add_In (x y : jsstring) (s : JSSet) :
  In y (set_add x s) <-> y = x \/ In y s.
Proof.
  unfold set_add. destruct (set_has x s) eqn:E.
  - apply set_has_In in E. split; [now right | intros [-> | H]; assumption].
  - rewrite in_app_iff. simpl. split; intros H; intuition congruence.
Qed.

Lemma set_add_NoDup (x : jsstring) (s : JSSet) : NoDup s -> NoDup (set_add x s).
Proof.
  intros H. unfold set_add. destruct (set_has x s) eqn:E; [assumption|].
  apply set_has_not_In in E.
  apply NoDup_rev in H. rewrite <- (rev_involutive (s ++ [x])).
  apply NoDup_rev. rewrite rev_app_distr. simpl. constructor; [|assumption].
  now rewrite <- in_rev.
Qed.

Lemma add_all_In (xs : list jsstring) (s : JSSet) (y : jsstring) :
  In y (add_all xs s) <-> In y xs \/ In y s.
Proof.
  unfold add_all. revert s. induction xs as [|x xs IH]; intros s; simpl.
  - tauto.
  - rewrite IH, set_add_In. intuition congruence.
Qed.

Lemma add_all_NoDup (xs : list jsstring) (s : JSSet) : NoDup s -> NoDup (add_all xs s).
Proof.
  unfold add_all. revert s. induction xs as [|x xs IH]; intros s H; simpl.
  - assumption.
  - apply IH. now apply set_add_NoDup.
Qed.

Lemma add_all_app (xs ys : list jsstring) (s : JSSet) :
  add_all (xs ++ ys) s = add_all ys (add_all xs s).
Proof. unfold add_all. apply fold_left_app. Qed.

Lemma add_all_first_occurrences (xs : list jsstring) (s : JSSet) :
  add_all xs s = s ++ first_occurrences s xs.
Proof.
  unfold add_all. revert s. induction xs as [|x xs IH]; intros s; simpl.
  - now rewrite app_nil_r.
  - rewrite IH. unfold set_add. destruct (set_has x s); [reflexivity|].
    now rewrite <- app_assoc.
Qed.

(** ** The matcher on the shapes the route uses *)

Lemma matcher_seq (ic : bool) (a b : Regex) (st : MState) :
  matcher ic (RSeq a b) st = flat_map (matcher ic b) (matcher ic a st).
Proof. reflexivity. Qed.

Lemma matcher_alt (ic : bool) (a b : Regex) (st : MState) :
  matcher ic (RAlt a b) st = matcher ic a st ++ matcher ic b st.
Proof. reflexivity. Qed.

Lemma matcher_group (ic : bool) (a : Regex) (st : MState) :
  matcher ic (RGroup a) st = map (set_cap st) (matcher ic a st).
Proof. reflexivity. Qed.

Lemma matcher_char (ic : bool) (c : cu) (pre rest : list cu) (cap : option jsstring) :
  matcher ic (RChar c) (mkSt pre rest cap) =
  match rest with
  | x :: xs => if N.eqb (canon ic x) (canon ic c) then [mkSt (x :: pre) xs cap] else []
  | [] => []
  end.
Proof. reflexivity. Qed.

Lemma matcher_class (ic neg : bool) (items : list ClassItem) (pre rest : list cu)
      (cap : option jsstring) :
  matcher ic (RClass neg items) (mkSt pre rest cap) =
  match rest with
  | x :: xs => if class_matches ic neg items x then [mkSt (x :: pre) xs cap] else []
  | [] => []
  end.
Proof. reflexivity. Qed.

Lemma flat_map_one {A B : Type} (f : A -> list B) (x : A) : flat_map f [x] = f x.
Proof. simpl. apply app_nil_r. Qed.

Lemma matcher_rep_class (ic : bool) (n : nat) (neg : bool) (items : list ClassItem)
      (pre rest : list cu) (cap : option jsstring) :
  matcher ic (RRep n (RClass neg items)) (mkSt pre rest cap) =
  if (n <=? length rest) && forallb (class_matches ic neg items) (firstn n rest)
  then [mkSt (rev (firstn n rest) ++ pre) (skipn n rest) cap] else [].
Proof.
  revert pre rest. induction n as [|n IH]; intros pre rest.
  - reflexivity.
  - cbn [RRep matcher]. destruct rest as [|x xs]; [reflexivity|].
    cbn [remaining]. destruct (class_matches ic neg items x) eqn:Hx.
    + cbn [flat_map]. unfold step. cbn [consumed cap1]. rewrite IH, app_nil_r.
      cbn [length firstn forallb skipn rev]. rewrite Hx.
      change (S n <=? S (length xs)) with (n <=? length xs).
      rewrite <- app_assoc. reflexivity.
    + cbn [length firstn forallb]. rewrite Hx, andb_false_r. reflexivity.
Qed.

(** ** Colors *)

Lemma class_hexdigit (c : cu) :
  class_matches false false
    [CRange (ch "0") (ch "9"); CRange (ch "A") (ch "F"); CRange (ch "a") (ch "f")] c
  = is_hex c.
Proof.
  unfold class_matches, is_hex. cbn [existsb item_matches xorb andb].
  rewrite !orb_false_r. now rewrite orb_assoc.
Qed.

Lemma is_hex_word (c : cu) : is_hex c = true -> is_word c = true.
Proof.
  unfold is_hex, is_word, in_range. intros H. bool_N.
  - replace (48 <=? c)%N with true by (symmetry; apply N.leb_le; lia).
    replace (c <=? 57)%N with true by (symmetry; apply N.leb_le; lia). reflexivity.
  - replace (65 <=? c)%N with true by (symmetry; apply N.leb_le; lia).
    replace (c <=? 90)%N with true by (symmetry; apply N.leb_le; lia).
    now rewrite !orb_true_r.
  - replace (97 <=? c)%N with true by (symmetry; apply N.leb_le; lia).
    replace (c <=? 122)%N with true by (symmetry; apply N.leb_le; lia).
    now rewrite !orb_true_r.
Qed.

Lemma is_hex_not_hash (c : cu) : is_hex c = true -> N.eqb c (ch "#") = false.
Proof.
  unfold is_hex, in_range. intros H. apply N.eqb_neq. intros ->.
  vm_compute in H. discriminate.
Qed.

Lemma is_hex_upper (c : cu) : is_hex c = true -> is_upper_hex (upper c) = true.
Proof.
  unfold is_hex, is_upper_hex, upper, is_lower, in_range. intros H.
  destruct ((97 <=? c)%N && (c <=? 122)%N) eqn:L;
    [|apply andb_false_iff in L; destruct L]; bool_N;
    first [ exfalso; lia
          | apply orb_true_iff; left; apply andb_true_iff; split; apply N.leb_le; lia
          | apply orb_true_iff; right; apply andb_true_iff; split; apply N.leb_le; lia ].
Qed.

Lemma forallb_eq {A : Type} (f g : A -> bool) (l : list A) :
  (forall x, f x = g x) -> forallb f l = forallb g l.
Proof. intros E. induction l as [|x l IH]; simpl; [reflexivity | now rewrite E, IH]. Qed.

Lemma hex_run_ends_in_word (n : nat) (t pre : list cu) :
  0 < n -> n <= length t -> forallb is_hex (firstn n t) = true ->
  match rev (firstn n t) ++ pre with c :: _ => is_word c | [] => false end = true.
Proof.
  intros Hn Hlen Hhex.
  destruct (rev (firstn n t)) as [|c l] eqn:E.
  - apply (f_equal (@length cu)) in E. rewrite length_rev, firstn_length_le in E by lia.
    simpl in E. lia.
  - simpl. apply is_hex_word. rewrite forallb_forall in Hhex. apply Hhex.
    apply in_rev. rewrite E. now left.
Qed.

Lemma hex_run_spec (n : nat) (h : cu) (pre t : list cu) :
  0 < n ->
  hex_run n (mkSt (h :: pre) t None) =
  if (n <=? length t) && forallb is_hex (firstn n t)
     && negb (match skipn n t with c :: _ => is_word c | [] => false end)
  then [mkSt (rev (firstn n t) ++ h :: pre) (skipn n t) (Some (firstn n t))]
  else [].
Proof.
  intros Hn. unfold hex_run, hexdigit. rewrite matcher_rep_class.
  rewrite (forallb_eq _ is_hex) by apply class_hexdigit.
  destruct (n <=? length t) eqn:Hlen; [|reflexivity].
  destruct (forallb is_hex (firstn n t)) eqn:Hhex; [|reflexivity].
  apply Nat.leb_le in Hlen.
  cbn [andb map flat_map matcher]. unfold set_cap, word_before, word_after.
  cbn [consumed remaining cap1].
  rewrite hex_run_ends_in_word by assumption.
  rewrite length_skipn.
  replace (length t - (length t - n)) with n by lia.
  destruct (match skipn n t with c :: _ => is_word c | [] => false end);
    reflexivity.
Qed.

Lemma color_match_at (pre rest : list cu) :
  match_at false colorRegex pre rest =
  option_map (fun t => mkMatch t (Some (tl t))) (color_token rest).
Proof.
  unfold match_at, colorRegex, color_token, token_at.
  destruct rest as [|h t]; [reflexivity|].
  rewrite matcher_seq, matcher_char. unfold canon.
  destruct (N.eqb h (ch "#")) eqn:Hh; [|reflexivity].
  rewrite flat_map_one, matcher_seq, matcher_group, matcher_alt, map_app, flat_map_app.
  fold (hex_run 6 (mkSt (h :: pre) t None)). fold (hex_run 3 (mkSt (h :: pre) t None)).
  rewrite !hex_run_spec by lia. cbn [andb].
  assert (Hcut : forall n, n <= length t ->
            firstn (length (h :: t) - length (skipn n t)) (h :: t) = h :: firstn n t).
  { intros n Hn. rewrite length_skipn. cbn [length].
    replace (S (length t) - (length t - n)) with (S n) by lia. reflexivity. }
  destruct ((6 <=? length t) && forallb is_hex (firstn 6 t)
            && negb (match skipn 6 t with c :: _ => is_word c | [] => false end)) eqn:C6.
  - cbn [app remaining cap1 option_map tl].
    rewrite Hcut; [reflexivity|].
    apply andb_true_iff in C6 as [C6 _]. apply andb_true_iff in C6 as [C6 _].
    now apply Nat.leb_le.
  - cbn [app].
    destruct ((3 <=? length t) && forallb is_hex (firstn 3 t)
              && negb (match skipn 3 t with c :: _ => is_word c | [] => false end)) eqn:C3;
      [|reflexivity].
    cbn [remaining cap1 option_map tl].
    rewrite Hcut; [reflexivity|].
    apply andb_true_iff in C3 as [C3 _]. apply andb_true_iff in C3 as [C3 _].
    now apply Nat.leb_le.
Qed.

Lemma token_at_inv (n : nat) (rest tok : jsstring) :
  token_at n rest = Some tok ->
  exists t, rest = ch "#" :: t /\ tok = ch "#" :: firstn n t /\ n <= length t
            /\ forallb is_hex (firstn n t) = true
            /\ match skipn n t with c :: _ => is_word c | [] => false end = false.
Proof.
  unfold token_at. destruct rest as [|h t]; [discriminate|].
  destruct (N.eqb h (ch "#") && (n <=? length t) && forallb is_hex (firstn n t)
            && negb (match skipn n t with c :: _ => is_word c | [] => false end)) eqn:C;
    [|discriminate].
  intros [= <-].
  apply andb_true_iff in C as [C Hb]. apply andb_true_iff in C as [C Hh].
  apply andb_true_iff in C as [Hc Hl].
  apply N.eqb_eq in Hc. apply Nat.leb_le in Hl. apply negb_true_iff in Hb.
  subst h. exists t. auto.
Qed.

Lemma color_token_inv (rest tok : jsstring) :
  color_token rest = Some tok ->
  exists n t, (n = 6 \/ n = 3) /\ rest = ch "#" :: t /\ tok = ch "#" :: firstn n t
              /\ n <= length t /\ forallb is_hex (firstn n t) = true
              /\ match skipn n t with c :: _ => is_word c | [] => false end = false.
Proof.
  unfold color_token. destruct (token_at 6 rest) as [t6|] eqn:E6.
  - intros [= <-]. apply token_at_inv in E6 as (t & H). exists 6, t. tauto.
  - intros E3. apply token_at_inv in E3 as (t & H). exists 3, t. tauto.
Qed.

Lemma color_token_hex_head (c : cu) (t : jsstring) :
  is_hex c = true -> color_token (c :: t) = None.
Proof.
  intros H. unfold color_token, token_at. now rewrite (is_hex_not_hash c H).
Qed.

Lemma color_matchAll_from (rest : jsstring) :
  forall skip pre,
    skip <= length rest -> forallb is_hex (firstn skip rest) = true ->
    map (@m_0) (matchAll_from false colorRegex skip pre rest) = color_tokens rest.
Proof.
  induction rest as [|c t IH]; intros skip pre Hlen Hhex.
  - simpl in Hlen. replace skip with 0 by lia. cbn [matchAll_from].
    rewrite color_match_at. reflexivity.
  - destruct skip as [|n].
    + cbn [matchAll_from color_tokens]. rewrite color_match_at.
      destruct (color_token (c :: t)) as [tok|] eqn:E; cbn [option_map opt_list app map m_0].
      * f_equal. apply color_token_inv in E as (n & t' & Hn & Et & -> & Hle & Hh & _).
        injection Et as -> ->.
        cbn [length]. rewrite firstn_length_le by assumption.
        replace (S n - 1) with n by lia. now apply IH.
      * apply IH; [lia | reflexivity].
    + cbn [matchAll_from color_tokens]. cbn [firstn forallb] in Hhex.
      apply andb_true_iff in Hhex as [Hc Hhex].
      rewrite (color_token_hex_head c t Hc). cbn [opt_list app].
      apply IH; [simpl in Hlen; lia | assumption].
Qed.

Lemma color_matches (text : jsstring) :
  map (@m_0) (matchAll false colorRegex text) = color_tokens text.
Proof. apply color_matchAll_from; [lia | reflexivity]. Qed.

Lemma color_tokens_shape (text tok : jsstring) :
  In tok (color_tokens text) ->
  exists n ds, (n = 6 \/ n = 3) /\ tok = ch "#" :: ds /\ length ds = n
               /\ forallb is_hex ds = true.
Proof.
  induction text as [|c t IH]; [intros []|].
  cbn [color_tokens]. rewrite in_app_iff. intros [H|H]; [|now apply IH].
  destruct (color_token (c :: t)) as [tok'|] eqn:E; [|destruct H].
  destruct H as [<-|[]].
  apply color_token_inv in E as (n & t' & Hn & _ & -> & Hle & Hh & _).
  exists n, (firstn n t'). rewrite firstn_length_le by assumption. auto.
Qed.

Lemma normalizeColor_expand (ds : jsstring) :
  normalizeColor (ch "#" :: ds) = expand (ch "#" :: ds).
Proof.
  destruct ds as [|r [|g [|b [|x ds]]]]; reflexivity.
Qed.

Lemma expand_is_color (n : nat) (ds : jsstring) :
  n = 6 \/ n = 3 -> length ds = n -> forallb is_hex ds = true ->
  is_color (expand (ch "#" :: ds)) = true.
Proof.
  intros Hn Hlen Hhex.
  assert (Hup : forall l, forallb is_hex l = true ->
                          forallb is_upper_hex (map upper l) = true).
  { induction l as [|x l IHl]; [reflexivity|]. simpl. intros H.
    apply andb_true_iff in H as [Hx Hl]. now rewrite is_hex_upper, IHl. }
  destruct Hn as [-> | ->].
  - destruct ds as [|d1 [|d2 [|d3 [|d4 [|d5 [|d6 [|d7 ds]]]]]]]; try discriminate.
    unfold expand, toUpperCase, is_color. cbn [map length].
    change (upper (ch "#")) with (ch "#"). rewrite N.eqb_refl. cbn [Nat.eqb andb].
    apply (Hup [d1; d2; d3; d4; d5; d6] Hhex).
  - destruct ds as [|r [|g [|b [|x ds]]]]; try discriminate.
    unfold expand, toUpperCase, is_color. cbn [map length].
    change (upper (ch "#")) with (ch "#"). rewrite N.eqb_refl. cbn [Nat.eqb andb].
    cbn [forallb] in Hhex. bool_N. cbn [forallb].
    now rewrite !is_hex_upper.
Qed.

Lemma extractColors_expand (text : jsstring) :
  extractColors text = map expand (color_tokens text).
Proof.
  unfold extractColors. rewrite color_matches.
  apply map_ext_in. intros tok H.
  apply color_tokens_shape in H as (n & ds & _ & -> & _).
  apply normalizeColor_expand.
Qed.

Lemma extractColors_is_color (text c : jsstring) :
  In c (extractColors text) -> is_color c = true.
Proof.
  rewrite extractColors_expand, in_map_iff. intros (tok & <- & H).
  apply color_tokens_shape in H as (n & ds & Hn & -> & Hlen & Hhex).
  now apply (expand_is_color n).
Qed.

(** C4. [extractColors] matches exactly the tokens of the text ([#], then
    exactly 3 or exactly 6 hexadecimal digits, then a word boundary); its
    output is the tokens expanded ([#RGB] to [#RRGGBB]) and upper-cased,
    so every element of it is [#] followed by six upper-case hexadecimal
    digits, and [#1AF] gives [#11AAFF]. *)
Theorem extractColors_matches_tokens :
  forall text : jsstring,
    map (@m_0) (matchAll false colorRegex text) = color_tokens text
    /\ extractColors text = map expand (color_tokens text)
    /\ (forall c, In c (extractColors text) -> is_color c = true)
    /\ extractColors (js "#1AF") = [js "#11AAFF"].
Proof.
  intros text. split; [apply color_matches|].
  split; [apply extractColors_expand|]. split; [|reflexivity].
  intros c. apply extractColors_is_color.
Qed.

(** *** Colors of a corpus joined from fragments *)

Lemma token_at_local (n : nat) (s more : jsstring) :
  token_at n (s ++ newline ++ more) = token_at n s.
Proof.
  unfold token_at, newline. destruct s as [|h t]; [reflexivity|].
  cbn [app]. destruct (N.eqb h (ch "#")); [|reflexivity]. cbn [andb].
  destruct (le_lt_dec n (length t)) as [Hle|Hgt].
  - rewrite firstn_app, skipn_app.
    replace (n - length t) with 0 by lia. cbn [firstn skipn].
    rewrite app_nil_r, length_app. cbn [length].
    replace (n <=? length t + S (length more)) with true
      by (symmetry; apply Nat.leb_le; lia).
    replace (n <=? length t) with true by (symmetry; apply Nat.leb_le; lia).
    destruct (skipn n t); reflexivity.
  - replace (n <=? length t) with false by (symmetry; apply Nat.leb_gt; lia).
    cbn [andb].
    rewrite firstn_app, forallb_app.
    replace (n - length t) with (S (n - length t - 1)) by lia.
    cbn [firstn forallb]. change (is_hex 10%N) with false.
    now rewrite !andb_false_r.
Qed.

Lemma color_token_local (s more : jsstring) :
  color_token (s ++ newline ++ more) = color_token s.
Proof. unfold color_token. now rewrite !token_at_local. Qed.

Lemma color_tokens_app (s more : jsstring) :
  color_tokens (s ++ newline ++ more) = color_tokens s ++ color_tokens more.
Proof.
  induction s as [|c s IH].
  - reflexivity.
  - change ((c :: s) ++ newline ++ more) with (c :: (s ++ newline ++ more)).
    cbn [color_tokens].
    change (c :: (s ++ newline ++ more)) with ((c :: s) ++ newline ++ more).
    now rewrite color_token_local, IH, app_assoc.
Qed.

Lemma color_tokens_join (parts : list jsstring) :
  color_tokens (join newline parts) = flat_map color_tokens parts.
Proof.
  induction parts as [|p ps IH]; [reflexivity|].
  destruct ps as [|q ps].
  - simpl. now rewrite app_nil_r.
  - change (join newline (p :: q :: ps)) with (p ++ newline ++ join newline (q :: ps)).
    rewrite color_tokens_app, IH. reflexivity.
Qed.

Lemma map_flat_map {A B C : Type} (f : B -> C) (g : A -> list B) (l : list A) :
  map f (flat_map g l) = flat_map (fun x => map f (g x)) l.
Proof.
  induction l as [|x l IH]; [reflexivity|]. simpl. now rewrite map_app, IH.
Qed.

(** The colors of the joined corpus are those of its fragments, fragment
    after fragment. *)
Lemma extractColors_join (parts : list jsstring) :
  extractColors (join newline parts) = flat_map extractColors parts.
Proof.
  rewrite extractColors_expand, color_tokens_join, map_flat_map.
  apply flat_map_ext. intros p. symmetry. apply extractColors_expand.
Qed.

(** ** Literals and greedy runs *)

Lemma matcher_star (ic : bool) (a : Regex) (st : MState) :
  matcher ic (RStar a) st = star_loop (matcher ic a) (length (remaining st)) st.
Proof. reflexivity. Qed.

Lemma matcher_empty (ic : bool) (st : MState) : matcher ic REmpty st = [st].
Proof. reflexivity. Qed.

Lemma matcher_lit (ic : bool) (lit : jsstring) :
  forall pre rest cap,
    matcher ic (RLit lit) (mkSt pre rest cap) =
    match strip_prefix ic lit rest with
    | Some rest' => [mkSt (rev (firstn (length lit) rest) ++ pre) rest' cap]
    | None => []
    end.
Proof.
  induction lit as [|c lit IH]; intros pre rest cap.
  - reflexivity.
  - cbn [RLit]. rewrite matcher_seq, matcher_char. destruct rest as [|x xs]; [reflexivity|].
    cbn [strip_prefix]. destruct (N.eqb (canon ic x) (canon ic c)); [|reflexivity].
    rewrite flat_map_one, IH. destruct (strip_prefix ic lit xs); [|reflexivity].
    cbn [length firstn rev]. now rewrite <- app_assoc.
Qed.

Lemma strip_prefix_Some (ic : bool) (lit : jsstring) :
  forall rest rest',
    strip_prefix ic lit rest = Some rest' ->
    rest = firstn (length lit) rest ++ rest'
    /\ length (firstn (length lit) rest) = length lit
    /\ map (canon ic) (firstn (length lit) rest) = map (canon ic) lit.
Proof.
  induction lit as [|c lit IH]; intros rest rest' H.
  - injection H as <-. auto.
  - destruct rest as [|x xs]; [discriminate|]. cbn [strip_prefix] in H.
    destruct (N.eqb (canon ic x) (canon ic c)) eqn:E; [|discriminate].
    apply N.eqb_eq in E. apply IH in H as (H1 & H2 & H3).
    cbn [length firstn app map]. rewrite <- H1, H2, H3, E. auto.
Qed.

Lemma star_loop_class (ic neg : bool) (items : list ClassItem) (cap : option jsstring)
      (rest : list cu) :
  forall fuel pre,
    length rest <= fuel ->
    star_loop (matcher ic (RClass neg items)) fuel (mkSt pre rest cap)
    = star_states (class_matches ic neg items) pre rest cap.
Proof.
  induction rest as [|x xs IH]; intros fuel pre Hf.
  - destruct fuel; reflexivity.
  - destruct fuel as [|f]; [simpl in Hf; lia|].
    cbn [star_loop star_states]. rewrite matcher_class.
    destruct (class_matches ic neg items x) eqn:Hx; [|reflexivity].
    rewrite flat_map_one. cbn [remaining length].
    replace (length xs <? S (length xs)) with true by (symmetry; apply Nat.ltb_lt; lia).
    rewrite IH by (simpl in Hf; lia). reflexivity.
Qed.

Lemma matcher_star_class (ic neg : bool) (items : list ClassItem) (pre rest : list cu)
      (cap : option jsstring) :
  matcher ic (RStar (RClass neg items)) (mkSt pre rest cap)
  = star_states (class_matches ic neg items) pre rest cap.
Proof. rewrite matcher_star. apply star_loop_class. cbn [remaining]. lia. Qed.

Lemma matcher_plus_class (ic neg : bool) (items : list ClassItem) (pre rest : list cu)
      (cap : option jsstring) :
  matcher ic (RPlus (RClass neg items)) (mkSt pre rest cap) =
  match rest with
  | x :: xs =>
      if class_matches ic neg items x
      then star_states (class_matches ic neg items) (x :: pre) xs cap else []
  | [] => []
  end.
Proof.
  unfold RPlus. rewrite matcher_seq, matcher_class. destruct rest as [|x xs]; [reflexivity|].
  destruct (class_matches ic neg items x); [|reflexivity].
  now rewrite flat_map_one, matcher_star_class.
Qed.

Lemma takeWhile_dropWhile (p : cu -> bool) (l : jsstring) :
  takeWhile p l ++ dropWhile p l = l.
Proof.
  induction l as [|x l IH]; [reflexivity|]. simpl. destruct (p x); [|reflexivity].
  simpl. now rewrite IH.
Qed.

Lemma takeWhile_all (p : cu -> bool) (l : jsstring) : forallb p (takeWhile p l) = true.
Proof.
  induction l as [|x l IH]; [reflexivity|]. simpl. destruct (p x) eqn:E; [|reflexivity].
  simpl. now rewrite E.
Qed.

Lemma dropWhile_head (p : cu -> bool) (l : jsstring) :
  match dropWhile p l with c :: _ => p c = false | [] => True end.
Proof.
  induction l as [|x l IH]; [exact I|]. simpl. destruct (p x) eqn:E; [assumption|].
  assumption.
Qed.

Lemma takeWhile_ext (p q : cu -> bool) (l : jsstring) :
  (forall x, p x = q x) -> takeWhile p l = takeWhile q l.
Proof.
  intros E. induction l as [|x l IH]; [reflexivity|]. simpl. now rewrite E, IH.
Qed.

Lemma dropWhile_ext (p q : cu -> bool) (l : jsstring) :
  (forall x, p x = q x) -> dropWhile p l = dropWhile q l.
Proof.
  intros E. induction l as [|x l IH]; [reflexivity|]. simpl. now rewrite E, IH.
Qed.

Lemma star_states_ext (p q : cu -> bool) (cap : option jsstring) (rest : list cu) :
  (forall x, p x = q x) ->
  forall pre, star_states p pre rest cap = star_states q pre rest cap.
Proof.
  intros E. induction rest as [|x xs IH]; intros pre; [reflexivity|].
  cbn [star_states]. now rewrite E, IH.
Qed.

Lemma star_states_head (p : cu -> bool) (rest : list cu) :
  forall pre cap, exists others,
    star_states p pre rest cap
    = mkSt (rev (takeWhile p rest) ++ pre) (dropWhile p rest) cap :: others.
Proof.
  induction rest as [|x xs IH]; intros pre cap.
  - now exists [].
  - cbn [star_states takeWhile dropWhile]. destruct (p x).
    + destruct (IH (x :: pre) cap) as (others & ->).
      exists (others ++ [mkSt pre (x :: xs) cap]).
      cbn [rev]. now rewrite <- app_assoc.
    + now exists [].
Qed.

(** After [c*], a continuation that never succeeds in front of a unit of
    the class sees only the end of the longest run. *)
Lemma star_states_then {B : Type} (K : MState -> list B) (p : cu -> bool)
      (cap : option jsstring) (rest : list cu) :
  (forall pre x xs, p x = true -> K (mkSt pre (x :: xs) cap) = []) ->
  forall pre,
    flat_map K (star_states p pre rest cap)
    = K (mkSt (rev (takeWhile p rest) ++ pre) (dropWhile p rest) cap).
Proof.
  intros HK. induction rest as [|x xs IH]; intros pre.
  - apply flat_map_one.
  - cbn [star_states takeWhile dropWhile]. destruct (p x) eqn:Hx.
    + rewrite flat_map_app, flat_map_one, (HK pre x xs Hx), app_nil_r, IH.
      cbn [rev]. now rewrite <- app_assoc.
    + apply flat_map_one.
Qed.

Lemma firstn_cut (rest s r : list cu) :
  rest = s ++ r -> firstn (length rest - length r) rest = s.
Proof.
  intros ->. rewrite length_app. replace (length s + length r - length r) with (length s) by lia.
  rewrite firstn_app, Nat.sub_diag, firstn_all. simpl. apply app_nil_r.
Qed.

Lemma exec_find_match (ic : bool) (r : Regex) (f : jsstring -> option (jsstring * jsstring)) :
  (forall pre rest, match_at ic r pre rest = option_map as_match (f rest)) ->
  forall s, exec ic r s = option_map as_match (find_match f s).
Proof.
  intros Hf s. unfold exec. generalize (@nil cu).
  induction s as [|c s IH]; intros pre.
  - cbn [exec_from find_match]. rewrite Hf. destruct (f []); reflexivity.
  - cbn [exec_from find_match]. rewrite Hf. destruct (f (c :: s)); [reflexivity|].
    apply IH.
Qed.

Lemma find_match_Some (f : jsstring -> option (jsstring * jsstring)) (s : jsstring)
      (m : jsstring * jsstring) :
  find_match f s = Some m -> exists before rest, s = before ++ rest /\ f rest = Some m.
Proof.
  induction s as [|c s IH]; cbn [find_match].
  - destruct (f []) eqn:E; [|discriminate]. intros [= <-]. now exists [], [].
  - destruct (f (c :: s)) eqn:E.
    + intros [= <-]. now exists [], (c :: s).
    + intros H. apply IH in H as (before & rest & -> & H). now exists (c :: before), rest.
Qed.

(** With the [i] flag a unit that is not a letter still matches itself
    only. *)
Lemma canon_eqb_nonletter (x c : cu) :
  is_lower c = false -> is_upper c = false ->
  N.eqb (canon true x) (canon true c) = N.eqb x c.
Proof.
  unfold canon, upper. intros Hl Hu. rewrite Hl.
  destruct (is_lower x) eqn:Hx; [|reflexivity].
  destruct (N.eqb_spec x c) as [->|Hne]; [congruence|].
  apply N.eqb_neq. intros E. subst c.
  unfold is_lower, is_upper in *. bool_N.
  assert (65 <= x - 32 /\ x - 32 <= 90)%N as [H1 H2] by lia.
  apply N.leb_le in H1, H2. now rewrite H1, H2 in Hu.
Qed.

(** ** The font-service parameter *)

Lemma class_not_amp_colon (x : cu) :
  class_matches true true [CChar (ch "&"); CChar (ch ":")] x = not_amp_colon x.
Proof.
  unfold class_matches, not_amp_colon. cbn [existsb item_matches].
  rewrite !canon_eqb_nonletter by reflexivity. now rewrite orb_false_r.
Qed.

Lemma google_match_at (pre rest : list cu) :
  match_at true googleFamilyRegex pre rest = option_map as_match (family_at rest).
Proof.
  unfold match_at, googleFamilyRegex, family_at.
  rewrite matcher_seq, matcher_lit.
  destruct (strip_prefix true (js "family=") rest) as [r1|] eqn:E; [|reflexivity].
  apply strip_prefix_Some in E as (Hrest & _ & _).
  change (length (js "family=")) with 7 in *.
  rewrite flat_map_one, matcher_group, matcher_plus_class.
  destruct r1 as [|x xs]; [reflexivity|].
  rewrite class_not_amp_colon. cbn [takeWhile].
  destruct (not_amp_colon x) eqn:Hx; [|reflexivity].
  destruct (star_states_head (class_matches true true [CChar (ch "&"); CChar (ch ":")])
              xs (x :: rev (firstn 7 rest) ++ pre) None) as (others & ->).
  rewrite (takeWhile_ext _ not_amp_colon) by apply class_not_amp_colon.
  rewrite (dropWhile_ext _ not_amp_colon) by apply class_not_amp_colon.
  unfold set_cap. cbn [map remaining cap1 option_map].
  unfold as_match. cbn [fst snd]. f_equal. f_equal.
  - apply firstn_cut. rewrite Hrest at 1. rewrite <- app_assoc. f_equal.
    cbn [app]. f_equal. symmetry. apply takeWhile_dropWhile.
  - f_equal. apply firstn_cut. cbn [app]. f_equal. symmetry. apply takeWhile_dropWhile.
Qed.

Lemma google_exec (href : jsstring) :
  exec true googleFamilyRegex href = option_map as_match (find_match family_at href).
Proof. apply exec_find_match. apply google_match_at. Qed.

Lemma family_at_Some (rest m0 run : jsstring) :
  family_at rest = Some (m0, run) ->
  exists lit after,
    rest = lit ++ run ++ after
    /\ map upper lit = map upper (js "family=")
    /\ run <> []
    /\ forallb not_amp_colon run = true
    /\ match after with [] => True | c :: _ => c = ch "&" \/ c = ch ":" end.
Proof.
  unfold family_at.
  destruct (strip_prefix true (js "family=") rest) as [r1|] eqn:E; [|discriminate].
  apply strip_prefix_Some in E as (Hrest & _ & Hlit).
  destruct (takeWhile not_amp_colon r1) as [|x run'] eqn:Hrun; [discriminate|].
  intros [= _ <-].
  exists (firstn (length (js "family=")) rest), (dropWhile not_amp_colon r1).
  rewrite <- Hrun, takeWhile_dropWhile. repeat split.
  - assumption.
  - exact Hlit.
  - rewrite Hrun. discriminate.
  - apply takeWhile_all.
  - pose proof (dropWhile_head not_amp_colon r1) as Hd.
    destruct (dropWhile not_amp_colon r1) as [|c after]; [exact I|].
    unfold not_amp_colon in Hd. apply negb_false_iff, orb_true_iff in Hd.
    destruct Hd as [Hd|Hd]; apply N.eqb_eq in Hd; auto.
Qed.

Lemma fold_set_add_map (f : jsstring -> jsstring) (l : list jsstring) (s : JSSet) :
  fold_left (fun fonts family => set_add (f family) fonts) l s = add_all (map f l) s.
Proof.
  unfold add_all. revert s. induction l as [|x l IH]; intros s; [reflexivity|].
  simpl. apply IH.
Qed.

Lemma addGoogleFonts_families (fonts : JSSet) (elem : Element) :
  addGoogleFonts (Some fonts) elem =
  match truthy (attr elem "href") with
  | Some href => option_map (fun names => add_all names fonts) (hrefFamilies href)
  | None => Some fonts
  end.
Proof.
  unfold addGoogleFonts, hrefFamilies.
  destruct (truthy (attr elem "href")) as [href|]; [|reflexivity].
  destruct (exec true googleFamilyRegex href) as [m|]; [|reflexivity].
  destruct (decodeURIComponent (grp m)) as [d|]; [|reflexivity].
  cbn [option_map]. now rewrite fold_set_add_map.
Qed.

(** C10. The family names of a font-service link come only from what the
    pattern captures: the part of the address that follows [family=] up
    to, and without, the first [:] or [&].  A weight suffix such as the
    one of [family=Roboto:400] is not part of the name, and the families
    listed after such a colon are dropped. *)
Theorem family_names_before_colon_or_ampersand :
  forall (href : jsstring) (m : Match),
    exec true googleFamilyRegex href = Some m ->
    (exists before lit after,
        href = before ++ lit ++ grp m ++ after
        /\ map upper lit = map upper (js "family=")
        /\ grp m <> []
        /\ forallb not_amp_colon (grp m) = true
        /\ match after with [] => True | c :: _ => c = ch "&" \/ c = ch ":" end)
    /\ hrefFamilies href
       = option_map (fun decoded => map plusToSpace (split_on (ch "|") decoded))
                    (decodeURIComponent (grp m))
    /\ (forall (fonts : JSSet) (elem : Element),
           truthy (attr elem "href") = Some href ->
           addGoogleFonts (Some fonts) elem
           = option_map (fun names => add_all names fonts) (hrefFamilies href))
    /\ hrefFamilies (js "https://fonts.googleapis.com/css?family=Roboto:400")
       = Some [js "Roboto"]
    /\ hrefFamilies (js "https://fonts.googleapis.com/css?family=Roboto:400|Open+Sans:700")
       = Some [js "Roboto"].
Proof.
  intros href m Hm. split; [|split; [|split; [|split]]].
  - rewrite google_exec in Hm.
    destruct (find_match family_at href) as [[m0 run]|] eqn:E; [|discriminate].
    injection Hm as <-. unfold grp, as_match. cbn [m_1 fst snd].
    apply find_match_Some in E as (before & rest & -> & E).
    apply family_at_Some in E as (lit & after & -> & H).
    exists before, lit, after. tauto.
  - unfold hrefFamilies. now rewrite Hm.
  - intros fonts0 elem Hhref. rewrite addGoogleFonts_families. now rewrite Hhref.
  - vm_compute. reflexivity.
  - vm_compute. reflexivity.
Qed.

Lemma family_names_before_colon_or_ampersand_witness :
  exec true googleFamilyRegex (js "https://fonts.googleapis.com/css?family=Open+Sans:700&display=swap")
  = Some (mkMatch (js "family=Open+Sans") (Some (js "Open+Sans")))
  /\ hrefFamilies (js "https://fonts.googleapis.com/css?family=Open+Sans:700&display=swap")
     = option_map (fun decoded => map plusToSpace (split_on (ch "|") decoded))
                  (decodeURIComponent (js "Open+Sans")).
Proof.
  split; [vm_compute; reflexivity|].
  apply (family_names_before_colon_or_ampersand
           (js "https://fonts.googleapis.com/css?family=Open+Sans:700&display=swap")
           (mkMatch (js "family=Open+Sans") (Some (js "Open+Sans")))).
  vm_compute. reflexivity.
Defined.

(** ** Declarations of [font-family] *)

Lemma class_space (ic : bool) (x : cu) : class_matches ic false [CSpace] x = is_space x.
Proof. unfold class_matches. cbn [existsb item_matches xorb]. apply orb_false_r. Qed.

(** A group [(c+)] offers the longest run first and captures it. *)
Lemma group_plus_head (ic neg : bool) (items : list ClassItem) (pre : list cu)
      (x : cu) (xs : list cu) (cap : option jsstring) :
  class_matches ic neg items x = true ->
  exists others,
    matcher ic (RGroup (RPlus (RClass neg items))) (mkSt pre (x :: xs) cap)
    = mkSt (rev (takeWhile (class_matches ic neg items) xs) ++ x :: pre)
           (dropWhile (class_matches ic neg items) xs)
           (Some (x :: takeWhile (class_matches ic neg items) xs))
      :: others.
Proof.
  intros Hx. rewrite matcher_group, matcher_plus_class, Hx.
  destruct (star_states_head (class_matches ic neg items) xs (x :: pre) cap)
    as (others & ->).
  exists (map (set_cap (mkSt pre (x :: xs) cap)) others).
  cbn [map]. unfold set_cap at 1. cbn [consumed remaining]. f_equal. f_equal. f_equal.
  apply firstn_cut. cbn [app]. f_equal. symmetry. apply takeWhile_dropWhile.
Qed.

Lemma group_plus_none (ic neg : bool) (items : list ClassItem) (pre rest : list cu)
      (cap : option jsstring) :
  takeWhile (class_matches ic neg items) rest = [] ->
  matcher ic (RGroup (RPlus (RClass neg items))) (mkSt pre rest cap) = [].
Proof.
  intros H. rewrite matcher_group, matcher_plus_class.
  destruct rest as [|x xs]; [reflexivity|]. cbn [takeWhile] in H.
  destruct (class_matches ic neg items x); [discriminate | reflexivity].
Qed.

Lemma after_spaces_cons_space (x : cu) (run : jsstring) :
  is_space x = true -> run <> [] -> after_spaces (x :: run) = after_spaces run.
Proof.
  intros Hx Hrun. unfold after_spaces. cbn [dropWhile]. rewrite Hx.
  destruct run as [|y run]; [congruence|]. reflexivity.
Qed.

Lemma spaces_then_group (ic neg : bool) (items : list ClassItem) (cap : option jsstring)
      (rest : list cu) :
  (forall x, is_space x = true -> class_matches ic neg items x = true) ->
  forall pre,
    match takeWhile (class_matches ic neg items) rest with
    | [] =>
        flat_map (matcher ic (RGroup (RPlus (RClass neg items))))
                 (star_states is_space pre rest cap) = []
    | run =>
        exists others,
          flat_map (matcher ic (RGroup (RPlus (RClass neg items))))
                   (star_states is_space pre rest cap)
          = mkSt (rev run ++ pre) (dropWhile (class_matches ic neg items) rest)
                 (Some (after_spaces run)) :: others
    end.
Proof.
  intros Hsub. induction rest as [|x xs IH]; intros pre.
  - reflexivity.
  - cbn [star_states takeWhile dropWhile].
    destruct (is_space x) eqn:Hs.
    + rewrite (Hsub x Hs). rewrite flat_map_app, flat_map_one.
      specialize (IH (x :: pre)).
      destruct (group_plus_head ic neg items pre x xs cap (Hsub x Hs)) as (o1 & E1).
      destruct (takeWhile (class_matches ic neg items) xs) as [|y run] eqn:Hrun.
      * rewrite IH, E1. cbn [app]. exists o1.
        unfold after_spaces. cbn [dropWhile]. rewrite Hs. reflexivity.
      * destruct IH as (o2 & ->). exists (o2 ++ matcher ic (RGroup (RPlus (RClass neg items)))
                                            (mkSt pre (x :: xs) cap)).
        cbn [app]. rewrite (after_spaces_cons_space x (y :: run)) by (assumption || congruence).
        cbn [rev]. now rewrite <- !app_assoc.
    + rewrite flat_map_one.
      destruct (class_matches ic neg items x) eqn:Hx.
      * destruct (group_plus_head ic neg items pre x xs cap Hx) as (o1 & ->).
        exists o1. unfold after_spaces. cbn [dropWhile]. rewrite Hs.
        cbn [rev]. now rewrite <- app_assoc.
      * apply group_plus_none. cbn [takeWhile]. now rewrite Hx.
Qed.

Lemma class_not_terminator (x : cu) :
  class_matches true true [CChar (ch ";"); CChar (ch "{"); CChar (ch "}")] x
  = not_terminator x.
Proof.
  unfold class_matches, not_terminator. cbn [existsb item_matches].
  rewrite !canon_eqb_nonletter by reflexivity.
  now rewrite orb_false_r, orb_assoc.
Qed.

Lemma space_not_terminator (x : cu) : is_space x = true -> not_terminator x = true.
Proof.
  intros H. unfold not_terminator.
  destruct (N.eqb_spec x (ch ";")) as [->|_]; [discriminate H|].
  destruct (N.eqb_spec x (ch "{")) as [->|_]; [discriminate H|].
  destruct (N.eqb_spec x (ch "}")) as [->|_]; [discriminate H|].
  reflexivity.
Qed.

Lemma colon_after_space (pre : list cu) (x : cu) (xs : list cu) (cap : option jsstring)
      (r : Regex) :
  is_space x = true ->
  matcher true (RSeq (RChar (ch ":")) r) (mkSt pre (x :: xs) cap) = [].
Proof.
  intros Hx. rewrite matcher_seq, matcher_char.
  rewrite canon_eqb_nonletter by reflexivity.
  destruct (N.eqb_spec x (ch ":")) as [->|_]; [discriminate Hx | reflexivity].
Qed.

Lemma fontFamily_match_at (pre rest : list cu) :
  match_at true fontFamilyRegex pre rest
  = option_map declaration_match (declaration_at rest).
Proof.
  unfold match_at, fontFamilyRegex, declaration_at.
  rewrite matcher_seq, matcher_lit.
  destruct (strip_prefix true (js "font-family") rest) as [r1|] eqn:E; [|reflexivity].
  apply strip_prefix_Some in E as (Hrest & _ & _).
  change (length (js "font-family")) with 11 in *.
  rewrite flat_map_one, matcher_seq. unfold spaceClass.
  rewrite matcher_star_class.
  rewrite (star_states_then _ (class_matches true false [CSpace]))
    by (intros; apply colon_after_space; now rewrite <- (class_space true)).
  rewrite (takeWhile_ext _ is_space) by apply class_space.
  rewrite (dropWhile_ext _ is_space) by apply class_space.
  pose proof (takeWhile_dropWhile is_space r1) as Hr1.
  destruct (dropWhile is_space r1) as [|c r3]; [reflexivity|].
  rewrite matcher_seq, matcher_char, canon_eqb_nonletter by reflexivity.
  destruct (N.eqb c (ch ":")); [|reflexivity].
  rewrite flat_map_one, matcher_seq, matcher_star_class.
  pose proof (spaces_then_group true true
                [CChar (ch ";"); CChar (ch "{"); CChar (ch "}")] None r3) as H.
  rewrite (star_states_ext _ is_space) by apply class_space.
  specialize (H (fun x Hx => eq_trans (class_not_terminator x) (space_not_terminator x Hx))
                (c :: rev (takeWhile is_space r1) ++ rev (firstn 11 rest) ++ pre)).
  rewrite (takeWhile_ext _ not_terminator) in H by apply class_not_terminator.
  rewrite (dropWhile_ext _ not_terminator) in H by apply class_not_terminator.
  pose proof (takeWhile_dropWhile not_terminator r3) as Hr3.
  destruct (takeWhile not_terminator r3) as [|y run].
  - rewrite H. reflexivity.
  - destruct H as (others & ->). cbn [option_map remaining cap1].
    unfold declaration_match. cbn [fst snd]. f_equal. f_equal.
    apply firstn_cut. rewrite <- app_assoc.
    etransitivity; [exact Hrest|]. f_equal. rewrite <- app_assoc.
    etransitivity; [symmetry; exact Hr1|]. f_equal. cbn [app]. f_equal.
    symmetry. exact Hr3.
Qed.

Lemma matchAll_find_all (ic : bool) (r : Regex)
      (f : jsstring -> option (jsstring * jsstring))
      (conv : jsstring * jsstring -> Match) :
  (forall d, m_0 (conv d) = fst d) ->
  (forall pre rest, match_at ic r pre rest = option_map conv (f rest)) ->
  forall s, matchAll ic r s = map conv (find_all f 0 s).
Proof.
  intros Hconv Hf s. unfold matchAll. generalize 0. generalize (@nil cu).
  induction s as [|c s IH]; intros pre skip.
  - destruct skip; [|reflexivity]. cbn [matchAll_from find_all]. rewrite Hf.
    destruct (f []); reflexivity.
  - destruct skip as [|n]; cbn [matchAll_from find_all]; [|apply IH].
    rewrite Hf. destruct (f (c :: s)) as [d|]; cbn [option_map map]; [|apply IH].
    rewrite Hconv. f_equal. apply IH.
Qed.

Lemma find_all_In (f : jsstring -> option (jsstring * jsstring)) (rest : jsstring) :
  forall skip d, In d (find_all f skip rest) ->
                 exists before after, rest = before ++ after /\ f after = Some d.
Proof.
  induction rest as [|c t IH]; intros skip d H.
  - destruct skip; [|destruct H]. cbn [find_all] in H.
    destruct (f []) eqn:E; [|destruct H]. destruct H as [<-|[]]. now exists [], [].
  - destruct skip as [|n]; cbn [find_all] in H.
    + destruct (f (c :: t)) eqn:E.
      * destruct H as [<-|H]; [now exists [], (c :: t)|].
        apply IH in H as (b & a & -> & H). now exists (c :: b), a.
      * apply IH in H as (b & a & -> & H). now exists (c :: b), a.
    + apply IH in H as (b & a & -> & H). now exists (c :: b), a.
Qed.

Lemma dropWhile_idem (p : cu -> bool) (l : jsstring) :
  dropWhile p (dropWhile p l) = dropWhile p l.
Proof.
  induction l as [|x l IH]; [reflexivity|]. simpl. destruct (p x) eqn:E; [assumption|].
  simpl. now rewrite E.
Qed.

Lemma dropWhile_nil (p : cu -> bool) (l : jsstring) :
  dropWhile p l = [] -> forallb p l = true.
Proof.
  induction l as [|x l IH]; [reflexivity|]. simpl. destruct (p x); [assumption|discriminate].
Qed.

Lemma forallb_last (p : cu -> bool) (l : jsstring) (d : cu) :
  forallb p l = true -> l <> [] -> p (last l d) = true.
Proof.
  induction l as [|x l IH]; [congruence|]. intros H _. simpl in H.
  apply andb_true_iff in H as [Hx Hl].
  destruct l as [|y l]; [assumption|]. apply IH; [assumption | discriminate].
Qed.

(** Trimmed, what [\s*(c+)] captures is the whole run trimmed. *)
Lemma trim_after_spaces (run : jsstring) :
  run <> [] -> trim (after_spaces run) = trim run.
Proof.
  intros Hrun. unfold after_spaces, trim.
  destruct (dropWhile is_space run) as [|c g] eqn:E.
  - apply dropWhile_nil in E. cbn [dropWhile].
    now rewrite (forallb_last is_space run 0%N E Hrun).
  - rewrite <- E. now rewrite dropWhile_idem.
Qed.

(** ** The CSS-wide keywords *)

Lemma some_match_app {A : Type} (a b : list A) :
  some_match (a ++ b) = some_match a || some_match b.
Proof. destruct a; reflexivity. Qed.

Lemma exec_from_begin_none (ic : bool) (X : Regex) (rest : list cu) :
  forall p pre, exec_from ic (RSeq RBegin X) (p :: pre) rest = None.
Proof.
  induction rest as [|c t IH]; intros p pre; cbn [exec_from]; unfold match_at;
    rewrite matcher_seq; cbn [matcher consumed flat_map]; [reflexivity | apply IH].
Qed.

Lemma exec_anchored (ic : bool) (X : Regex) (s : jsstring) :
  exec ic (RSeq RBegin X) s = match_at ic (RSeq RBegin X) [] s.
Proof.
  unfold exec. destruct s as [|c t]; cbn [exec_from].
  - destruct (match_at ic (RSeq RBegin X) [] []); reflexivity.
  - destruct (match_at ic (RSeq RBegin X) [] (c :: t)); [reflexivity|].
    apply exec_from_begin_none.
Qed.

Lemma lit_to_end (lit s : jsstring) :
  some_match (flat_map (matcher true REnd)
                (map (set_cap (mkSt [] s None)) (matcher true (RLit lit) (mkSt [] s None))))
  = match strip_prefix true lit s with Some [] => true | _ => false end.
Proof.
  rewrite matcher_lit. destruct (strip_prefix true lit s) as [[|c r]|]; reflexivity.
Qed.

Lemma strip_prefix_all (lit : jsstring) :
  forall s, match strip_prefix true lit s with Some [] => true | _ => false end
            = ci_equal s lit.
Proof.
  unfold ci_equal. induction lit as [|c lit IH]; intros [|x xs]; try reflexivity.
  cbn [strip_prefix map jseqb]. change (canon true x) with (upper x).
  change (canon true c) with (upper c).
  destruct (N.eqb (upper x) (upper c)); [apply IH | reflexivity].
Qed.

Lemma is_keyword_spec (s : jsstring) : is_keyword s = css_wide_keyword s.
Proof.
  unfold is_keyword, keywordRegex. rewrite exec_anchored. unfold match_at.
  rewrite matcher_seq.
  change (matcher true RBegin (mkSt [] s None)) with [mkSt [] s None].
  rewrite flat_map_one.
  rewrite matcher_seq, matcher_group, !matcher_alt, !map_app, !flat_map_app.
  transitivity (some_match
    (flat_map (matcher true REnd)
       (map (set_cap (mkSt [] s None)) (matcher true (RLit (js "inherit")) (mkSt [] s None)))
     ++ flat_map (matcher true REnd)
       (map (set_cap (mkSt [] s None)) (matcher true (RLit (js "initial")) (mkSt [] s None)))
     ++ flat_map (matcher true REnd)
       (map (set_cap (mkSt [] s None)) (matcher true (RLit (js "unset")) (mkSt [] s None)))
     ++ flat_map (matcher true REnd)
       (map (set_cap (mkSt [] s None)) (matcher true (RLit (js "none")) (mkSt [] s None))))).
  - match goal with
    | |- context [match ?l with [] => None | _ :: _ => _ end] => destruct l; reflexivity
    end.
  - rewrite !some_match_app, !lit_to_end, !strip_prefix_all.
    unfold css_wide_keyword. cbn [existsb]. now rewrite orb_false_r.
Qed.

(** ** The first pass of [extractFonts] *)

Lemma addDeclaration_families (fonts : JSSet) (m : Match) :
  addDeclaration fonts m = add_all (familiesOf (trim (grp m))) fonts.
Proof.
  unfold addDeclaration, familiesOf, add_all.
  generalize (split_on (ch ",") (trim (grp m))). intros toks. revert fonts.
  induction toks as [|tok toks IH]; intros fonts; [reflexivity|].
  cbn [fold_left map filter]. rewrite IH, is_keyword_spec.
  destruct (nonempty (cleanFont tok) && negb (css_wide_keyword (cleanFont tok)));
    reflexivity.
Qed.

Lemma fold_add_all {A : Type} (f : A -> list jsstring) (step : JSSet -> A -> JSSet)
      (l : list A) :
  (forall s x, step s x = add_all (f x) s) ->
  forall s, fold_left step l s = add_all (flat_map f l) s.
Proof.
  intros Hstep. induction l as [|x l IH]; intros s; [reflexivity|].
  cbn [fold_left flat_map]. now rewrite IH, Hstep, add_all_app.
Qed.

Lemma flat_map_map {A B C : Type} (f : B -> list C) (g : A -> B) (l : list A) :
  flat_map f (map g l) = flat_map (fun x => f (g x)) l.
Proof. induction l as [|x l IH]; [reflexivity|]. simpl. now rewrite IH. Qed.

Lemma flat_map_ext_In {A B : Type} (f g : A -> list B) (l : list A) :
  (forall x, In x l -> f x = g x) -> flat_map f l = flat_map g l.
Proof.
  induction l as [|x l IH]; intros H; [reflexivity|]. simpl.
  rewrite (H x) by now left. rewrite IH; [reflexivity|].
  intros y Hy. apply H. now right.
Qed.

Lemma declaration_at_value (rest : jsstring) (d : jsstring * jsstring) :
  declaration_at rest = Some d ->
  snd d <> [] /\ forallb not_terminator (snd d) = true
  /\ exists lit spaces after,
      rest = lit ++ spaces ++ ch ":" :: snd d ++ after
      /\ map upper lit = map upper (js "font-family")
      /\ forallb is_space spaces = true
      /\ match after with [] => True | c :: _ => not_terminator c = false end.
Proof.
  unfold declaration_at.
  destruct (strip_prefix true (js "font-family") rest) as [r1|] eqn:E; [|discriminate].
  apply strip_prefix_Some in E as (Hrest & _ & Hlit).
  pose proof (takeWhile_dropWhile is_space r1) as Hr1.
  destruct (dropWhile is_space r1) as [|c r3]; [discriminate|].
  destruct (N.eqb_spec c (ch ":")) as [->|_]; [|discriminate].
  pose proof (takeWhile_dropWhile not_terminator r3) as Hr3.
  pose proof (takeWhile_all not_terminator r3) as Hall.
  pose proof (dropWhile_head not_terminator r3) as Hhead.
  destruct (takeWhile not_terminator r3) as [|y run]; [discriminate|].
  intros [= <-]. cbn [snd]. split; [discriminate|]. split; [assumption|].
  exists (firstn (length (js "font-family")) rest), (takeWhile is_space r1),
    (dropWhile not_terminator r3).
  split; [|split; [exact Hlit | split; [apply takeWhile_all | exact Hhead]]].
  etransitivity; [exact Hrest|]. f_equal.
  etransitivity; [symmetry; exact Hr1|]. f_equal. f_equal. symmetry. exact Hr3.
Qed.

Lemma fontFamily_matches (css : jsstring) :
  matchAll true fontFamilyRegex css = map declaration_match (find_all declaration_at 0 css).
Proof.
  apply matchAll_find_all; [reflexivity | apply fontFamily_match_at].
Qed.

(** The first loop of [extractFonts] adds the declared families. *)
Lemma first_pass (css : jsstring) (fonts : JSSet) :
  fold_left addDeclaration (matchAll true fontFamilyRegex css) fonts
  = add_all (declaredFamilies css) fonts.
Proof.
  rewrite (fold_add_all (fun m => familiesOf (trim (grp m))))
    by apply addDeclaration_families.
  rewrite fontFamily_matches, flat_map_map.
  unfold declaredFamilies, declarations. rewrite flat_map_map.
  f_equal. apply flat_map_ext_In. intros d Hd.
  apply find_all_In in Hd as (before & after & _ & Hd).
  apply declaration_at_value in Hd as (Hne & _).
  unfold grp, declaration_match. cbn [m_1]. now rewrite trim_after_spaces.
Qed.

(** ** [@font-face] blocks *)

Lemma class_not_rbrace (x : cu) :
  class_matches true true [CChar (ch "}")] x = not_rbrace x.
Proof.
  unfold class_matches, not_rbrace. cbn [existsb item_matches].
  rewrite canon_eqb_nonletter by reflexivity. now rewrite orb_false_r.
Qed.

Lemma char_mismatch (c : cu) (r : Regex) (pre : list cu) (x : cu) (xs : list cu)
      (cap : option jsstring) :
  N.eqb x c = false -> is_lower c = false -> is_upper c = false ->
  matcher true (RSeq (RChar c) r) (mkSt pre (x :: xs) cap) = [].
Proof.
  intros Hx Hl Hu. rewrite matcher_seq, matcher_char, canon_eqb_nonletter by assumption.
  now rewrite Hx.
Qed.

Lemma space_not_lbrace (x : cu) : is_space x = true -> N.eqb x (ch "{") = false.
Proof.
  intros H. destruct (N.eqb_spec x (ch "{")) as [->|_]; [discriminate H | reflexivity].
Qed.

Lemma fontFace_match_at (pre rest : list cu) :
  match_at true fontFaceRegex pre rest = option_map as_match (block_at rest).
Proof.
  unfold match_at, fontFaceRegex, block_at.
  rewrite matcher_seq, matcher_lit.
  destruct (strip_prefix true (js "@font-face") rest) as [r1|] eqn:E; [|reflexivity].
  apply strip_prefix_Some in E as (Hrest & _ & _).
  change (length (js "@font-face")) with 10 in *.
  rewrite flat_map_one, matcher_seq. unfold spaceClass.
  rewrite matcher_star_class.
  rewrite (star_states_ext _ is_space) by apply class_space.
  rewrite (star_states_then _ is_space)
    by (intros; apply char_mismatch; [now apply space_not_lbrace | reflexivity..]).
  pose proof (takeWhile_dropWhile is_space r1) as Hr1.
  destruct (dropWhile is_space r1) as [|c r3]; [reflexivity|].
  rewrite matcher_seq, matcher_char, canon_eqb_nonletter by reflexivity.
  destruct (N.eqb c (ch "{")); [|reflexivity].
  rewrite flat_map_one, matcher_seq, matcher_group, matcher_plus_class.
  destruct r3 as [|x xs]; [reflexivity|].
  rewrite class_not_rbrace. cbn [takeWhile dropWhile].
  destruct (not_rbrace x) eqn:Hx; [|reflexivity].
  rewrite flat_map_map.
  rewrite (star_states_ext _ not_rbrace) by apply class_not_rbrace.
  rewrite (star_states_then _ not_rbrace).
  - unfold set_cap. cbn [consumed remaining].
    rewrite matcher_char.
    pose proof (takeWhile_dropWhile not_rbrace xs) as Hxs.
    pose proof (dropWhile_head not_rbrace xs) as Hb.
    destruct (dropWhile not_rbrace xs) as [|b after]; [reflexivity|].
    rewrite canon_eqb_nonletter by reflexivity.
    unfold not_rbrace in Hb. apply negb_false_iff in Hb. rewrite Hb.
    cbn [option_map remaining cap1]. unfold as_match. cbn [fst snd].
    f_equal. f_equal.
    + apply firstn_cut. rewrite <- !app_assoc.
      etransitivity; [exact Hrest|]. f_equal.
      etransitivity; [symmetry; exact Hr1|]. f_equal. cbn [app]. f_equal. f_equal.
      rewrite <- app_assoc. symmetry. exact Hxs.
    + f_equal. apply firstn_cut. cbn [app]. f_equal. symmetry. exact Hxs.
  - intros pre' x' xs' Hx'. unfold set_cap. cbn [consumed remaining].
    rewrite matcher_char, canon_eqb_nonletter by reflexivity.
    unfold not_rbrace in Hx'. apply negb_true_iff in Hx'. now rewrite Hx'.
Qed.

(** ** Backing off white space *)

Lemma hd_error_app {A : Type} (a b : list A) :
  hd_error (a ++ b) = match hd_error a with Some x => Some x | None => hd_error b end.
Proof. destruct a; reflexivity. Qed.

Lemma hd_flat_map_star {B C : Type} (K : MState -> list B) (phi : B -> C)
      (p : cu -> bool) (cap : option jsstring) (rest : list cu) :
  forall pre,
    option_map phi (hd_error (flat_map K (star_states p pre rest cap)))
    = star_first (fun st => option_map phi (hd_error (K st))) p pre rest cap.
Proof.
  induction rest as [|x xs IH]; intros pre.
  - cbn [star_states star_first]. now rewrite flat_map_one.
  - cbn [star_states star_first]. destruct (p x).
    + rewrite flat_map_app, flat_map_one, hd_error_app, <- IH.
      destruct (hd_error (flat_map K (star_states p (x :: pre) xs cap))); reflexivity.
    + now rewrite flat_map_one.
Qed.

Lemma takeWhile_nil_dropWhile (p : cu -> bool) (l : jsstring) :
  takeWhile p l = [] -> dropWhile p l = l.
Proof.
  intros H. pose proof (takeWhile_dropWhile p l) as E. now rewrite H in E.
Qed.

(** When [h] always succeeds in front of a unit of the class, the only
    states that count are the end of the longest run and, when [h] fails
    there, the state one unit before it. *)
Lemma star_first_fallback {B : Type} (h : MState -> option B) (p : cu -> bool)
      (cap : option jsstring) (rest : list cu) :
  (forall pre x xs, p x = true -> h (mkSt pre (x :: xs) cap) <> None) ->
  forall pre,
    star_first h p pre rest cap =
    match h (mkSt (rev (takeWhile p rest) ++ pre) (dropWhile p rest) cap) with
    | Some b => Some b
    | None =>
        match rev (takeWhile p rest) with
        | [] => None
        | w :: before => h (mkSt (before ++ pre) (w :: dropWhile p rest) cap)
        end
    end.
Proof.
  intros Hh. induction rest as [|x xs IH]; intros pre.
  - cbn [star_first takeWhile dropWhile rev app]. destruct (h (mkSt pre [] cap)); reflexivity.
  - cbn [star_first takeWhile dropWhile]. destruct (p x) eqn:Hx.
    + rewrite IH. cbn [rev]. rewrite <- app_assoc. cbn [app].
      destruct (h (mkSt (rev (takeWhile p xs) ++ x :: pre) (dropWhile p xs) cap));
        [reflexivity|].
      pose proof (takeWhile_all p xs) as Hall.
      destruct (rev (takeWhile p xs)) as [|w before] eqn:Hrev.
      * apply (f_equal (@rev cu)) in Hrev. rewrite rev_involutive in Hrev.
        cbn [rev] in Hrev. rewrite (takeWhile_nil_dropWhile p xs Hrev). reflexivity.
      * cbn [app]. rewrite <- app_assoc. cbn [app].
        assert (Hw : p w = true).
        { rewrite forallb_forall in Hall. apply Hall. apply in_rev. rewrite Hrev. now left. }
        specialize (Hh (before ++ x :: pre) w (dropWhile p xs) Hw).
        destruct (h (mkSt (before ++ x :: pre) (w :: dropWhile p xs) cap));
          [reflexivity | congruence].
    + cbn [rev app]. destruct (h (mkSt pre (x :: xs) cap)); reflexivity.
Qed.

(** ** The family of an [@font-face] block *)

Lemma class_quote (x : cu) :
  class_matches true false [CChar squote; CChar dquote] x = is_quote x.
Proof.
  unfold class_matches, is_quote. cbn [existsb item_matches xorb].
  rewrite !canon_eqb_nonletter by reflexivity. now rewrite orb_false_r.
Qed.

Lemma class_not_quote_semi (x : cu) :
  class_matches true true [CChar squote; CChar dquote; CChar (ch ";")] x
  = not_quote_semi x.
Proof.
  unfold class_matches, not_quote_semi, is_quote. cbn [existsb item_matches].
  rewrite !canon_eqb_nonletter by reflexivity. now rewrite orb_false_r, orb_assoc.
Qed.

Lemma space_not_quote_semi (x : cu) : is_space x = true -> not_quote_semi x = true.
Proof.
  intros H. unfold not_quote_semi, is_quote.
  destruct (N.eqb_spec x squote) as [->|_]; [discriminate H|].
  destruct (N.eqb_spec x dquote) as [->|_]; [discriminate H|].
  destruct (N.eqb_spec x (ch ";")) as [->|_]; [discriminate H|].
  reflexivity.
Qed.

Lemma not_quote_semi_not_quote (x : cu) : not_quote_semi x = true -> is_quote x = false.
Proof.
  unfold not_quote_semi. intros H. apply negb_true_iff, orb_false_iff in H. tauto.
Qed.

Lemma familyTail_cap (pre rest : list cu) (cap : option jsstring) :
  option_map cap_of (hd_error (matcher true familyTail (mkSt pre rest cap)))
  = match takeWhile not_quote_semi rest with [] => None | run => Some run end.
Proof.
  unfold familyTail, familyClass. rewrite matcher_seq.
  rewrite <- (takeWhile_ext _ not_quote_semi rest class_not_quote_semi).
  destruct rest as [|x xs].
  - now rewrite group_plus_none.
  - cbn [takeWhile].
    destruct (class_matches true true [CChar squote; CChar dquote; CChar (ch ";")] x) eqn:Hx.
    + destruct (group_plus_head true true [CChar squote; CChar dquote; CChar (ch ";")]
                  pre x xs cap Hx) as (others & ->).
      cbn [flat_map]. unfold ROpt, quoteClass.
      rewrite matcher_alt, matcher_class, matcher_empty.
      destruct (dropWhile _ xs) as [|q r]; [reflexivity|].
      destruct (class_matches true false [CChar squote; CChar dquote] q); reflexivity.
    + rewrite group_plus_none; [reflexivity|]. cbn [takeWhile]. now rewrite Hx.
Qed.

Lemma familyTail_none (pre rest : list cu) (cap : option jsstring) :
  takeWhile not_quote_semi rest = [] ->
  matcher true familyTail (mkSt pre rest cap) = [].
Proof.
  intros H. unfold familyTail, familyClass. rewrite matcher_seq, group_plus_none; [reflexivity|].
  now rewrite (takeWhile_ext _ not_quote_semi rest class_not_quote_semi).
Qed.

(** [['\x22]?([^'\x22;]+)['\x22]?] captures the longest run free of
    quotes and [;] that follows the optional quote. *)
Lemma familyValue_cap (pre rest : list cu) (cap : option jsstring) :
  option_map cap_of
    (hd_error (matcher true (RSeq (ROpt quoteClass) familyTail) (mkSt pre rest cap)))
  = match takeWhile not_quote_semi (skip_quote rest) with
    | [] => None
    | run => Some run
    end.
Proof.
  rewrite matcher_seq. unfold ROpt at 1. unfold quoteClass at 1.
  rewrite matcher_alt, matcher_class, matcher_empty.
  destruct rest as [|q v].
  - cbn [app]. rewrite flat_map_one. apply familyTail_cap.
  - rewrite class_quote. cbn [skip_quote]. destruct (is_quote q) eqn:Hq.
    + cbn [app flat_map]. rewrite (familyTail_none pre (q :: v)).
      * rewrite !app_nil_r. apply familyTail_cap.
      * cbn [takeWhile]. unfold not_quote_semi. now rewrite Hq.
    + cbn [app]. rewrite flat_map_one. apply familyTail_cap.
Qed.

Lemma match_at_cap (ic : bool) (r : Regex) (pre rest : list cu) :
  option_map grp (match_at ic r pre rest)
  = option_map cap_of (hd_error (matcher ic r (mkSt pre rest None))).
Proof. unfold match_at. destruct (matcher ic r (mkSt pre rest None)); reflexivity. Qed.

Lemma skip_quote_nil (v : jsstring) :
  takeWhile not_quote_semi (skip_quote v) = [] -> takeWhile not_quote_semi v = [].
Proof.
  destruct v as [|q v]; [reflexivity|]. cbn [skip_quote]. destruct (is_quote q) eqn:Hq.
  - intros _. cbn [takeWhile]. unfold not_quote_semi. now rewrite Hq.
  - trivial.
Qed.

Lemma faceFamily_match_at (pre rest : list cu) :
  option_map grp (match_at true faceFamilyRegex pre rest) = face_family_at rest.
Proof.
  rewrite match_at_cap. unfold faceFamilyRegex, face_family_at.
  rewrite matcher_seq, matcher_lit.
  destruct (strip_prefix true (js "font-family") rest) as [r1|]; [|reflexivity].
  rewrite flat_map_one, matcher_seq. unfold spaceClass.
  rewrite matcher_star_class.
  rewrite (star_states_ext _ is_space) by apply class_space.
  rewrite (star_states_then _ is_space)
    by (intros; now apply colon_after_space).
  destruct (dropWhile is_space r1) as [|c r3]; [reflexivity|].
  rewrite matcher_seq, matcher_char, canon_eqb_nonletter by reflexivity.
  destruct (N.eqb c (ch ":")); [|reflexivity].
  rewrite flat_map_one, matcher_seq, matcher_star_class.
  rewrite (star_states_ext _ is_space) by apply class_space.
  fold quoteClass. fold familyClass. fold familyTail.
  rewrite hd_flat_map_star, star_first_fallback.
  - rewrite !familyValue_cap.
    destruct (takeWhile not_quote_semi (skip_quote (dropWhile is_space r3))) eqn:Hrun;
      [|reflexivity].
    pose proof (takeWhile_all is_space r3) as Hall.
    destruct (rev (takeWhile is_space r3)) as [|w before] eqn:Hrev; [reflexivity|].
    assert (Hw : is_space w = true).
    { rewrite forallb_forall in Hall. apply Hall. apply in_rev. rewrite Hrev. now left. }
    rewrite familyValue_cap. cbn [skip_quote].
    rewrite (not_quote_semi_not_quote w (space_not_quote_semi w Hw)).
    cbn [takeWhile]. rewrite (space_not_quote_semi w Hw).
    now rewrite (skip_quote_nil _ Hrun).
  - intros pre' x xs Hx. rewrite familyValue_cap. cbn [skip_quote].
    rewrite (not_quote_semi_not_quote x (space_not_quote_semi x Hx)).
    cbn [takeWhile]. rewrite (space_not_quote_semi x Hx). discriminate.
Qed.

(** ** The second pass of [extractFonts] *)

Lemma exec_find_first (ic : bool) (r : Regex) (f : jsstring -> option jsstring) :
  (forall pre rest, option_map grp (match_at ic r pre rest) = f rest) ->
  forall s, option_map grp (exec ic r s) = find_first f s.
Proof.
  intros Hf s. unfold exec. generalize (@nil cu).
  induction s as [|c s IH]; intros pre; cbn [exec_from find_first]; rewrite <- (Hf pre).
  - destruct (match_at ic r pre []); reflexivity.
  - destruct (match_at ic r pre (c :: s)); [reflexivity | apply IH].
Qed.

Lemma find_first_Some (f : jsstring -> option jsstring) (s c : jsstring) :
  find_first f s = Some c -> exists before rest, s = before ++ rest /\ f rest = Some c.
Proof.
  induction s as [|x s IH]; cbn [find_first].
  - destruct (f []) eqn:E; [|discriminate]. intros [= <-]. now exists [], [].
  - destruct (f (x :: s)) eqn:E.
    + intros [= <-]. now exists [], (x :: s).
    + intros H. apply IH in H as (before & rest & -> & H). now exists (x :: before), rest.
Qed.

Lemma faceFamily_exec (body : jsstring) :
  option_map (fun familyMatch => trim (grp familyMatch)) (exec true faceFamilyRegex body)
  = block_family body.
Proof.
  unfold block_family.
  rewrite <- (exec_find_first true faceFamilyRegex face_family_at faceFamily_match_at).
  destruct (exec true faceFamilyRegex body); reflexivity.
Qed.

Lemma addFontFace_family (fonts : JSSet) (m : Match) :
  addFontFace fonts m = add_all (opt_list (block_family (grp m))) fonts.
Proof.
  unfold addFontFace. rewrite <- faceFamily_exec.
  destruct (exec true faceFamilyRegex (grp m)); reflexivity.
Qed.

Lemma fontFace_matches (css : jsstring) :
  matchAll true fontFaceRegex css = map as_match (find_all block_at 0 css).
Proof. apply matchAll_find_all; [reflexivity | apply fontFace_match_at]. Qed.

Lemma second_pass (css : jsstring) (fonts : JSSet) :
  fold_left addFontFace (matchAll true fontFaceRegex css) fonts
  = add_all (faceFamilies css) fonts.
Proof.
  rewrite (fold_add_all (fun m => opt_list (block_family (grp m))))
    by apply addFontFace_family.
  rewrite fontFace_matches, flat_map_map.
  unfold faceFamilies, blocks. now rewrite flat_map_map.
Qed.

(** [extractFonts] is its two passes, one after the other, into one set. *)
Lemma extractFonts_passes (css : jsstring) :
  extractFonts css = add_all (faceFamilies css) (add_all (declaredFamilies css) []).
Proof. unfold extractFonts. now rewrite first_pass, second_pass. Qed.

Lemma extractFonts_In (css f : jsstring) :
  In f (extractFonts css) <-> In f (declaredFamilies css) \/ In f (faceFamilies css).
Proof.
  rewrite extractFonts_passes, !add_all_In. simpl. tauto.
Qed.

Lemma extractFonts_NoDup (css : jsstring) : NoDup (extractFonts css).
Proof.
  rewrite extractFonts_passes. apply add_all_NoDup, add_all_NoDup. constructor.
Qed.

Lemma familiesOf_In (value f : jsstring) :
  In f (familiesOf value) <->
  exists tok, In tok (split_on (ch ",") value) /\ f = cleanFont tok
              /\ f <> [] /\ css_wide_keyword f = false.
Proof.
  unfold familiesOf. rewrite filter_In, in_map_iff. split.
  - intros ((tok & <- & Htok) & Hkeep). apply andb_true_iff in Hkeep as [Hne Hkw].
    exists tok. repeat split; try assumption.
    + intros E. rewrite E in Hne. discriminate.
    + now apply negb_true_iff.
  - intros (tok & Htok & -> & Hne & Hkw). split; [now exists tok|].
    rewrite Hkw. destruct (cleanFont tok); [congruence | reflexivity].
Qed.

Lemma fontFamily_values (css : jsstring) :
  map (fun m => trim (grp m)) (matchAll true fontFamilyRegex css) = declarations css.
Proof.
  rewrite fontFamily_matches, map_map. unfold declarations.
  apply map_ext_in. intros d Hd.
  apply find_all_In in Hd as (before & after & _ & Hd).
  apply declaration_at_value in Hd as (Hne & _).
  unfold grp, declaration_match. cbn [m_1]. now apply trim_after_spaces.
Qed.

(** ** Font families *)

(** C6, as stated, fails for a name that holds a quote character: every
    quote character of a token is removed, not only those around it.  The
    value of the declaration below is the one token [Bob's Font] between
    double quotes; stripped of the quotes around it, it would be
    [Bob's Font], but the entry of [extractFonts] is [Bobs Font]. *)
Lemma inner_quote_is_removed :
  declarations (js "font-family: " ++ dquote :: js "Bob's Font" ++ [dquote])
  = [dquote :: js "Bob's Font" ++ [dquote]]
  /\ split_on (ch ",") (dquote :: js "Bob's Font" ++ [dquote])
     = [dquote :: js "Bob's Font" ++ [dquote]]
  /\ strip_quotes_and_space (dquote :: js "Bob's Font" ++ [dquote]) = js "Bob's Font"
  /\ extractFonts (js "font-family: " ++ dquote :: js "Bob's Font" ++ [dquote])
     = [js "Bobs Font"]
  /\ ~ In (js "Bob's Font")
          (extractFonts (js "font-family: " ++ dquote :: js "Bob's Font" ++ [dquote])).
Proof.
  assert (E : extractFonts (js "font-family: " ++ dquote :: js "Bob's Font" ++ [dquote])
              = [js "Bobs Font"]) by (vm_compute; reflexivity).
  repeat split; try (vm_compute; reflexivity).
  rewrite E. intros [H|[]]. vm_compute in H. discriminate.
Qed.

(** C6, amended.  The declarations [extractFonts] finds are those of the
    text (the value of each is the trimmed run that follows the colon up
    to [;], [{], [}] or the end); the value is split on commas; each token
    is trimmed and then rid of every quote character, wherever it stands;
    empty results and the CSS-wide keywords are dropped and every other
    result is an entry of the output.  [font-family: Arial, sans-serif]
    gives exactly [Arial] and [sans-serif], [font-family: inherit]
    nothing. *)
Theorem font_family_declarations :
  forall css : jsstring,
    map (fun m => trim (grp m)) (matchAll true fontFamilyRegex css) = declarations css
    /\ extractFonts css
       = add_all (faceFamilies css) (add_all (flat_map familiesOf (declarations css)) [])
    /\ (forall value f,
           In f (familiesOf value) <->
           exists tok, In tok (split_on (ch ",") value)
                       /\ f = filter (fun c => negb (is_quote c)) (trim tok)
                       /\ f <> [] /\ css_wide_keyword f = false)
    /\ (forall value f,
           In value (declarations css) -> In f (familiesOf value) ->
           In f (extractFonts css))
    /\ extractFonts (js "font-family: Arial, sans-serif") = [js "Arial"; js "sans-serif"]
    /\ extractFonts (js "font-family: inherit") = [].
Proof.
  intros css. split; [apply fontFamily_values|].
  split; [apply extractFonts_passes|].
  split; [intros value f; apply familiesOf_In|].
  split; [|split; vm_compute; reflexivity].
  intros value f Hv Hf. apply extractFonts_In. left.
  unfold declaredFamilies. apply in_flat_map. now exists value.
Qed.

Lemma font_family_declarations_witness :
  In (js "Arial, sans-serif") (declarations (js "p { font-family: Arial, sans-serif }"))
  /\ In (js "sans-serif") (familiesOf (js "Arial, sans-serif"))
  /\ In (js "sans-serif") (extractFonts (js "p { font-family: Arial, sans-serif }")).
Proof.
  assert (Hv : In (js "Arial, sans-serif")
                  (declarations (js "p { font-family: Arial, sans-serif }")))
    by (vm_compute; now left).
  assert (Hf : In (js "sans-serif") (familiesOf (js "Arial, sans-serif")))
    by (vm_compute; right; now left).
  split; [exact Hv|]. split; [exact Hf|].
  exact (proj1 (proj2 (proj2 (proj2
           (font_family_declarations (js "p { font-family: Arial, sans-serif }")))))
           (js "Arial, sans-serif") (js "sans-serif") Hv Hf).
Defined.

(** C7, as stated, fails for a family whose name holds a quote
    character: what the block pass adds ends at the first quote or [;]
    after the opening quote.  The block below declares the family
    [Bob's Font], between double quotes; the entry added for the block is
    [Bob], and the declared family is not in the output. *)
Lemma quoted_apostrophe_cuts_family :
  blocks (js "@font-face{font-family:" ++ dquote :: js "Bob's Font" ++ dquote :: js "}")
  = [js "font-family:" ++ dquote :: js "Bob's Font" ++ [dquote]]
  /\ strip_quotes_and_space (dquote :: js "Bob's Font" ++ [dquote]) = js "Bob's Font"
  /\ faceFamilies
       (js "@font-face{font-family:" ++ dquote :: js "Bob's Font" ++ dquote :: js "}")
     = [js "Bob"]
  /\ extractFonts
       (js "@font-face{font-family:" ++ dquote :: js "Bob's Font" ++ dquote :: js "}")
     = [js "Bobs Font"; js "Bob"]
  /\ ~ In (js "Bob's Font")
          (extractFonts
             (js "@font-face{font-family:" ++ dquote :: js "Bob's Font" ++ dquote :: js "}")).
Proof.
  assert (E : extractFonts
                (js "@font-face{font-family:" ++ dquote :: js "Bob's Font" ++ dquote :: js "}")
              = [js "Bobs Font"; js "Bob"]) by (vm_compute; reflexivity).
  repeat split; try (vm_compute; reflexivity).
  rewrite E. intros [H|[H|[]]]; vm_compute in H; discriminate.
Qed.

(** C7, amended.  The blocks [extractFonts] finds are the [@font-face]
    blocks of the text; in the body of each it reads the first
    [font-family] declaration and adds what follows the colon, white
    space and an optional quote, up to the next quote or [;], trimmed: one
    entry, free of quotes, that no comma splits.  (The first pass reads
    the same declaration as any other and adds its pieces as well, as the
    last example shows.) *)
Theorem font_face_family :
  forall css : jsstring,
    map grp (matchAll true fontFaceRegex css) = blocks css
    /\ (forall body,
           option_map (fun familyMatch => trim (grp familyMatch))
                      (exec true faceFamilyRegex body)
           = block_family body)
    /\ (forall body family,
           In body (blocks css) -> block_family body = Some family ->
           In family (extractFonts css)
           /\ exists g, family = trim g /\ g <> []
                        /\ forallb not_quote_semi g = true)
    /\ extractFonts (js "@font-face { font-family: 'My Font'; src: url(a.woff) }")
       = [js "My Font"]
    /\ faceFamilies (js "@font-face{font-family:My Font, Fallback}")
       = [js "My Font, Fallback"]
    /\ extractFonts (js "@font-face{font-family:My Font, Fallback}")
       = [js "My Font"; js "Fallback"; js "My Font, Fallback"].
Proof.
  intros css. split; [|split; [|split; [|split; [|split]]]].
  - rewrite fontFace_matches, map_map. reflexivity.
  - apply faceFamily_exec.
  - intros body family Hbody Hfam. split.
    + apply extractFonts_In. right. unfold faceFamilies. apply in_flat_map.
      exists body. split; [assumption|]. rewrite Hfam. now left.
    + unfold block_family in Hfam.
      destruct (find_first face_family_at body) as [g|] eqn:E; [|discriminate].
      injection Hfam as <-. exists g. split; [reflexivity|].
      apply find_first_Some in E as (before & rest & _ & E).
      unfold face_family_at in E.
      destruct (strip_prefix true (js "font-family") rest) as [r1|]; [|discriminate].
      destruct (dropWhile is_space r1) as [|c r3]; [discriminate|].
      destruct (N.eqb c (ch ":")); [|discriminate].
      pose proof (takeWhile_all not_quote_semi (skip_quote (dropWhile is_space r3))) as Hall.
      destruct (takeWhile not_quote_semi (skip_quote (dropWhile is_space r3))) as [|y run].
      * pose proof (takeWhile_all is_space r3) as Hsp.
        destruct (rev (takeWhile is_space r3)) as [|w ws] eqn:Hrev; [discriminate|].
        injection E as <-. split; [discriminate|].
        cbn [forallb]. rewrite andb_true_r. apply space_not_quote_semi.
        rewrite forallb_forall in Hsp. apply Hsp. apply in_rev. rewrite Hrev. now left.
      * injection E as <-. split; [discriminate | assumption].
  - vm_compute. reflexivity.
  - vm_compute. reflexivity.
  - vm_compute. reflexivity.
Qed.

Lemma font_face_family_witness :
  In (js "font-family:My Font, Fallback")
     (blocks (js "@font-face{font-family:My Font, Fallback}"))
  /\ block_family (js "font-family:My Font, Fallback") = Some (js "My Font, Fallback")
  /\ In (js "My Font, Fallback")
        (extractFonts (js "@font-face{font-family:My Font, Fallback}")).
Proof.
  assert (Hb : In (js "font-family:My Font, Fallback")
                  (blocks (js "@font-face{font-family:My Font, Fallback}")))
    by (vm_compute; now left).
  assert (Hf : block_family (js "font-family:My Font, Fallback")
               = Some (js "My Font, Fallback")) by (vm_compute; reflexivity).
  split; [exact Hb|]. split; [exact Hf|].
  exact (proj1 (proj1 (proj2 (proj2
           (font_face_family (js "@font-face{font-family:My Font, Fallback}"))))
           (js "font-family:My Font, Fallback") (js "My Font, Fallback") Hb Hf)).
Defined.

(** ** The collections of the route *)

Section Collections.

Variable URL : jsstring -> option jsstring -> option jsstring.
Variable fetch : nat -> jsstring -> FetchOutcome.
Variable sched : list nat.

Lemma extractAssets_Some (url : jsstring) (doc : Document) (r : ExplodeResponse) :
  extractAssets URL fetch sched url doc = Some r ->
  images r = add_all (extractBackgroundImages URL (corpus URL fetch sched url doc) url) (markupImages URL url doc)
  /\ colors r = add_all (extractColors (corpus URL fetch sched url doc)) []
  /\ fold_left addGoogleFonts (filter sel_google doc)
               (Some (add_all (extractFonts (corpus URL fetch sched url doc)) []))
     = Some (fonts r).
Proof.
  unfold extractAssets. fold (corpus URL fetch sched url doc). fold (markupImages URL url doc).
  destruct (fold_left addGoogleFonts (filter sel_google doc)
              (Some (add_all (extractFonts (corpus URL fetch sched url doc)) []))) as [fs|];
    [|discriminate].
  intros [= <-]. auto.
Qed.

End Collections.

(** C5, as stated, fails: [extractColors] removes nothing.  The same
    color written twice, in either case, is returned twice. *)
Lemma extractColors_keeps_duplicates :
  extractColors (js "#fff #FFF") = [js "#FFFFFF"; js "#FFFFFF"]
  /\ ~ NoDup (extractColors (js "#fff #FFF")).
Proof.
  assert (E : extractColors (js "#fff #FFF") = [js "#FFFFFF"; js "#FFFFFF"])
    by (vm_compute; reflexivity).
  split; [exact E|]. rewrite E. intros H. inversion H as [|x l Hin _]. apply Hin. now left.
Qed.

(** C5, amended.  [extractColors] returns the normalized matches in the
    order of the text, repeated ones included; it is the set of the route
    that keeps each color once, at its first occurrence: the colors of a
    response are the first occurrences of what [extractColors] returns for
    the corpus, in that order, and no color is listed twice. *)
Theorem colors_first_occurrences :
  forall URL fetch sched url doc r,
    extractAssets URL fetch sched url doc = Some r ->
    extractColors (corpus URL fetch sched url doc)
    = map expand (color_tokens (corpus URL fetch sched url doc))
    /\ colors r = first_occurrences [] (extractColors (corpus URL fetch sched url doc))
    /\ NoDup (colors r)
    /\ (forall c, In c (colors r) <-> In c (extractColors (corpus URL fetch sched url doc))).
Proof.
  intros URL fetch sched url doc r H.
  apply extractAssets_Some in H as (_ & Hc & _).
  split; [apply extractColors_expand|]. rewrite Hc.
  split; [apply add_all_first_occurrences|].
  split; [apply add_all_NoDup; constructor|].
  intros c. rewrite add_all_In. simpl. tauto.
Qed.

(** ** A sample request *)

Lemma sample_assets : extractAssets Sample.URL Sample.fetch [] Sample.url Sample.doc = Some Sample.response.
Proof. vm_compute. reflexivity. Qed.


Lemma colors_first_occurrences_witness :
  extractAssets Sample.URL Sample.fetch [] Sample.url Sample.doc = Some Sample.response
  /\ colors Sample.response
     = first_occurrences []
         (extractColors (corpus Sample.URL Sample.fetch [] Sample.url Sample.doc)).
Proof.
  split; [exact sample_assets|].
  exact (proj1 (proj2 (colors_first_occurrences Sample.URL Sample.fetch [] Sample.url
                         Sample.doc Sample.response sample_assets))).
Defined.

(** ** The order of the fragments *)




(** ** Failures of the request *)

(** C2, as stated, fails in two ways.  When the [fetch] of the document
    itself fails, nothing catches it but the handler of the route: the
    answer is the generic error 500, not an upstream error, and names no
    status.  When the document is answered 404, the detail of the error
    502 is the status text of the answer, here [Not Found], and the
    number 404 is not in it. *)
Lemma document_fetch_failures :
  POST Sample.URL (fun _ _ => NetworkError) Sample.load [] (Body (Some Sample.url))
  = (ErrorJson 500 (js "Internal server error"), [Sample.url])
  /\ POST Sample.URL (fun _ _ => Response 404 (js "Not Found") None) Sample.load []
          (Body (Some Sample.url))
     = (ErrorJson 502 (js "Failed to fetch URL: Not Found"), [Sample.url])
  /\ includes (js "404") (js "Failed to fetch URL: Not Found") = false.
Proof. repeat split; vm_compute; reflexivity. Qed.

(** C2, amended.  A missing or empty target is refused with status 400
    and so is one the URL parser rejects, both before any [fetch]; a
    document answered with a status outside 200..299 gives status 502
    with the status text of the answer as detail; a [fetch] of the
    document that fails gives the generic status 500.  In each case the
    answer is an error object: it carries no collection. *)
Theorem explode_failures :
  forall URL fetch load sched (target : option jsstring),
    (truthy target = None ->
     POST URL fetch load sched (Body target)
     = (ErrorJson 400 (js "URL is required"), []))
    /\ (forall url,
           truthy target = Some url -> URL url None = None ->
           POST URL fetch load sched (Body target)
           = (ErrorJson 400 (js "Invalid URL format"), []))
    /\ (forall url href status statusText body,
           truthy target = Some url -> URL url None = Some href ->
           fetch 0 url = Response status statusText body -> ok status = false ->
           POST URL fetch load sched (Body target)
           = (ErrorJson 502 (js "Failed to fetch URL: " ++ statusText), [url]))
    /\ (forall url href,
           truthy target = Some url -> URL url None = Some href ->
           fetch 0 url = NetworkError ->
           POST URL fetch load sched (Body target)
           = (ErrorJson 500 (js "Internal server error"), [url])).
Proof.
  intros URL fetch load sched target. unfold POST. repeat split.
  - intros ->. reflexivity.
  - intros url -> ->. reflexivity.
  - intros url href status statusText body -> -> -> ->. reflexivity.
  - intros url href -> -> ->. reflexivity.
Qed.

Lemma explode_failures_witness :
  POST Sample.URL Sample.fetch Sample.load [] (Body None)
  = (ErrorJson 400 (js "URL is required"), [])
  /\ POST Sample.URL Sample.fetch Sample.load [] (Body (Some (js "not a url")))
     = (ErrorJson 400 (js "Invalid URL format"), [])
  /\ POST Sample.URL (fun _ _ => Response 404 (js "Not Found") None) Sample.load []
          (Body (Some Sample.url))
     = (ErrorJson 502 (js "Failed to fetch URL: " ++ js "Not Found"), [Sample.url])
  /\ POST Sample.URL (fun _ _ => NetworkError) Sample.load [] (Body (Some Sample.url))
     = (ErrorJson 500 (js "Internal server error"), [Sample.url]).
Proof.
  split; [|split; [|split]].
  - apply (proj1 (explode_failures Sample.URL Sample.fetch Sample.load [] None)).
    reflexivity.
  - apply (proj1 (proj2 (explode_failures Sample.URL Sample.fetch Sample.load []
                           (Some (js "not a url")))) (js "not a url")).
    + reflexivity.
    + vm_compute. reflexivity.
  - apply (proj1 (proj2 (proj2 (explode_failures Sample.URL
                                  (fun _ _ => Response 404 (js "Not Found") None)
                                  Sample.load [] (Some Sample.url))))
                 Sample.url Sample.url 404 (js "Not Found") None).
    + reflexivity.
    + vm_compute. reflexivity.
    + reflexivity.
    + reflexivity.
  - apply (proj2 (proj2 (proj2 (explode_failures Sample.URL (fun _ _ => NetworkError)
                                  Sample.load [] (Some Sample.url))))
                 Sample.url Sample.url).
    + reflexivity.
    + vm_compute. reflexivity.
    + reflexivity.
Defined.

(** ** What a match captures *)





Lemma matchAll_from_In (ic : bool) (r : Regex) (rest : list cu) :
  forall skip pre m,
    In m (matchAll_from ic r skip pre rest) ->
    exists pre' rest', match_at ic r pre' rest' = Some m.
Proof.
  induction rest as [|c t IH]; intros skip pre m H.
  - destruct skip; [|destruct H]. cbn [matchAll_from] in H.
    destruct (match_at ic r pre []) eqn:E; [|destruct H].
    destruct H as [<-|[]]. now exists pre, [].
  - destruct skip as [|n]; cbn [matchAll_from] in H.
    + destruct (match_at ic r pre (c :: t)) eqn:E.
      * destruct H as [<-|H]; [now exists pre, (c :: t) | now apply IH in H].
      * now apply IH in H.
    + now apply IH in H.
Qed.


(** ** The loops over the matches end *)

(** The bound on the iterations of [*] is never the reason an iteration
    stops: with more fuel the result is the same. *)
Lemma star_loop_fuel (body : MState -> list MState) :
  forall fuel fuel' st,
    length (remaining st) <= fuel -> length (remaining st) <= fuel' ->
    star_loop body fuel st = star_loop body fuel' st.
Proof.
  assert (Hnone : forall (g : MState -> list MState) (l : list MState),
             (forall s, g s = []) -> flat_map g l = []).
  { intros g l Hg. induction l as [|x l IH]; [reflexivity|]. simpl. now rewrite Hg, IH. }
  induction fuel as [|f IH]; intros fuel' st H H'.
  - destruct fuel' as [|f']; [reflexivity|]. cbn [star_loop].
    rewrite Hnone; [reflexivity|]. intros s.
    replace (length (remaining s) <? length (remaining st)) with false
      by (symmetry; apply Nat.ltb_ge; lia).
    reflexivity.
  - destruct fuel' as [|f']; cbn [star_loop].
    + rewrite Hnone; [reflexivity|]. intros s.
      replace (length (remaining s) <? length (remaining st)) with false
        by (symmetry; apply Nat.ltb_ge; lia).
      reflexivity.
    + f_equal. apply flat_map_ext. intros s.
      destruct (length (remaining s) <? length (remaining st)) eqn:E; [|reflexivity].
      apply Nat.ltb_lt in E. apply IH; lia.
Qed.

Lemma star_loop_remaining (body : MState -> list MState) :
  forall fuel st e,
    In e (star_loop body fuel st) -> length (remaining e) <= length (remaining st).
Proof.
  induction fuel as [|f IH]; intros st e H.
  - destruct H as [<-|[]]. reflexivity.
  - cbn [star_loop] in H. apply in_app_or in H as [H|[<-|[]]]; [|reflexivity].
    apply in_flat_map in H as (s' & _ & H).
    destruct (length (remaining s') <? length (remaining st)) eqn:E; [|destruct H].
    apply Nat.ltb_lt in E. apply IH in H. lia.
Qed.

(** A match never moves backwards in the text. *)
Lemma matcher_remaining (ic : bool) (r : Regex) :
  forall st e, In e (matcher ic r st) -> length (remaining e) <= length (remaining st).
Proof.
  induction r as [|c|neg items|a IHa b IHb|a IHa b IHb|a IHa|a IHa| | |]; intros st e H.
  - destruct H as [<-|[]]. reflexivity.
  - cbn [matcher] in H. destruct (remaining st) as [|x xs]; [destruct H|].
    destruct (N.eqb (canon ic x) (canon ic c)); [|destruct H].
    destruct H as [<-|[]]. simpl. lia.
  - cbn [matcher] in H. destruct (remaining st) as [|x xs]; [destruct H|].
    destruct (class_matches ic neg items x); [|destruct H].
    destruct H as [<-|[]]. simpl. lia.
  - rewrite matcher_seq in H. apply in_flat_map in H as (e1 & H1 & H2).
    apply IHa in H1. apply IHb in H2. lia.
  - rewrite matcher_alt in H. apply in_app_or in H as [H|H]; [now apply IHa | now apply IHb].
  - rewrite matcher_star in H. now apply star_loop_remaining in H.
  - rewrite matcher_group in H. apply in_map_iff in H as (e' & <- & H).
    apply IHa in H. exact H.
  - cbn [matcher] in H. destruct (xorb (word_before st) (word_after st)); [|destruct H].
    destruct H as [<-|[]]. reflexivity.
  - cbn [matcher] in H. destruct (consumed st); [|destruct H].
    destruct H as [<-|[]]. reflexivity.
  - cbn [matcher] in H. destruct (remaining st) eqn:E; [|destruct H].
    destruct H as [<-|[]]. rewrite E. reflexivity.
Qed.

Lemma consuming_remaining (ic : bool) (r : Regex) :
  consuming r = true ->
  forall st e, In e (matcher ic r st) -> length (remaining e) < length (remaining st).
Proof.
  induction r as [|c|neg items|a IHa b IHb|a IHa b IHb|a IHa|a IHa| | |];
    cbn [consuming]; intros G st e H; try discriminate.
  - cbn [matcher] in H. destruct (remaining st) as [|x xs]; [destruct H|].
    destruct (N.eqb (canon ic x) (canon ic c)); [|destruct H].
    destruct H as [<-|[]]. simpl. lia.
  - cbn [matcher] in H. destruct (remaining st) as [|x xs]; [destruct H|].
    destruct (class_matches ic neg items x); [|destruct H].
    destruct H as [<-|[]]. simpl. lia.
  - rewrite matcher_seq in H. apply in_flat_map in H as (e1 & H1 & H2).
    apply orb_true_iff in G as [G|G].
    + apply (IHa G) in H1. apply matcher_remaining in H2. lia.
    + apply matcher_remaining in H1. apply (IHb G) in H2. lia.
  - apply andb_true_iff in G as [Ga Gb]. rewrite matcher_alt in H.
    apply in_app_or in H as [H|H]; [now apply IHa | now apply IHb].
  - rewrite matcher_group in H. apply in_map_iff in H as (e' & <- & H).
    apply (IHa G) in H. exact H.
Qed.

(** No expression of the route matches the empty string, so each
    [while ((match = regex.exec(css)) !== null)] moves on at every turn. *)
Lemma matches_are_not_empty (ic : bool) (r : Regex) (css : jsstring) (m : Match) :
  consuming r = true -> In m (matchAll ic r css) -> m_0 m <> [].
Proof.
  intros G H. apply matchAll_from_In in H as (pre & rest & H). unfold match_at in H.
  destruct (matcher ic r (mkSt pre rest None)) as [|e others] eqn:E; [discriminate|].
  injection H as <-. cbn [m_0].
  assert (He : In e (matcher ic r (mkSt pre rest None))) by (rewrite E; now left).
  apply (consuming_remaining ic r G) in He. cbn [remaining] in He.
  destruct rest as [|x xs]; [cbn [length] in He; lia|].
  cbn [length] in *.
  replace (S (length xs) - length (remaining e))
    with (S (length xs - length (remaining e))) by lia.
  discriminate.
Qed.

Lemma route_expressions_consume :
  consuming colorRegex = true /\ consuming bgRegex = true
  /\ consuming fontFamilyRegex = true /\ consuming fontFaceRegex = true
  /\ consuming faceFamilyRegex = true /\ consuming googleFamilyRegex = true.
Proof. repeat split; reflexivity. Qed.

(** ** Settling order *)

Lemma nth_remove_nth {A : Type} (d : A) (l : list A) :
  forall k, k < length l -> Permutation (nth k l d :: remove_nth k l) l.
Proof.
  induction l as [|x t IH]; intros k Hk; [simpl in Hk; lia|].
  destruct k as [|k]; [reflexivity|]. cbn [nth remove_nth].
  etransitivity; [apply perm_swap|]. apply perm_skip. apply IH. simpl in Hk. lia.
Qed.

Lemma remove_nth_length {A : Type} (l : list A) :
  forall k, k < length l -> S (length (remove_nth k l)) = length l.
Proof.
  induction l as [|x t IH]; intros k Hk; [simpl in Hk; lia|].
  destruct k as [|k]; [reflexivity|]. cbn [remove_nth length]. f_equal.
  apply IH. simpl in Hk. lia.
Qed.

Lemma settle_permutation {A : Type} (fuel : nat) :
  forall (sched : list nat) (pending : list A),
    length pending = fuel -> Permutation (settle fuel sched pending) pending.
Proof.
  induction fuel as [|f IH]; intros sched pending Hlen.
  - destruct pending; [reflexivity | discriminate].
  - destruct pending as [|d t]; [discriminate|]. cbn [settle].
    assert (Hk : hd 0 sched mod length (d :: t) < length (d :: t))
      by (apply Nat.mod_upper_bound; discriminate).
    etransitivity; [|apply (nth_remove_nth d (d :: t) _ Hk)].
    apply perm_skip. apply IH.
    pose proof (remove_nth_length (d :: t) _ Hk) as E. lia.
Qed.

(** Whatever the schedule, the promises that settle are the pending
    ones. *)
Lemma settle_order_permutation {A : Type} (sched : list nat) (pending : list A) :
  Permutation (settle_order sched pending) pending.
Proof. now apply settle_permutation. Qed.



(** ** The corpus *)

Section Corpus.

Variable URL : jsstring -> option jsstring -> option jsstring.
Variable fetch : nat -> jsstring -> FetchOutcome.
Variable sched : list nat.




End Corpus.

(** ** Font-service links *)

Lemma addGoogleFonts_link (fonts : JSSet) (elem : Element) :
  addGoogleFonts (Some fonts) elem
  = option_map (fun names => add_all names fonts) (linkFamilies elem).
Proof.
  rewrite addGoogleFonts_families. unfold linkFamilies.
  destruct (truthy (attr elem "href")); reflexivity.
Qed.

Lemma fold_google_None (elems : list Element) :
  fold_left addGoogleFonts elems None = None.
Proof. induction elems as [|e elems IH]; [reflexivity | exact IH]. Qed.

Lemma fold_google_Some (elems : list Element) :
  forall s s',
    fold_left addGoogleFonts elems (Some s) = Some s' ->
    exists names, map linkFamilies elems = map Some names
                  /\ s' = add_all (concat names) s.
Proof.
  induction elems as [|e elems IH]; intros s s' H.
  - injection H as <-. now exists [].
  - cbn [fold_left] in H. rewrite addGoogleFonts_link in H.
    destruct (linkFamilies e) as [l|] eqn:E; cbn [option_map] in H.
    + apply IH in H as (names & Hn & ->). exists (l :: names).
      cbn [map concat]. rewrite E, Hn, add_all_app. auto.
    + rewrite fold_google_None in H. discriminate.
Qed.

Lemma fold_google_total (elems : list Element) :
  (forall e, In e elems -> linkFamilies e <> None) ->
  forall s, exists s', fold_left addGoogleFonts elems (Some s) = Some s'.
Proof.
  induction elems as [|e elems IH]; intros Hall s.
  - now exists s.
  - cbn [fold_left]. rewrite addGoogleFonts_link.
    destruct (linkFamilies e) as [l|] eqn:E.
    + apply IH. intros e' He'. apply Hall. now right.
    + exfalso. apply (Hall e); [now left | assumption].
Qed.

Lemma map_Some_In {A B : Type} (f : A -> option B) (l : list A) (names : list B) (x : A) :
  map f l = map Some names -> In x l -> exists y, f x = Some y /\ In y names.
Proof.
  revert names. induction l as [|a l IH]; intros names H Hx; [destruct Hx|].
  destruct names as [|n names]; [discriminate|]. injection H as Ha Hl.
  destruct Hx as [<-|Hx].
  - exists n. split; [assumption | now left].
  - destruct (IH names Hl Hx) as (y & Hy & Hin).
    exists y. split; [assumption | now right].
Qed.


(** ** The handler, when it answers with the collections *)

Lemma truthy_Some (v : option jsstring) (s : jsstring) :
  truthy v = Some s -> v = Some s /\ s <> [].
Proof.
  destruct v as [[|c t]|]; try discriminate. intros [= <-]. split; [reflexivity | discriminate].
Qed.

Lemma truthy_nonempty (s : jsstring) : s <> [] -> truthy (Some s) = Some s.
Proof. destruct s; [congruence | reflexivity]. Qed.

Lemma POST_Ok_inv URL fetch load sched (request : Request) (r : ExplodeResponse)
      (log : list jsstring) :
  POST URL fetch load sched request = (OkJson r, log) ->
  exists url href status statusText html,
    request = Body (Some url) /\ url <> []
    /\ URL url None = Some href
    /\ fetch 0 url = Response status statusText (Some html)
    /\ ok status = true
    /\ extractAssets URL fetch sched url (load html) = Some r
    /\ log = url :: stylesheetUrls URL url (load html).
Proof.
  unfold POST, internalError. destruct request as [|target]; [discriminate|].
  destruct (truthy target) as [url|] eqn:Ht; [|discriminate].
  apply truthy_Some in Ht as [-> Hne].
  destruct (URL url None) as [href|] eqn:Hu; [|discriminate].
  destruct (fetch 0 url) as [|status statusText body] eqn:Hf; [discriminate|].
  destruct (ok status) eqn:Hok; cbn [negb]; [|discriminate].
  destruct body as [html|]; [|discriminate].
  destruct (extractAssets URL fetch sched url (load html)) as [r'|] eqn:Ha; [|discriminate].
  intros [= <- <-]. exists url, href, status, statusText, html. auto 10.
Qed.

Lemma POST_Ok_intro URL fetch load sched (url href : jsstring) (status : nat)
      (statusText html : jsstring) (r : ExplodeResponse) :
  url <> [] -> URL url None = Some href ->
  fetch 0 url = Response status statusText (Some html) -> ok status = true ->
  extractAssets URL fetch sched url (load html) = Some r ->
  POST URL fetch load sched (Body (Some url))
  = (OkJson r, url :: stylesheetUrls URL url (load html)).
Proof.
  intros Hne Hu Hf Hok Ha. unfold POST.
  now rewrite (truthy_nonempty url Hne), Hu, Hf, Hok, Ha.
Qed.



(** ** Stylesheets that fail *)





(** ** Font-service links and the stylesheet queue *)

Lemma includes_nonempty (p s : jsstring) : p <> [] -> includes p s = true -> s <> [].
Proof.
  intros Hp H ->. destruct p; [congruence|]. discriminate H.
Qed.

Lemma sel_google_href (e : Element) :
  sel_google e = true -> exists href, attr e "href" = Some href /\ href <> [].
Proof.
  unfold sel_google. intros H. apply andb_true_iff in H as [_ H].
  destruct (attr e "href") as [href|]; [|discriminate].
  exists href. split; [reflexivity|].
  apply (includes_nonempty (js "fonts.googleapis.com")); [discriminate | assumption].
Qed.

(** C8, as stated, fails in its last part: nothing keeps a font-service
    link out of the stylesheet queue.  The link of this page is a
    stylesheet link, so its address is fetched like that of any other
    stylesheet. *)
Lemma font_service_link_is_fetched :
  POST FontService.URL FontService.fetch FontService.load [] (Body (Some Sample.url))
  = (OkJson FontService.response, [Sample.url; FontService.address])
  /\ sel_google FontService.link = true
  /\ In FontService.address
        (snd (POST FontService.URL FontService.fetch FontService.load []
                   (Body (Some Sample.url)))).
Proof.
  split; [vm_compute; reflexivity|]. split; [vm_compute; reflexivity|].
  vm_compute. right. now left.
Qed.

(** C8, amended.  For every link whose address contains
    [fonts.googleapis.com] and a [family=] parameter, what the pattern
    captures of the parameter is decoded, split on [|], has each [+]
    replaced by a space, and each resulting name is in the fonts of the
    answer.  The link is not kept out of the stylesheet queue: when it is
    a stylesheet link, its address is fetched too. *)
Theorem font_service_links :
  forall URL fetch load sched (url : jsstring) (status : nat) (statusText html : jsstring)
         (r : ExplodeResponse) (log : list jsstring) (e : Element) (href : jsstring)
         (m : Match),
    POST URL fetch load sched (Body (Some url)) = (OkJson r, log) ->
    fetch 0 url = Response status statusText (Some html) ->
    In e (load html) -> sel_google e = true -> attr e "href" = Some href ->
    exec true googleFamilyRegex href = Some m ->
    (exists decoded,
        decodeURIComponent (grp m) = Some decoded
        /\ forall family,
            In family (split_on (ch "|") decoded) -> In (plusToSpace family) (fonts r))
    /\ (sel_stylesheet e = true -> In (resolveUrl URL url href) log).
Proof.
  intros URL fetch load sched url status statusText html r log e href m HP Hf He Hg Hhref Hm.
  apply POST_Ok_inv in HP
    as (url' & href' & status' & statusText' & html' & Hreq & _ & _ & Hf' & _ & Ha & ->).
  injection Hreq as <-. rewrite Hf in Hf'. injection Hf' as <- <- <-.
  destruct (sel_google_href e Hg) as (href0 & Hhref0 & Hne).
  rewrite Hhref in Hhref0. injection Hhref0 as <-.
  split.
  - apply extractAssets_Some in Ha as (_ & _ & Hfold).
    apply fold_google_Some in Hfold as (names & Hnames & Hfonts).
    destruct (map_Some_In linkFamilies _ names e Hnames) as (l & Hl & Hin).
    { apply filter_In. auto. }
    unfold linkFamilies in Hl. rewrite Hhref, (truthy_nonempty href Hne) in Hl.
    unfold hrefFamilies in Hl. rewrite Hm in Hl.
    destruct (decodeURIComponent (grp m)) as [decoded|]; [|discriminate].
    injection Hl as <-. exists decoded. split; [reflexivity|].
    intros family Hfam. rewrite Hfonts. apply add_all_In. left.
    apply in_concat. eexists. split; [exact Hin|]. now apply in_map.
  - intros Hs. right. unfold stylesheetUrls. apply in_flat_map.
    exists e. split; [apply filter_In; auto|].
    rewrite Hhref, (truthy_nonempty href Hne). now left.
Qed.

Lemma font_service_links_witness :
  POST FontService.URL FontService.fetch FontService.load [] (Body (Some Sample.url))
  = (OkJson FontService.response, [Sample.url; FontService.address])
  /\ (exists decoded,
         decodeURIComponent (js "Open+Sans|Roboto") = Some decoded
         /\ forall family,
             In family (split_on (ch "|") decoded) ->
             In (plusToSpace family) (fonts FontService.response))
  /\ In (resolveUrl FontService.URL Sample.url FontService.address)
        [Sample.url; FontService.address].
Proof.
  assert (HP : POST FontService.URL FontService.fetch FontService.load []
                    (Body (Some Sample.url))
               = (OkJson FontService.response, [Sample.url; FontService.address]))
    by (vm_compute; reflexivity).
  destruct (font_service_links
              FontService.URL FontService.fetch FontService.load [] Sample.url
              200 (js "OK") (js "<html>") FontService.response
              [Sample.url; FontService.address] FontService.link FontService.address
              (mkMatch (js "family=Open+Sans|Roboto") (Some (js "Open+Sans|Roboto"))))
    as [Hnames Hqueue].
  - exact HP.
  - vm_compute. reflexivity.
  - now left.
  - vm_compute. reflexivity.
  - vm_compute. reflexivity.
  - vm_compute. reflexivity.
  - split; [exact HP|]. split; [exact Hnames|]. apply Hqueue. vm_compute. reflexivity.
Defined.

(** ** The invariant of the collections *)


Section Images.

Variable URL : jsstring -> option jsstring -> option jsstring.
Variable url : jsstring.







End Images.





(** * Further properties *)

(** ** More on strings and lists *)

Lemma In_dropWhile (p : cu -> bool) (c : cu) (s : jsstring) :
  In c (dropWhile p s) -> In c s.
Proof.
  induction s as [|x s IH]; [trivial|]. cbn [dropWhile].
  destruct (p x); [intros H; right; now apply IH | trivial].
Qed.

Lemma In_trim (c : cu) (s : jsstring) : In c (trim s) -> In c s.
Proof.
  unfold trim. intros H. apply in_rev, In_dropWhile, in_rev, In_dropWhile in H. exact H.
Qed.

Lemma In_split_on (sep c : cu) (s : jsstring) :
  forall piece, In piece (split_on sep s) -> In c piece -> In c s.
Proof.
  induction s as [|x s IH]; intros piece H Hc.
  - destruct H as [<-|[]]. destruct Hc.
  - cbn [split_on] in H. destruct (N.eqb x sep).
    + destruct H as [<-|H]; [destruct Hc|]. right. now apply (IH piece).
    + destruct (split_on sep s) as [|w ws] eqn:E.
      * destruct H as [<-|[]]. destruct Hc as [<-|[]]. now left.
      * destruct H as [<-|H].
        -- destruct Hc as [<-|Hc]; [now left|]. right. apply (IH w); [now left | assumption].
        -- right. apply (IH piece); [now right | assumption].
Qed.

Lemma split_on_hd (sep : cu) (s : jsstring) : In (hd [] (split_on sep s)) (split_on sep s).
Proof.
  destruct s as [|x s]; [now left|]. cbn [split_on].
  destruct (N.eqb x sep); [now left|].
  destruct (split_on sep s); now left.
Qed.

Lemma In_takeWhile (p : cu -> bool) (c : cu) (s : jsstring) :
  In c (takeWhile p s) -> In c s.
Proof.
  induction s as [|x s IH]; [trivial|]. cbn [takeWhile].
  destruct (p x); [|intros []]. intros [<-|H]; [now left | right; now apply IH].
Qed.

Lemma split_on_no_sep (sep : cu) (s : jsstring) :
  forall piece, In piece (split_on sep s) -> ~ In sep piece.
Proof.
  induction s as [|c s IH]; intros piece H.
  - destruct H as [<-|[]]. intros [].
  - cbn [split_on] in H. destruct (N.eqb_spec c sep) as [->|Hc].
    + destruct H as [<-|H]; [intros [] | now apply IH].
    + destruct (split_on sep s) as [|w ws] eqn:E.
      * destruct H as [<-|[]]. intros [H|[]]. congruence.
      * destruct H as [<-|H].
        -- intros [H|H]; [congruence|]. apply (IH w); [now left | assumption].
        -- apply IH. now right.
Qed.

Lemma forallb_impl {A} (p q : A -> bool) (l : list A) :
  (forall x, p x = true -> q x = true) -> forallb p l = true -> forallb q l = true.
Proof.
  intros Hpq. induction l as [|x l IH]; [reflexivity|].
  cbn [forallb]. intros H. apply andb_true_iff in H as [Hx Hl].
  now rewrite (Hpq _ Hx), (IH Hl).
Qed.

Lemma flat_map_singleton {A} (f : A -> list A) (l : list A) :
  (forall x, In x l -> f x = [x]) -> flat_map f l = l.
Proof.
  induction l as [|x l IH]; [reflexivity|]. intros H.
  cbn [flat_map]. rewrite (H x (or_introl eq_refl)), IH; [reflexivity|].
  intros y Hy. apply H. now right.
Qed.

Lemma filter_map_swap {A B : Type} (g : B -> bool) (h : A -> B) (l : list A) :
  filter g (map h l) = map h (filter (fun x => g (h x)) l).
Proof.
  induction l as [|x l IH]; [reflexivity|]. cbn [map filter].
  destruct (g (h x)); cbn [map]; now rewrite IH.
Qed.

(** ** Colors read back *)

Lemma is_upper_hex_fixed (c : cu) : is_upper_hex c = true -> upper c = c.
Proof.
  unfold is_upper_hex, upper, is_lower, in_range. intros H.
  destruct ((97 <=? c)%N && (c <=? 122)%N) eqn:L; [|reflexivity].
  bool_N; lia.
Qed.

Lemma is_upper_hex_is_hex (c : cu) : is_upper_hex c = true -> is_hex c = true.
Proof.
  unfold is_upper_hex, is_hex. intros H. apply orb_true_iff in H as [H|H]; rewrite H.
  - reflexivity.
  - now rewrite orb_true_r.
Qed.

Lemma color_tokens_hex (ds : jsstring) :
  forallb is_hex ds = true -> color_tokens ds = [].
Proof.
  induction ds as [|d ds IH]; [reflexivity|].
  cbn [forallb]. intros H. apply andb_true_iff in H as [Hd Hds].
  cbn [color_tokens]. rewrite (IH Hds), app_nil_r.
  unfold color_token, token_at. now rewrite (is_hex_not_hash _ Hd).
Qed.

Lemma map_upper_fixed (ds : jsstring) :
  forallb is_upper_hex ds = true -> map upper ds = ds.
Proof.
  induction ds as [|d ds IH]; [reflexivity|].
  cbn [forallb map]. intros H. apply andb_true_iff in H as [Hd Hds].
  now rewrite (is_upper_hex_fixed _ Hd), (IH Hds).
Qed.

Lemma extractColors_color (c : jsstring) :
  is_color c = true -> extractColors c = [c].
Proof.
  intros H. rewrite extractColors_expand.
  destruct c as [|h ds]; [discriminate|].
  cbn [is_color] in H.
  apply andb_true_iff in H as [H Hds]. apply andb_true_iff in H as [Hh Hlen].
  apply N.eqb_eq in Hh. subst h. apply Nat.eqb_eq in Hlen.
  assert (Hhex : forallb is_hex ds = true)
    by (revert Hds; apply forallb_impl, is_upper_hex_is_hex).
  cbn [color_tokens]. rewrite (color_tokens_hex _ Hhex), app_nil_r.
  destruct ds as [|d1 [|d2 [|d3 [|d4 [|d5 [|d6 [|d7 ds]]]]]]]; try discriminate Hlen.
  assert (Htok : color_token [ch "#"; d1; d2; d3; d4; d5; d6]
                 = Some [ch "#"; d1; d2; d3; d4; d5; d6]).
  { unfold color_token, token_at. rewrite N.eqb_refl. cbn [length Nat.leb andb firstn skipn].
    rewrite Hhex. reflexivity. }
  rewrite Htok. cbn [opt_list map app]. f_equal.
  unfold expand, toUpperCase.
  change (map upper [ch "#"; d1; d2; d3; d4; d5; d6])
    with (ch "#" :: map upper [d1; d2; d3; d4; d5; d6]).
  now rewrite (map_upper_fixed _ Hds).
Qed.

(** X9.  The colors [extractColors] returns read back as themselves: each
    of them, given to [extractColors] again, gives itself and nothing
    else, and the colors of a text, joined by newlines, give the same
    list again. *)
Theorem extractColors_round_trip :
  forall text : jsstring,
    (forall c, In c (extractColors text) -> extractColors c = [c])
    /\ extractColors (join newline (extractColors text)) = extractColors text.
Proof.
  intros text.
  assert (H : forall c, In c (extractColors text) -> extractColors c = [c])
    by (intros c Hc; apply extractColors_color; now apply extractColors_is_color in Hc).
  split; [exact H|].
  rewrite extractColors_join. now apply flat_map_singleton.
Qed.

(** ** Escapes of the font-service parameter *)

Lemma uri_tokens_plain (s : jsstring) :
  no_percent s = true -> uri_tokens s = Some (map Plain s).
Proof.
  induction s as [|c s IH]; [reflexivity|].
  unfold no_percent. cbn [forallb]. intros H. apply andb_true_iff in H as [Hc Hs].
  apply negb_true_iff in Hc. cbn [uri_tokens]. rewrite Hc.
  unfold no_percent in IH. now rewrite (IH Hs).
Qed.

Lemma utf8_decode_plain (s : jsstring) :
  utf8_decode 0 0%N 0%N (map Plain s) = Some s.
Proof.
  induction s as [|c s IH]; [reflexivity|].
  cbn [map utf8_decode]. now rewrite IH.
Qed.

Lemma decodeURIComponent_plain (s : jsstring) :
  no_percent s = true -> decodeURIComponent s = Some s.
Proof.
  intros H. unfold decodeURIComponent. rewrite (uri_tokens_plain _ H).
  apply utf8_decode_plain.
Qed.

Lemma uri_tokens_truncated (n : nat) :
  forall s, length s <= n ->
    uri_tokens (s ++ [ch "%"]) = None
    /\ forall h, uri_tokens (s ++ [ch "%"; h]) = None.
Proof.
  induction n as [|n IH].
  - intros [|c s] Hs; [|cbn in Hs; lia]. split; [reflexivity|]. intros h. reflexivity.
  - intros s Hs.
    destruct s as [|c s]; [split; [reflexivity | intros h; reflexivity]|].
    cbn [length] in Hs. cbn [app uri_tokens].
    destruct (N.eqb c (ch "%")) eqn:Hc.
    + destruct s as [|h1 [|h2 s3]].
      * split; [reflexivity|]. intros h. cbn [app]. reflexivity.
      * split.
        -- cbn [app]. destruct (hexval h1); reflexivity.
        -- intros h. cbn [app].
           destruct (hexval h1); [|reflexivity].
           change (hexval (ch "%")) with (@None N). reflexivity.
      * cbn [app]. cbn [length] in Hs.
        destruct (IH s3 ltac:(lia)) as [H1 H2].
        split; [|intros h]; destruct (hexval h1); try reflexivity;
          destruct (hexval h2); try reflexivity.
        -- now rewrite H1.
        -- now rewrite H2.
    + destruct (IH s ltac:(lia)) as [H1 H2]. split.
      * now rewrite H1.
      * intros h. now rewrite H2.
Qed.

Lemma decodeURIComponent_truncated (s : jsstring) :
  decodeURIComponent (s ++ [ch "%"]) = None
  /\ forall h, decodeURIComponent (s ++ [ch "%"; h]) = None.
Proof.
  destruct (uri_tokens_truncated (length s) s (le_n _)) as [H1 H2].
  unfold decodeURIComponent. split; [now rewrite H1 | intros h; now rewrite H2].
Qed.

(** ** When the route answers with the collections *)

Lemma extractAssets_succeeds URL fetch sched (url : jsstring) (doc : Document) :
  (exists r, extractAssets URL fetch sched url doc = Some r)
  <-> (forall e, In e doc -> sel_google e = true -> linkFamilies e <> None).
Proof.
  unfold extractAssets. cbv zeta.
  match goal with
  | |- context [fold_left addGoogleFonts ?l (Some ?s)] => generalize s; intros fs
  end.
  split.
  - intros [r Hr] e He Hg.
    destruct (fold_left addGoogleFonts (filter sel_google doc) (Some fs)) as [fs'|] eqn:E;
      [|discriminate].
    apply fold_google_Some in E as (names & Hnames & _).
    destruct (map_Some_In linkFamilies _ names e Hnames) as (y & Hy & _).
    + apply filter_In. now split.
    + now rewrite Hy.
  - intros H.
    destruct (fold_google_total (filter sel_google doc)) with (s := fs) as [fs' E].
    + intros e He. apply filter_In in He as [He Hg]. now apply H.
    + rewrite E. eauto.
Qed.

(** X1.  The route answers with the collections exactly when the body
    carries a target that is not empty and that the URL parser accepts,
    the document is received with a status from 200 to 299 and a body
    that can be read, and the parameter of every font-service link of the
    document decodes.  The stylesheets and their order have no part in
    it. *)
Theorem POST_answers_with_collections :
  forall URL fetch load sched (request : Request),
    (exists r log, POST URL fetch load sched request = (OkJson r, log))
    <-> (exists url href status statusText html,
            request = Body (Some url) /\ url <> []
            /\ URL url None = Some href
            /\ fetch 0 url = Response status statusText (Some html)
            /\ ok status = true
            /\ forall e, In e (load html) -> sel_google e = true ->
                         linkFamilies e <> None).
Proof.
  intros URL fetch load sched request. split.
  - intros (r & log & H).
    apply POST_Ok_inv in H as (url & href & status & statusText & html
                               & -> & Hne & Hu & Hf & Hok & Ha & _).
    exists url, href, status, statusText, html. repeat (split; [assumption || reflexivity|]).
    apply (extractAssets_succeeds URL fetch sched url). eauto.
  - intros (url & href & status & statusText & html & -> & Hne & Hu & Hf & Hok & Hall).
    apply (extractAssets_succeeds URL fetch sched url) in Hall as [r Hr].
    exists r, (url :: stylesheetUrls URL url (load html)).
    now apply (POST_Ok_intro URL fetch load sched url href status statusText html).
Qed.

Lemma linkFamilies_None (e : Element) :
  linkFamilies e = None <->
  exists href m,
    attr e "href" = Some href /\ exec true googleFamilyRegex href = Some m
    /\ decodeURIComponent (grp m) = None.
Proof.
  unfold linkFamilies, hrefFamilies. split.
  - destruct (attr e "href") as [[|c href]|] eqn:Ha; cbn [truthy]; try discriminate.
    destruct (exec true googleFamilyRegex (c :: href)) as [m|] eqn:Em; [|discriminate].
    destruct (decodeURIComponent (grp m)) eqn:Ed; [discriminate|].
    intros _. exists (c :: href), m. auto.
  - intros (href & m & Ha & Em & Ed). rewrite Ha.
    destruct href as [|c href]; [discriminate Em|].
    cbn [truthy]. now rewrite Em, Ed.
Qed.

Lemma fold_google_fails (elems : list Element) (e : Element) :
  In e elems -> linkFamilies e = None ->
  forall s, fold_left addGoogleFonts elems s = None.
Proof.
  induction elems as [|x elems IH]; intros He Hn s; [destruct He|].
  cbn [fold_left]. destruct s as [s|]; [|apply fold_google_None].
  destruct He as [->|He].
  - rewrite addGoogleFonts_link, Hn. apply fold_google_None.
  - now apply IH.
Qed.

(** X2.  One font-service link whose [family=] parameter does not decode
    is enough for the whole request to fail: the [URIError] reaches the
    handler of the route, which answers with the generic status 500, after
    the document and every stylesheet have been fetched. *)
Theorem malformed_escape_fails_the_request :
  forall URL fetch load sched (url href : jsstring) (status : nat)
         (statusText html : jsstring) (e : Element) (link : jsstring) (m : Match),
    url <> [] -> URL url None = Some href ->
    fetch 0 url = Response status statusText (Some html) -> ok status = true ->
    In e (load html) -> sel_google e = true ->
    attr e "href" = Some link -> exec true googleFamilyRegex link = Some m ->
    decodeURIComponent (grp m) = None ->
    POST URL fetch load sched (Body (Some url))
    = (ErrorJson 500 (js "Internal server error"),
       url :: stylesheetUrls URL url (load html)).
Proof.
  intros URL fetch load sched url href status statusText html e link m
         Hne Hu Hf Hok He Hg Ha Em Ed.
  unfold POST. destruct url as [|c url]; [contradiction|].
  cbn [truthy]. rewrite Hu, Hf, Hok. cbn [negb].
  unfold extractAssets.
  rewrite (fold_google_fails (filter sel_google (load html)) e).
  - reflexivity.
  - apply filter_In. now split.
  - apply linkFamilies_None. eauto.
Qed.

Lemma malformed_escape_fails_the_request_witness :
  decodeURIComponent (js "100%") = None
  /\ POST Sample.URL Sample.fetch
          (fun _ => [Sample.elem "link"
                       [("rel", "stylesheet");
                        ("href", "https://fonts.googleapis.com/css?family=100%")]%string ""])
          [] (Body (Some Sample.url))
     = (ErrorJson 500 (js "Internal server error"),
        [Sample.url; js "https://fonts.googleapis.com/css?family=100%"]).
Proof.
  split; [reflexivity|].
  apply (malformed_escape_fails_the_request
           Sample.URL Sample.fetch
           (fun _ => [Sample.elem "link"
                        [("rel", "stylesheet");
                         ("href", "https://fonts.googleapis.com/css?family=100%")]%string ""])
           [] Sample.url Sample.url 200 (js "OK") (js "<html>")
           (Sample.elem "link"
              [("rel", "stylesheet");
               ("href", "https://fonts.googleapis.com/css?family=100%")]%string "")
           (js "https://fonts.googleapis.com/css?family=100%")
           (mkMatch (js "family=100%") (Some (js "100%")))).
  - discriminate.
  - vm_compute. reflexivity.
  - vm_compute. reflexivity.
  - reflexivity.
  - left. reflexivity.
  - vm_compute. reflexivity.
  - vm_compute. reflexivity.
  - vm_compute. reflexivity.
  - reflexivity.
Defined.

(** ** The names of a font-service link *)

Lemma linkFamilies_href (e : Element) (href : jsstring) :
  attr e "href" = Some href -> href <> [] -> linkFamilies e = hrefFamilies href.
Proof.
  intros Ha Hne. unfold linkFamilies. rewrite Ha.
  destruct href; [contradiction | reflexivity].
Qed.

Lemma exec_nonempty (ic : bool) (href : jsstring) (m : Match) :
  exec ic googleFamilyRegex href = Some m -> href <> [].
Proof. intros H ->. discriminate H. Qed.

(** X3.  What [decodeURIComponent] does to the parameter of a
    font-service link: a parameter without [%] is taken as it is written,
    so the link contributes its pieces between [|], each [+] turned into
    a space; a parameter that ends in [%], or in [%] and one more unit,
    raises the [URIError]. *)
Theorem font_service_parameter_escapes :
  forall (e : Element) (href : jsstring) (m : Match),
    attr e "href" = Some href ->
    exec true googleFamilyRegex href = Some m ->
    (no_percent (grp m) = true ->
     linkFamilies e = Some (map plusToSpace (split_on (ch "|") (grp m))))
    /\ (forall s, grp m = s ++ [ch "%"] -> linkFamilies e = None)
    /\ (forall s h, grp m = s ++ [ch "%"; h] -> linkFamilies e = None).
Proof.
  intros e href m Ha Em.
  rewrite (linkFamilies_href e href Ha (exec_nonempty _ _ _ Em)).
  unfold hrefFamilies. rewrite Em.
  split; [|split].
  - intros Hp. now rewrite (decodeURIComponent_plain _ Hp).
  - intros s ->. now rewrite (proj1 (decodeURIComponent_truncated s)).
  - intros s h ->. now rewrite (proj2 (decodeURIComponent_truncated s) h).
Qed.

Lemma font_service_parameter_escapes_witness :
  linkFamilies FontService.link = Some [js "Open Sans"; js "Roboto"]
  /\ linkFamilies
       (Sample.elem "link" [("href", "https://fonts.googleapis.com/css?family=100%")]%string "")
     = None.
Proof.
  split.
  - apply (proj1 (font_service_parameter_escapes
                    FontService.link FontService.address
                    (mkMatch (js "family=Open+Sans|Roboto") (Some (js "Open+Sans|Roboto")))
                    eq_refl eq_refl)).
    reflexivity.
  - apply (proj1 (proj2 (font_service_parameter_escapes
                    (Sample.elem "link" [("href", "https://fonts.googleapis.com/css?family=100%")]%string "")
                    (js "https://fonts.googleapis.com/css?family=100%")
                    (mkMatch (js "family=100%") (Some (js "100%")))
                    eq_refl eq_refl)) (js "100")).
    reflexivity.
Defined.

Lemma plusToSpace_no_plus (s : jsstring) : ~ In (ch "+") (plusToSpace s).
Proof.
  unfold plusToSpace. rewrite in_map_iff. intros (c & Hc & _).
  destruct (N.eqb c (ch "+")) eqn:E; [discriminate Hc|].
  subst c. discriminate E.
Qed.

Lemma plusToSpace_keeps (x : cu) (s : jsstring) :
  x <> ch " " -> In x (plusToSpace s) -> In x s.
Proof.
  intros Hx. unfold plusToSpace. rewrite in_map_iff. intros (c & Hc & Hin).
  destruct (N.eqb c (ch "+")); [congruence | now subst].
Qed.

(** X4.  The names a font-service link contributes contain neither [+]
    nor [|]. *)
Theorem font_service_names :
  forall (e : Element) (names : list jsstring) (f : jsstring),
    linkFamilies e = Some names -> In f names ->
    ~ In (ch "+") f /\ ~ In (ch "|") f.
Proof.
  intros e names f Hl Hf. unfold linkFamilies in Hl.
  destruct (truthy (attr e "href")) as [href|]; [|injection Hl as <-; destruct Hf].
  unfold hrefFamilies in Hl.
  destruct (exec true googleFamilyRegex href) as [m|]; [|injection Hl as <-; destruct Hf].
  destruct (decodeURIComponent (grp m)) as [decoded|]; [|discriminate].
  injection Hl as <-. apply in_map_iff in Hf as (piece & <- & Hp).
  split; [apply plusToSpace_no_plus|].
  intros H. apply plusToSpace_keeps in H; [|discriminate].
  now apply split_on_no_sep in Hp.
Qed.

Lemma font_service_names_witness :
  linkFamilies FontService.link = Some [js "Open Sans"; js "Roboto"]
  /\ ~ In (ch "+") (js "Open Sans") /\ ~ In (ch "|") (js "Open Sans").
Proof.
  split; [reflexivity|].
  apply (font_service_names FontService.link [js "Open Sans"; js "Roboto"]).
  - reflexivity.
  - simpl. left. reflexivity.
Defined.

(** ** The answer and the settling order *)

Lemma somes_Permutation {A : Type} (l l' : list (option A)) :
  Permutation l l' -> Permutation (somes l) (somes l').
Proof.
  induction 1 as [|x l l' _ IH|x y l|l l' l'' _ IH1 _ IH2].
  - constructor.
  - destruct x; cbn [somes]; [now constructor | assumption].
  - destruct x, y; cbn [somes]; try apply Permutation_refl. apply perm_swap.
  - now transitivity (somes l').
Qed.

Lemma collectCss_schedule URL fetch (sched sched' : list nat) (url : jsstring)
      (doc : Document) :
  Permutation (collectCss URL fetch sched url doc) (collectCss URL fetch sched' url doc).
Proof.
  unfold collectCss. do 2 apply Permutation_app_head.
  apply somes_Permutation.
  transitivity (map stylesheet_text (fetchAll fetch 1 (stylesheetUrls URL url doc))).
  - apply settle_order_permutation.
  - symmetry. apply settle_order_permutation.
Qed.

Lemma colors_schedule URL fetch (sched sched' : list nat) (url : jsstring) (doc : Document) :
  Permutation (add_all (extractColors (corpus URL fetch sched url doc)) [])
              (add_all (extractColors (corpus URL fetch sched' url doc)) []).
Proof.
  apply NoDup_Permutation.
  - apply add_all_NoDup. constructor.
  - apply add_all_NoDup. constructor.
  - intros c. rewrite !add_all_In. unfold corpus. rewrite !extractColors_join, !in_flat_map.
    pose proof (collectCss_schedule URL fetch sched sched' url doc) as P.
    split; intros [(part & Hp & Hc)|[]]; left; exists part; split; try assumption.
    + now apply (Permutation_in _ P).
    + now apply (Permutation_in _ (Permutation_sym P)).
Qed.

(** X5.  The order in which the stylesheet promises settle changes
    neither the requests the route sends, nor whether it fails and with
    which error; when it answers with the collections, the colors are the
    same under any two orders, up to their order in the list. *)
Theorem answer_and_settling_order :
  forall URL fetch load (request : Request) (sched sched' : list nat),
    snd (POST URL fetch load sched request) = snd (POST URL fetch load sched' request)
    /\ (forall status error,
           fst (POST URL fetch load sched request) = ErrorJson status error ->
           fst (POST URL fetch load sched' request) = ErrorJson status error)
    /\ (forall r,
           fst (POST URL fetch load sched request) = OkJson r ->
           exists r',
             fst (POST URL fetch load sched' request) = OkJson r'
             /\ Permutation (colors r) (colors r')
             /\ length (colors r) = length (colors r')).
Proof.
  intros URL fetch load request sched sched'.
  unfold POST. destruct request as [|target]; [repeat split; discriminate || auto|].
  destruct (truthy target) as [url|]; [|repeat split; discriminate || auto].
  destruct (URL url None); [|repeat split; discriminate || auto].
  destruct (fetch 0 url) as [|status statusText body]; [repeat split; discriminate || auto|].
  destruct (ok status); cbn [negb]; [|repeat split; discriminate || auto].
  destruct body as [html|]; [|repeat split; discriminate || auto].
  destruct (extractAssets URL fetch sched url (load html)) as [r|] eqn:E;
    destruct (extractAssets URL fetch sched' url (load html)) as [r'|] eqn:E'.
  - split; [reflexivity|]. split; [discriminate|].
    intros ? [= <-]. exists r'. split; [reflexivity|].
    apply extractAssets_Some in E as (_ & Hc & _).
    apply extractAssets_Some in E' as (_ & Hc' & _).
    rewrite Hc, Hc'.
    pose proof (colors_schedule URL fetch sched sched' url (load html)) as P.
    split; [exact P | now apply Permutation_length].
  - exfalso.
    assert (H : exists r, extractAssets URL fetch sched url (load html) = Some r) by eauto.
    pose proof (proj1 (extractAssets_succeeds URL fetch sched url (load html)) H) as G.
    apply (proj2 (extractAssets_succeeds URL fetch sched' url (load html))) in G as [r' Hr'].
    congruence.
  - exfalso.
    assert (H : exists r, extractAssets URL fetch sched' url (load html) = Some r) by eauto.
    pose proof (proj1 (extractAssets_succeeds URL fetch sched' url (load html)) H) as G.
    apply (proj2 (extractAssets_succeeds URL fetch sched url (load html))) in G as [r0 Hr0].
    congruence.
  - repeat split; discriminate || auto.
Qed.

(** ** Background images *)

Lemma plain_class_quote (x : cu) :
  class_matches false false [CChar squote; CChar dquote] x = is_quote x.
Proof.
  unfold class_matches, is_quote. cbn [existsb item_matches xorb canon].
  now rewrite orb_false_r.
Qed.

Lemma class_not_quote_paren (x : cu) :
  class_matches false true [CChar squote; CChar dquote; CChar (ch ")")] x
  = not_quote_paren x.
Proof.
  unfold class_matches, not_quote_paren, is_quote. cbn [existsb item_matches canon xorb].
  now rewrite orb_false_r, orb_assoc.
Qed.

Lemma bgTail_closing (pre rest : list cu) (cap : option jsstring) :
  matcher false bgTail (mkSt pre rest cap)
  = match closing rest with
    | Some close => [mkSt (rev close ++ pre) (skipn (length close) rest) cap]
    | None => []
    end.
Proof.
  unfold bgTail, ROpt, quoteClass.
  rewrite matcher_seq, matcher_alt, matcher_class, matcher_empty.
  destruct rest as [|c after]; [reflexivity|].
  rewrite plain_class_quote. unfold closing.
  destruct (N.eqb c (ch ")")) eqn:Hc.
  - apply N.eqb_eq in Hc. subst c. reflexivity.
  - destruct (is_quote c) eqn:Hq.
    + cbn [app flat_map]. rewrite !matcher_char. cbn [canon]. rewrite Hc, !app_nil_r.
      destruct after as [|d after']; [reflexivity|].
      destruct (N.eqb d (ch ")")); reflexivity.
    + cbn [app flat_map]. rewrite matcher_char. cbn [canon]. now rewrite Hc.
Qed.

Lemma bgTail_inside (pre : list cu) (x : cu) (xs : list cu) (cap : option jsstring) :
  not_quote_paren x = true -> matcher false bgTail (mkSt pre (x :: xs) cap) = [].
Proof.
  intros Hx. rewrite bgTail_closing. unfold closing.
  unfold not_quote_paren in Hx. apply negb_true_iff, orb_false_iff in Hx as [Hq Hc].
  now rewrite Hc, Hq.
Qed.

Lemma bg_reference (pre r2 : list cu) (cap : option jsstring) :
  matcher false (RSeq (RGroup (RPlus bgClass)) bgTail) (mkSt pre r2 cap)
  = match takeWhile not_quote_paren r2 with
    | [] => []
    | run =>
        match closing (dropWhile not_quote_paren r2) with
        | Some close =>
            [mkSt (rev close ++ rev run ++ pre)
                  (skipn (length close) (dropWhile not_quote_paren r2)) (Some run)]
        | None => []
        end
    end.
Proof.
  unfold bgClass. rewrite matcher_seq, matcher_group, matcher_plus_class.
  destruct r2 as [|x xs]; [reflexivity|].
  rewrite class_not_quote_paren. cbn [takeWhile dropWhile].
  destruct (not_quote_paren x) eqn:Hx; [|reflexivity].
  rewrite flat_map_map.
  rewrite (star_states_ext _ not_quote_paren) by apply class_not_quote_paren.
  rewrite (star_states_then _ not_quote_paren).
  - unfold set_cap. cbn [consumed remaining].
    rewrite bgTail_closing.
    pose proof (takeWhile_dropWhile not_quote_paren xs) as Hxs.
    destruct (closing (dropWhile not_quote_paren xs)) as [close|]; [|reflexivity].
    f_equal. f_equal.
    + cbn [rev]. now rewrite <- !app_assoc.
    + f_equal. apply firstn_cut. cbn [app]. f_equal. symmetry. exact Hxs.
  - intros pre' x' xs' Hx'. unfold set_cap. cbn [consumed remaining].
    now apply bgTail_inside.
Qed.

Lemma closing_cut (rest close : jsstring) :
  closing rest = Some close -> rest = close ++ skipn (length close) rest.
Proof.
  unfold closing. destruct rest as [|c after]; [discriminate|].
  destruct (N.eqb c (ch ")")); [intros [= <-]; reflexivity|].
  destruct (is_quote c); [|discriminate].
  destruct after as [|d after']; [discriminate|].
  destruct (N.eqb d (ch ")")); [intros [= <-]; reflexivity | discriminate].
Qed.

Lemma skip_quote_cut (r1 : jsstring) : r1 = leading_quote r1 ++ skip_quote r1.
Proof.
  destruct r1 as [|q v]; [reflexivity|]. cbn [leading_quote skip_quote].
  destruct (is_quote q); reflexivity.
Qed.

Lemma strip_prefix_plain (lit : jsstring) :
  forall rest rest', strip_prefix false lit rest = Some rest' -> rest = lit ++ rest'.
Proof.
  induction lit as [|c lit IH]; intros rest rest' H.
  - cbn in H. now injection H as <-.
  - destruct rest as [|x rest]; [discriminate|]. cbn [strip_prefix canon] in H.
    destruct (N.eqb_spec x c) as [->|]; [|discriminate].
    cbn [app]. f_equal. now apply IH.
Qed.

Lemma bg_match_at (pre rest : list cu) :
  match_at false bgRegex pre rest = option_map as_match (background_at rest).
Proof.
  unfold match_at, bgRegex, background_at.
  rewrite matcher_seq, matcher_lit.
  destruct (strip_prefix false (js "url(") rest) as [r1|] eqn:E; [|reflexivity].
  apply strip_prefix_plain in E.
  rewrite flat_map_one, matcher_seq.
  change (RSeq (RGroup (RPlus (RClass true [CChar squote; CChar dquote; CChar (ch ")")])))
               (RSeq (ROpt quoteClass) (RChar (ch ")"))))
    with (RSeq (RGroup (RPlus bgClass)) bgTail).
  change (ROpt quoteClass) with (RAlt (RClass false [CChar squote; CChar dquote]) REmpty).
  rewrite matcher_alt, matcher_class, matcher_empty.
  pose proof (skip_quote_cut r1) as Hr1.
  assert (Hgoal : forall pre2,
             match
               matcher false (RSeq (RGroup (RPlus bgClass)) bgTail)
                       (mkSt pre2 (skip_quote r1) None)
             with
             | e :: _ =>
                 Some (mkMatch (firstn (length rest - length (remaining e)) rest) (cap1 e))
             | [] => None
             end
             = option_map as_match
                 match takeWhile not_quote_paren (skip_quote r1) with
                 | [] => None
                 | y :: run =>
                     match closing (dropWhile not_quote_paren (skip_quote r1)) with
                     | Some close =>
                         Some (js "url(" ++ leading_quote r1 ++ (y :: run) ++ close, y :: run)
                     | None => None
                     end
                 end).
  { intros pre2. rewrite bg_reference.
    pose proof (takeWhile_dropWhile not_quote_paren (skip_quote r1)) as Hrun.
    destruct (takeWhile not_quote_paren (skip_quote r1)) as [|y run]; [reflexivity|].
    destruct (closing (dropWhile not_quote_paren (skip_quote r1))) as [close|] eqn:Hc;
      [|reflexivity].
    apply closing_cut in Hc.
    cbn [option_map remaining cap1]. unfold as_match. cbn [fst snd]. f_equal. f_equal.
    apply firstn_cut. etransitivity; [exact E|].
    rewrite <- (app_assoc (js "url(")). f_equal.
    rewrite <- (app_assoc (leading_quote r1)). etransitivity; [exact Hr1|]. f_equal.
    rewrite <- (app_assoc (y :: run)). etransitivity; [symmetry; exact Hrun|].
    f_equal. exact Hc. }
  destruct r1 as [|q v].
  - cbn [app]. rewrite flat_map_one. apply Hgoal.
  - rewrite plain_class_quote. destruct (is_quote q) eqn:Hq.
    + cbn [app flat_map].
      assert (Hn : matcher false (RSeq (RGroup (RPlus bgClass)) bgTail)
                           (mkSt (rev (firstn (length (js "url(")) rest) ++ pre) (q :: v) None)
                   = []).
      { rewrite bg_reference. cbn [takeWhile]. unfold not_quote_paren. now rewrite Hq. }
      rewrite Hn, !app_nil_r.
      specialize (Hgoal (q :: rev (firstn (length (js "url(")) rest) ++ pre)).
      cbn [skip_quote] in Hgoal. rewrite Hq in Hgoal. cbn [skip_quote]. rewrite Hq.
      apply Hgoal.
    + cbn [app]. rewrite flat_map_one.
      specialize (Hgoal (rev (firstn (length (js "url(")) rest) ++ pre)).
      cbn [skip_quote] in Hgoal. rewrite Hq in Hgoal. cbn [skip_quote]. rewrite Hq.
      apply Hgoal.
Qed.

Lemma bg_matches (css : jsstring) :
  matchAll false bgRegex css = map as_match (find_all background_at 0 css).
Proof. apply matchAll_find_all; [reflexivity | apply bg_match_at]. Qed.

Lemma background_at_Some (rest m0 run : jsstring) :
  background_at rest = Some (m0, run) ->
  exists quote close after,
    rest = js "url(" ++ quote ++ run ++ close ++ after
    /\ m0 = js "url(" ++ quote ++ run ++ close
    /\ run <> []
    /\ forallb not_quote_paren run = true
    /\ (quote = [] \/ exists q, is_quote q = true /\ quote = [q])
    /\ (close = [ch ")"] \/ exists q, is_quote q = true /\ close = [q; ch ")"]).
Proof.
  unfold background_at.
  destruct (strip_prefix false (js "url(") rest) as [r1|] eqn:E; [|discriminate].
  apply strip_prefix_plain in E.
  pose proof (takeWhile_dropWhile not_quote_paren (skip_quote r1)) as Hrun.
  pose proof (takeWhile_all not_quote_paren (skip_quote r1)) as Hall.
  destruct (takeWhile not_quote_paren (skip_quote r1)) as [|y run']; [discriminate|].
  destruct (closing (dropWhile not_quote_paren (skip_quote r1))) as [close|] eqn:Hc;
    [|discriminate].
  intros [= <- <-].
  exists (leading_quote r1), close, (skipn (length close) (dropWhile not_quote_paren (skip_quote r1))).
  split; [|split; [reflexivity|split; [discriminate|split; [exact Hall|split]]]].
  - rewrite E at 1. f_equal. rewrite (skip_quote_cut r1) at 1. f_equal.
    rewrite <- Hrun at 1. f_equal. now apply closing_cut.
  - destruct r1 as [|q v]; [now left|]. cbn [leading_quote].
    destruct (is_quote q) eqn:Hq; [right; now exists q | now left].
  - unfold closing in Hc.
    destruct (dropWhile not_quote_paren (skip_quote r1)) as [|c after]; [discriminate|].
    destruct (N.eqb_spec c (ch ")")) as [Hcp|_].
    + injection Hc as <-. left. now rewrite Hcp.
    + destruct (is_quote c) eqn:Hq; [|discriminate].
      destruct after as [|d after']; [discriminate|].
      destruct (N.eqb_spec d (ch ")")) as [Hd|_]; [|discriminate].
      injection Hc as <-. right. exists c. now rewrite Hd.
Qed.

Lemma fold_left_push {A : Type} (g : A -> bool) (f : A -> jsstring) (l : list A) :
  forall acc,
    fold_left (fun images m => if g m then images ++ [f m] else images) l acc
    = acc ++ map f (filter g l).
Proof.
  induction l as [|x l IH]; intros acc; [now rewrite app_nil_r|].
  cbn [fold_left filter]. rewrite IH. destruct (g x); [|reflexivity].
  cbn [map]. now rewrite <- app_assoc.
Qed.

Lemma bg_groups (css : jsstring) : map grp (matchAll false bgRegex css) = backgrounds css.
Proof.
  rewrite bg_matches. unfold backgrounds. rewrite map_map. reflexivity.
Qed.

Lemma extractBackgroundImages_backgrounds URL (css baseUrl : jsstring) :
  extractBackgroundImages URL css baseUrl
  = map (resolveUrl URL baseUrl)
        (filter (fun ref => negb (startsWith (js "data:") ref)) (backgrounds css)).
Proof.
  unfold extractBackgroundImages.
  rewrite (fold_left_push (fun m => negb (startsWith (js "data:") (grp m)))
                          (fun m => resolveUrl URL baseUrl (grp m))).
  cbn [app]. rewrite <- bg_groups, filter_map_swap, map_map. reflexivity.
Qed.

Lemma backgrounds_shape (css ref : jsstring) :
  In ref (backgrounds css) ->
  ref <> [] /\ forallb not_quote_paren ref = true
  /\ exists before quote close after,
      css = before ++ js "url(" ++ quote ++ ref ++ close ++ after
      /\ (quote = [] \/ exists q, is_quote q = true /\ quote = [q])
      /\ (close = [ch ")"] \/ exists q, is_quote q = true /\ close = [q; ch ")"]).
Proof.
  unfold backgrounds. rewrite in_map_iff. intros ([m0 run] & <- & H). cbn [snd].
  apply find_all_In in H as (before & rest & -> & H).
  apply background_at_Some in H as (quote & close & after & -> & _ & Hne & Hall & Hq & Hc).
  split; [exact Hne|]. split; [exact Hall|].
  exists before, quote, close, after. auto.
Qed.

(** X6.  [extractBackgroundImages] finds the references written
    [url(], an optional quote, a run free of quotes and [)] that is not
    empty, an optional quote, [)]; it returns them in the order of the
    text, repeated ones included, each resolved against the base, but for
    those that start with [data:]. *)
Theorem background_references :
  forall URL (css baseUrl : jsstring),
    map grp (matchAll false bgRegex css) = backgrounds css
    /\ extractBackgroundImages URL css baseUrl
       = map (resolveUrl URL baseUrl)
             (filter (fun ref => negb (startsWith (js "data:") ref)) (backgrounds css))
    /\ (forall ref,
           In ref (backgrounds css) ->
           ref <> [] /\ forallb not_quote_paren ref = true
           /\ exists before quote close after,
               css = before ++ js "url(" ++ quote ++ ref ++ close ++ after
               /\ (quote = [] \/ exists q, is_quote q = true /\ quote = [q])
               /\ (close = [ch ")"] \/ exists q, is_quote q = true /\ close = [q; ch ")"])).
Proof.
  intros URL css baseUrl. split; [apply bg_groups|].
  split; [apply extractBackgroundImages_backgrounds|].
  intros ref. apply backgrounds_shape.
Qed.

(** ** The images of an answer *)

Lemma fold_set_add_filter {A : Type} (g : jsstring -> bool) (f : jsstring -> jsstring)
      (h : A -> jsstring) (l : list A) :
  forall s,
    fold_left (fun images x => if g (h x) then set_add (f (h x)) images else images) l s
    = add_all (map f (filter g (map h l))) s.
Proof.
  induction l as [|x l IH]; intros s; [reflexivity|].
  cbn [fold_left map filter]. rewrite IH. destruct (g (h x)); reflexivity.
Qed.

Lemma addImgSrc_references URL (url : jsstring) (images : JSSet) (e : Element) :
  addImgSrc URL url images e
  = add_all (map (resolveUrl URL url) (filter usable (opt_list (attr e "src")))) images.
Proof.
  unfold addImgSrc. destruct (attr e "src") as [[|c src]|]; try reflexivity.
  cbn [truthy opt_list filter]. unfold usable at 1. cbn [nonempty andb].
  destruct (negb (startsWith (js "data:") (c :: src))); reflexivity.
Qed.

Lemma firstToken_nil : firstToken [] = [].
Proof. reflexivity. Qed.

Lemma addSrcset_references URL (url : jsstring) (images : JSSet) (e : Element) :
  addSrcset URL url images e
  = add_all (map (resolveUrl URL url)
                 (filter usable
                         match attr e "srcset" with
                         | Some srcset => map firstToken (split_on (ch ",") srcset)
                         | None => []
                         end))
            images.
Proof.
  unfold addSrcset. destruct (attr e "srcset") as [[|c srcset]|]; try reflexivity.
  cbn [truthy].
  apply (fold_set_add_filter usable (resolveUrl URL url) firstToken).
Qed.

Lemma flat_map_map_filter {A : Type} (f : jsstring -> jsstring) (g : jsstring -> bool)
      (h : A -> list jsstring) (l : list A) :
  flat_map (fun x => map f (filter g (h x))) l = map f (filter g (flat_map h l)).
Proof.
  induction l as [|x l IH]; [reflexivity|].
  cbn [flat_map]. now rewrite IH, filter_app, map_app.
Qed.

Lemma markupImages_references URL (url : jsstring) (doc : Document) :
  markupImages URL url doc
  = add_all (map (resolveUrl URL url)
                 (filter usable (srcReferences doc ++ srcsetReferences doc))) [].
Proof.
  unfold markupImages.
  rewrite (fold_add_all _ (addSrcset URL url) _ (fun s x => addSrcset_references URL url s x)).
  rewrite (fold_add_all _ (addImgSrc URL url) _ (fun s x => addImgSrc_references URL url s x)).
  rewrite !flat_map_map_filter. rewrite filter_app, map_app, add_all_app. reflexivity.
Qed.

Lemma backgrounds_usable (css ref : jsstring) :
  In ref (backgrounds css) -> usable ref = negb (startsWith (js "data:") ref).
Proof.
  intros H. apply backgrounds_shape in H as (Hne & _).
  unfold usable. destruct ref; [contradiction | reflexivity].
Qed.

(** X7.  The images of an answer, in order: the [src] of the images of
    the document, then the candidates of the [srcset] attributes, then the
    references of the corpus; of these the ones that are not empty and do
    not start with [data:], resolved against the target, each address at
    its first occurrence. *)
Theorem images_in_order :
  forall URL fetch sched (url : jsstring) (doc : Document) (r : ExplodeResponse),
    extractAssets URL fetch sched url doc = Some r ->
    images r
    = first_occurrences []
        (map (resolveUrl URL url)
             (filter usable
                     (srcReferences doc ++ srcsetReferences doc
                      ++ backgrounds (corpus URL fetch sched url doc)))).
Proof.
  intros URL fetch sched url doc r H.
  apply extractAssets_Some in H as (Hi & _). rewrite Hi.
  rewrite markupImages_references, extractBackgroundImages_backgrounds.
  rewrite <- add_all_app, add_all_first_occurrences. cbn [app].
  rewrite <- map_app. f_equal. f_equal.
  rewrite app_assoc, (filter_app usable (_ ++ _)). f_equal.
  symmetry. apply filter_ext_in. intros ref. apply backgrounds_usable.
Qed.

Lemma images_in_order_witness :
  extractAssets Sample.URL Sample.fetch [] Sample.url Sample.doc = Some Sample.response
  /\ images Sample.response
     = first_occurrences []
         (map (resolveUrl Sample.URL Sample.url)
              (filter usable
                      (srcReferences Sample.doc ++ srcsetReferences Sample.doc
                       ++ backgrounds (corpus Sample.URL Sample.fetch [] Sample.url
                                              Sample.doc)))).
Proof.
  split; [vm_compute; reflexivity|].
  apply (images_in_order Sample.URL Sample.fetch [] Sample.url Sample.doc Sample.response).
  vm_compute. reflexivity.
Defined.

(** ** The candidates of a [srcset] *)

Lemma firstToken_prefix (piece : jsstring) :
  exists rest,
    trim piece = firstToken piece ++ rest
    /\ match rest with [] => True | c :: _ => is_space c = true end.
Proof.
  unfold firstToken. exists (dropWhile (fun c => negb (is_space c)) (trim piece)). split.
  - symmetry. apply takeWhile_dropWhile.
  - pose proof (dropWhile_head (fun c => negb (is_space c)) (trim piece)) as H.
    destruct (dropWhile _ (trim piece)); [exact I | now apply negb_false_iff in H].
Qed.

(** X8.  A candidate of a [srcset] attribute is what precedes the first
    white space of a piece between commas, once the piece is trimmed: it
    contains no white space and no comma.  (So a data URI, which has a
    comma, is cut in two, and what follows its comma is a candidate of its
    own.) *)
Theorem srcset_candidates :
  forall (doc : Document) (tok : jsstring),
    In tok (srcsetReferences doc) ->
    forallb (fun c => negb (is_space c)) tok = true
    /\ ~ In (ch ",") tok
    /\ exists e srcset piece rest,
        In e doc /\ sel_srcset e = true /\ attr e "srcset" = Some srcset
        /\ In piece (split_on (ch ",") srcset)
        /\ trim piece = tok ++ rest
        /\ match rest with [] => True | c :: _ => is_space c = true end.
Proof.
  intros doc tok H. unfold srcsetReferences in H.
  apply in_flat_map in H as (e & He & H). apply filter_In in He as [He Hs].
  destruct (attr e "srcset") as [srcset|] eqn:Ha; [|destruct H].
  apply in_map_iff in H as (piece & <- & Hp).
  split; [apply takeWhile_all|]. split.
  - intros H. unfold firstToken in H. apply In_takeWhile, In_trim in H.
    now apply split_on_no_sep in Hp.
  - destruct (firstToken_prefix piece) as (rest & Hr & Hh).
    exists e, srcset, piece, rest. auto 10.
Qed.

Lemma srcset_candidates_witness :
  In (js "AAAA")
     (srcsetReferences
        [Sample.elem "img" [("srcset", "data:image/png;base64,AAAA 1x")]%string ""])
  /\ forallb (fun c => negb (is_space c)) (js "AAAA") = true
  /\ ~ In (ch ",") (js "AAAA").
Proof.
  split; [vm_compute; auto|].
  destruct (srcset_candidates
              [Sample.elem "img" [("srcset", "data:image/png;base64,AAAA 1x")]%string ""]
              (js "AAAA")) as (H1 & H2 & _).
  - vm_compute. auto.
  - split; assumption.
Defined.

(** ** Replacements *)

Lemma match_at_class (neg : bool) (items : list ClassItem) (pre rest : list cu) :
  match_at false (RClass neg items) pre rest
  = match rest with
    | c :: _ => if class_matches false neg items c then Some (mkMatch [c] None) else None
    | [] => None
    end.
Proof.
  unfold match_at. rewrite matcher_class. destruct rest as [|c rest']; [reflexivity|].
  destruct (class_matches false neg items c); [|reflexivity].
  cbn [remaining cap1 length]. do 2 f_equal.
  replace (S (length rest') - length rest') with 1 by lia. reflexivity.
Qed.

Lemma match_at_char (x : cu) (pre rest : list cu) :
  match_at false (RChar x) pre rest
  = match rest with
    | c :: _ => if N.eqb c x then Some (mkMatch [c] None) else None
    | [] => None
    end.
Proof.
  unfold match_at. rewrite matcher_char. destruct rest as [|c rest']; [reflexivity|].
  cbn [canon]. destruct (N.eqb c x); [|reflexivity].
  cbn [remaining cap1 length]. do 2 f_equal.
  replace (S (length rest') - length rest') with 1 by lia. reflexivity.
Qed.

Lemma match_at_plus_class (neg : bool) (items : list ClassItem) (pre rest : list cu) :
  match_at false (RPlus (RClass neg items)) pre rest
  = match takeWhile (class_matches false neg items) rest with
    | [] => None
    | run => Some (mkMatch run None)
    end.
Proof.
  unfold match_at. rewrite matcher_plus_class. destruct rest as [|c rest']; [reflexivity|].
  cbn [takeWhile]. destruct (class_matches false neg items c); [|reflexivity].
  destruct (star_states_head (class_matches false neg items) rest' (c :: pre) None)
    as (others & ->).
  cbn [remaining cap1]. do 2 f_equal.
  apply firstn_cut. cbn [app]. f_equal. symmetry. apply takeWhile_dropWhile.
Qed.

Lemma replace_class (neg : bool) (items : list ClassItem) (by_ : jsstring) (s : jsstring) :
  forall pre,
    replace_from false (RClass neg items) by_ 0 pre s
    = flat_map (fun c => if class_matches false neg items c then by_ else [c]) s.
Proof.
  induction s as [|c s IH]; intros pre.
  - cbn [replace_from]. now rewrite match_at_class.
  - cbn [replace_from flat_map]. rewrite match_at_class.
    destruct (class_matches false neg items c); cbn [m_0 length]; now rewrite IH.
Qed.

Lemma replace_char (x : cu) (by_ : jsstring) (s : jsstring) :
  forall pre,
    replace_from false (RChar x) by_ 0 pre s
    = flat_map (fun c => if N.eqb c x then by_ else [c]) s.
Proof.
  induction s as [|c s IH]; intros pre.
  - cbn [replace_from]. now rewrite match_at_char.
  - cbn [replace_from flat_map]. rewrite match_at_char.
    destruct (N.eqb c x); cbn [m_0 length]; now rewrite IH.
Qed.

Lemma plain_class_space (x : cu) : class_matches false false [CSpace] x = is_space x.
Proof.
  unfold class_matches. cbn [existsb item_matches xorb]. now rewrite orb_false_r.
Qed.

Lemma replace_quotes (s : jsstring) :
  replaceAll false quoteClass [] s = filter (fun c => negb (is_quote c)) s.
Proof.
  unfold replaceAll, quoteClass. rewrite replace_class.
  induction s as [|c s IH]; [reflexivity|].
  cbn [flat_map filter]. rewrite plain_class_quote, IH.
  destruct (is_quote c); reflexivity.
Qed.

Lemma replace_plus (s : jsstring) :
  replaceAll false (RChar (ch "+")) (js " ") s = plusToSpace s.
Proof.
  unfold replaceAll. rewrite replace_char. unfold plusToSpace.
  induction s as [|c s IH]; [reflexivity|].
  cbn [flat_map map]. rewrite IH. destruct (N.eqb c (ch "+")); reflexivity.
Qed.

Lemma replace_runs (s : jsstring) :
  (forall pre,
      replace_from false (RPlus spaceClass) (js "+")
                   (length (takeWhile is_space s)) pre s
      = plus_runs true s)
  /\ (forall pre,
         replace_from false (RPlus spaceClass) (js "+") 0 pre s = plus_runs false s).
Proof.
  unfold spaceClass.
  induction s as [|c s [IHa IHb]].
  - split; intros pre; cbn [takeWhile length replace_from];
      now rewrite match_at_plus_class.
  - split; intros pre.
    + cbn [takeWhile plus_runs]. destruct (is_space c) eqn:Hc.
      * cbn [length replace_from]. apply IHa.
      * cbn [length replace_from]. rewrite match_at_plus_class. cbn [takeWhile].
        rewrite plain_class_space, Hc. now rewrite IHb.
    + cbn [replace_from plus_runs]. rewrite match_at_plus_class. cbn [takeWhile].
      rewrite plain_class_space. destruct (is_space c) eqn:Hc.
      * cbn [m_0 length app].
        rewrite (takeWhile_ext _ is_space s plain_class_space).
        change (js "+") with [ch "+"]. cbn [app]. now rewrite IHa.
      * now rewrite IHb.
Qed.

Lemma replace_spaces (s : jsstring) :
  replaceAll false (RPlus spaceClass) (js "+") s = plus_runs false s.
Proof. apply (proj2 (replace_runs s)). Qed.

(** X10.  The replacements of the program, run by the matcher on their
    patterns, are what their direct descriptions say: [/['\x22]/g] by the
    empty string removes the quote characters, which is how [cleanFont]
    is written; [/\+/g] by a space is [plusToSpace]; [/\s+/g] by [+] puts
    one [+] for each run of white space. *)
Theorem replacements_by_pattern :
  forall s : jsstring,
    replaceAll false quoteClass [] s = filter (fun c => negb (is_quote c)) s
    /\ cleanFont s = replaceAll false quoteClass [] (trim s)
    /\ replaceAll false (RChar (ch "+")) (js " ") s = plusToSpace s
    /\ replaceAll false (RPlus spaceClass) (js "+") s = plus_runs false s.
Proof.
  intros s. split; [apply replace_quotes|]. split; [|split].
  - unfold cleanFont. now rewrite replace_quotes.
  - apply replace_plus.
  - apply replace_spaces.
Qed.

(** ** The page and the route *)

Lemma POST_error_status URL fetch load sched (request : Request) (status : nat)
      (detail : jsstring) :
  fst (POST URL fetch load sched request) = ErrorJson status detail ->
  status = 400 \/ status = 500 \/ status = 502.
Proof.
  unfold POST, internalError. destruct request as [|target]; [intros [= <- _]; auto|].
  destruct (truthy target) as [url|]; [|intros [= <- _]; auto].
  destruct (URL url None); [|intros [= <- _]; auto].
  destruct (fetch 0 url) as [|st text body]; [intros [= <- _]; auto|].
  destruct (ok st); cbn [negb]; [|intros [= <- _]; auto].
  destruct body as [html|]; [|intros [= <- _]; auto].
  destruct (extractAssets URL fetch sched url (load html)); [discriminate|].
  intros [= <- _]; auto.
Qed.

Lemma trim_nonempty (s : jsstring) : trim s <> [] -> s <> [].
Proof. intros H ->. now apply H. Qed.

(** X11.  What [handleExplode] leaves behind.  With a target that is
    blank it sends nothing and only sets the error, the result of an
    earlier request staying as it was.  Otherwise it sends one request for
    the target as typed; when it ends the page is no longer loading, the
    filter is untouched, an error and a result are never set together,
    and a result is set exactly when the answer has a status from 200 to
    299 and a body that parses, that body being the result. *)
Theorem handleExplode_outcome :
  forall (api : jsstring -> Page.ApiOutcome) (st : Page.State),
    (trim (Page.url st) = [] ->
     Page.handleExplode api st = (Page.setError (js "Please enter a URL") st, []))
    /\ (trim (Page.url st) <> [] ->
        snd (Page.handleExplode api st) = [Page.url st]
        /\ Page.loading (fst (Page.handleExplode api st)) = false
        /\ Page.url (fst (Page.handleExplode api st)) = Page.url st
        /\ Page.activeFilter (fst (Page.handleExplode api st)) = Page.activeFilter st
        /\ (Page.error (fst (Page.handleExplode api st)) = []
            \/ Page.result (fst (Page.handleExplode api st)) = None)
        /\ (forall data,
               Page.result (fst (Page.handleExplode api st)) = Some data <->
               exists status,
                 api (Page.url st) = Page.Answered status (inr data)
                 /\ ok status = true)).
Proof.
  intros api st. unfold Page.handleExplode. split.
  - intros ->. reflexivity.
  - intros Hne. destruct (trim (Page.url st)) as [|c t]; [contradiction|].
    cbn [nonempty negb]. cbv zeta. cbn [Page.url Page.setResult Page.setError Page.setLoading].
    destruct (api (Page.url st)) as [[message|]|status [message|data]] eqn:Ha.
    + cbn. repeat (split; [solve [auto]|]). intros data. split; [discriminate|].
      intros (s & H & _). discriminate.
    + cbn. repeat (split; [solve [auto]|]). intros data. split; [discriminate|].
      intros (s & H & _). discriminate.
    + destruct (ok status) eqn:Hok; cbn; repeat (split; [solve [auto]|]);
        intros data; (split; [discriminate|]); intros (s & H & _); discriminate.
    + destruct (ok status) eqn:Hok; cbn; repeat (split; [solve [auto]|]); intros d; split.
      * intros [= <-]. now exists status.
      * intros (s & [= <- <-] & _). reflexivity.
      * discriminate.
      * intros (s & [= <- <-] & H). congruence.
Qed.

Lemma handleExplode_outcome_witness :
  trim (js " https://x.com/ ") <> []
  /\ Page.loading
       (fst (Page.handleExplode
               (fun _ => Page.Answered 200 (inr (Page.Collections Sample.response)))
               (Page.mkState (js " https://x.com/ ") false None [] Page.FilterAll [])))
     = false.
Proof.
  split; [discriminate|].
  apply (proj2 (handleExplode_outcome
                  (fun _ => Page.Answered 200 (inr (Page.Collections Sample.response)))
                  (Page.mkState (js " https://x.com/ ") false None [] Page.FilterAll []))).
  discriminate.
Defined.

(** X12.  The page in front of the route: a target the page sends is
    never refused as missing, and whatever error the route answers with,
    the page shows the one message [Failed to explode URL] and no result;
    when the route answers with the collections, they are the result and
    no error is shown. *)
Theorem page_shows_one_failure_message :
  forall URL fetch load sched (st : Page.State),
    trim (Page.url st) <> [] ->
    fst (POST URL fetch load sched (Body (Some (Page.url st))))
    <> ErrorJson 400 (js "URL is required")
    /\ match fst (POST URL fetch load sched (Body (Some (Page.url st)))) with
       | OkJson response =>
           Page.result (fst (Page.handleExplode (Page.explode URL fetch load sched) st))
           = Some (Page.Collections response)
           /\ Page.error (fst (Page.handleExplode (Page.explode URL fetch load sched) st))
              = []
       | ErrorJson _ _ =>
           Page.result (fst (Page.handleExplode (Page.explode URL fetch load sched) st))
           = None
           /\ Page.error (fst (Page.handleExplode (Page.explode URL fetch load sched) st))
              = js "Failed to explode URL"
       end.
Proof.
  intros URL fetch load sched st Hne. split.
  - apply trim_nonempty in Hne. unfold POST.
    destruct (Page.url st) as [|c u]; [contradiction|]. cbn [truthy].
    destruct (URL (c :: u) None); [|discriminate].
    destruct (fetch 0 (c :: u)) as [|s text body]; [discriminate|].
    destruct (negb (ok s)); [discriminate|].
    destruct body as [html|]; [|discriminate].
    destruct (extractAssets URL fetch sched (c :: u) (load html)); discriminate.
  - unfold Page.handleExplode, Page.explode.
    destruct (trim (Page.url st)) as [|c t]; [contradiction|].
    cbn [nonempty negb]. cbv zeta. cbn [Page.url Page.setResult Page.setError Page.setLoading].
    destruct (fst (POST URL fetch load sched (Body (Some (Page.url st)))))
      as [status detail|response] eqn:E.
    + apply POST_error_status in E. cbn [Page.status_of].
      destruct E as [-> | [-> | ->]]; cbn; auto.
    + cbn. auto.
Qed.

Lemma page_shows_one_failure_message_witness :
  trim (js "not a url") <> []
  /\ fst (POST Sample.URL Sample.fetch Sample.load [] (Body (Some (js "not a url"))))
     = ErrorJson 400 (js "Invalid URL format")
  /\ Page.error
       (fst (Page.handleExplode (Page.explode Sample.URL Sample.fetch Sample.load [])
                                (Page.mkState (js "not a url") false None [] Page.FilterAll [])))
     = js "Failed to explode URL".
Proof.
  split; [discriminate|]. split; [vm_compute; reflexivity|].
  pose proof (proj2 (page_shows_one_failure_message
                       Sample.URL Sample.fetch Sample.load []
                       (Page.mkState (js "not a url") false None [] Page.FilterAll [])
                       ltac:(discriminate))) as H.
  cbn [Page.url] in H.
  replace (fst (POST Sample.URL Sample.fetch Sample.load [] (Body (Some (js "not a url")))))
    with (ErrorJson 400 (js "Invalid URL format")) in H by (vm_compute; reflexivity).
  exact (proj2 H).
Defined.

(** ** Encoded components *)

Lemma hexdigit_of_unreserved (k : N) : uri_unreserved (hexdigit_of k) = true.
Proof.
  unfold hexdigit_of.
  assert (H : forall n d, uri_unreserved d = true ->
                          uri_unreserved (nth n (js "0123456789ABCDEF") d) = true).
  { intros n d Hd. repeat (destruct n as [|n]; [reflexivity|]).
    destruct n; exact Hd. }
  apply H. reflexivity.
Qed.


Lemma escape_units (p : cu -> bool) (bs : list N) :
  p (ch "%") = true -> (forall k, p (hexdigit_of k) = true) ->
  forallb p (flat_map escape bs) = true.
Proof.
  intros Hp Hh. induction bs as [|b bs IH]; [reflexivity|].
  cbn [flat_map escape app forallb]. now rewrite Hp, !Hh, IH.
Qed.

Lemma encode_units (p : cu -> bool) :
  p (ch "%") = true -> (forall k, p (hexdigit_of k) = true) ->
  forall n s out,
    length s <= n ->
    forallb (fun c => negb (uri_unreserved c) || p c) s = true ->
    encodeURIComponent s = Some out -> forallb p out = true.
Proof.
  intros Hp Hh. induction n as [|n IH]; intros s out Hn Hs H.
  - destruct s; [|cbn in Hn; lia]. now injection H as <-.
  - destruct s as [|c s1]; [now injection H as <-|].
    cbn [length] in Hn. cbn [forallb] in Hs. apply andb_true_iff in Hs as [Hc Hs1].
    cbn [encodeURIComponent] in H.
    destruct (uri_unreserved c) eqn:Hu.
    + destruct (encodeURIComponent s1) as [o|] eqn:E; [|discriminate].
      injection H as <-. cbn [forallb]. cbn [negb orb] in Hc. rewrite Hc.
      apply (IH s1); [lia | assumption | assumption].
    + destruct (is_trail c); [discriminate|].
      destruct (is_lead c).
      * destruct s1 as [|d s2]; [discriminate|].
        destruct (is_trail d); [|discriminate].
        destruct (encodeURIComponent s2) as [o|] eqn:E; [|discriminate].
        injection H as <-. rewrite forallb_app, escape_units by assumption.
        cbn [forallb] in Hs1. apply andb_true_iff in Hs1 as [_ Hs2].
        cbn [length] in Hn. apply (IH s2); [lia | assumption | assumption].
      * destruct (encodeURIComponent s1) as [o|] eqn:E; [|discriminate].
        injection H as <-. rewrite forallb_app, escape_units by assumption.
        apply (IH s1); [lia | assumption | assumption].
Qed.

Lemma encoded_units (s out : jsstring) :
  encodeURIComponent s = Some out -> forallb encoded_unit out = true.
Proof.
  apply (encode_units encoded_unit) with (n := length s).
  - reflexivity.
  - intros k. unfold encoded_unit. now rewrite hexdigit_of_unreserved.
  - lia.
  - apply forallb_forall. intros c _. unfold encoded_unit.
    destruct (uri_unreserved c); reflexivity.
Qed.


(** ** Decoding what [encodeURIComponent] wrote *)

Ltac div_lia := zify; Z.to_euclidean_division_equations; lia.

Lemma hexval_hexdigit (k : N) : (k < 16)%N -> hexval (hexdigit_of k) = Some k.
Proof.
  intros H. destruct k as [|p]; [reflexivity|].
  do 4 (try (destruct p as [p|p|]; try reflexivity)); div_lia.
Qed.

Lemma uri_tokens_escape (b : N) (rest : jsstring) :
  (b < 256)%N ->
  uri_tokens (escape b ++ rest) = option_map (cons (Octet b)) (uri_tokens rest).
Proof.
  intros Hb. unfold escape. cbn [app uri_tokens].
  change (N.eqb (ch "%") (ch "%")) with true. cbv iota.
  rewrite !hexval_hexdigit by div_lia.
  replace (16 * (b / 16) + b mod 16)%N with b by div_lia.
  destruct (uri_tokens rest); reflexivity.
Qed.

Lemma uri_tokens_escapes (bs : list N) (rest : jsstring) :
  Forall (fun b => (b < 256)%N) bs ->
  uri_tokens (flat_map escape bs ++ rest)
  = option_map (app (map Octet bs)) (uri_tokens rest).
Proof.
  induction 1 as [|b bs Hb _ IH].
  - cbn. destruct (uri_tokens rest); reflexivity.
  - cbn [flat_map map]. rewrite <- app_assoc, uri_tokens_escape, IH by assumption.
    destruct (uri_tokens rest); reflexivity.
Qed.

Lemma utf8_octets (v : N) : (v <= 1114111)%N -> Forall (fun b => (b < 256)%N) (utf8 v).
Proof.
  intros Hv. unfold utf8.
  destruct (N.ltb_spec v 128); [repeat constructor; div_lia|].
  destruct (N.ltb_spec v 2048); [repeat constructor; div_lia|].
  destruct (N.ltb_spec v 65536); repeat constructor; div_lia.
Qed.

Ltac ltb_cases :=
  repeat match goal with
         | |- context [(?a <? ?b)%N] => destruct (N.ltb_spec a b); try div_lia
         end.

Lemma utf8_decode_octets (v : N) (ts : list UriToken) :
  (v <= 1114111)%N -> in_range 55296%N 57343%N v = false ->
  utf8_decode 0 0%N 0%N (map Octet (utf8 v) ++ ts)
  = option_map (app (utf16 v)) (utf8_decode 0 0%N 0%N ts).
Proof.
  intros Hv Hs. unfold in_range in Hs.
  assert (Hsur : (v < 55296 \/ 57343 < v)%N).
  { apply andb_false_iff in Hs as [Hs|Hs]; [apply N.leb_gt in Hs | apply N.leb_gt in Hs]; div_lia. }
  clear Hs. unfold utf8.
  destruct (N.ltb_spec v 128) as [H1|H1].
  - cbn [map app utf8_decode]. destruct (N.ltb_spec v 128); [|div_lia].
    unfold utf16. destruct (N.ltb_spec v 65536); [|div_lia].
    destruct (utf8_decode 0 0%N 0%N ts); reflexivity.
  - destruct (N.ltb_spec v 2048) as [H2|H2].
    + cbn [map app utf8_decode]. ltb_cases.
      unfold in_range.
      replace ((128 <=? 128 + v mod 64)%N && (128 + v mod 64 <=? 191)%N) with true
        by (symmetry; apply andb_true_iff; split; apply N.leb_le; div_lia).
      replace ((192 + v / 64 - 192) * 64 + (128 + v mod 64 - 128))%N with v by div_lia.
      unfold valid_code_point, in_range.
      replace ((128 <=? v)%N && (v <=? 1114111)%N
               && negb ((55296 <=? v)%N && (v <=? 57343)%N)) with true.
      * unfold utf16. destruct (N.ltb_spec v 65536); [reflexivity | div_lia].
      * symmetry. rewrite !andb_true_iff, negb_true_iff, andb_false_iff, !N.leb_le, !N.leb_gt.
        div_lia.
    + destruct (N.ltb_spec v 65536) as [H3|H3].
      * cbn [map app utf8_decode]. ltb_cases.
        unfold in_range.
        replace ((128 <=? 128 + (v / 64) mod 64)%N && (128 + (v / 64) mod 64 <=? 191)%N)
          with true by (symmetry; apply andb_true_iff; split; apply N.leb_le; div_lia).
        replace ((128 <=? 128 + v mod 64)%N && (128 + v mod 64 <=? 191)%N) with true
          by (symmetry; apply andb_true_iff; split; apply N.leb_le; div_lia).
        replace (((224 + v / 4096 - 224) * 64 + (128 + (v / 64) mod 64 - 128)) * 64
                 + (128 + v mod 64 - 128))%N with v by div_lia.
        unfold valid_code_point, in_range.
        replace ((2048 <=? v)%N && (v <=? 1114111)%N
                 && negb ((55296 <=? v)%N && (v <=? 57343)%N)) with true.
        -- unfold utf16. destruct (N.ltb_spec v 65536); [reflexivity | div_lia].
        -- symmetry.
           rewrite !andb_true_iff, negb_true_iff, andb_false_iff, !N.leb_le, !N.leb_gt.
           div_lia.
      * cbn [map app utf8_decode]. ltb_cases.
        unfold in_range.
        replace ((128 <=? 128 + (v / 4096) mod 64)%N && (128 + (v / 4096) mod 64 <=? 191)%N)
          with true by (symmetry; apply andb_true_iff; split; apply N.leb_le; div_lia).
        replace ((128 <=? 128 + (v / 64) mod 64)%N && (128 + (v / 64) mod 64 <=? 191)%N)
          with true by (symmetry; apply andb_true_iff; split; apply N.leb_le; div_lia).
        replace ((128 <=? 128 + v mod 64)%N && (128 + v mod 64 <=? 191)%N) with true
          by (symmetry; apply andb_true_iff; split; apply N.leb_le; div_lia).
        replace ((((240 + v / 262144 - 240) * 64 + (128 + (v / 4096) mod 64 - 128)) * 64
                  + (128 + (v / 64) mod 64 - 128)) * 64
                 + (128 + v mod 64 - 128))%N with v by div_lia.
        unfold valid_code_point, in_range.
        replace ((65536 <=? v)%N && (v <=? 1114111)%N
                 && negb ((55296 <=? v)%N && (v <=? 57343)%N)) with true.
        -- reflexivity.
        -- symmetry.
           rewrite !andb_true_iff, negb_true_iff, andb_false_iff, !N.leb_le, !N.leb_gt.
           div_lia.
Qed.

Lemma unreserved_not_percent (c : cu) : uri_unreserved c = true -> N.eqb c (ch "%") = false.
Proof.
  intros H. apply N.eqb_neq. intros ->. discriminate H.
Qed.

Lemma pair_code_point_valid (c d : cu) :
  is_lead c = true -> is_trail d = true ->
  (pair_code_point c d <= 1114111)%N
  /\ in_range 55296%N 57343%N (pair_code_point c d) = false
  /\ utf16 (pair_code_point c d) = [c; d].
Proof.
  unfold is_lead, is_trail, in_range, pair_code_point, utf16. intros Hc Hd.
  apply andb_true_iff in Hc as [Hc1 Hc2]. apply andb_true_iff in Hd as [Hd1 Hd2].
  apply N.leb_le in Hc1, Hc2, Hd1, Hd2.
  split; [div_lia|]. split.
  - apply andb_false_iff. right. apply N.leb_gt. div_lia.
  - destruct (N.ltb_spec (65536 + (c - 55296) * 1024 + (d - 56320)) 65536); [div_lia|].
    f_equal; [|f_equal]; div_lia.
Qed.

Lemma decode_encode (n : nat) :
  forall s out,
    length s <= n -> code_units s = true ->
    encodeURIComponent s = Some out ->
    exists ts, uri_tokens out = Some ts /\ utf8_decode 0 0%N 0%N ts = Some s.
Proof.
  induction n as [|n IH]; intros s out Hn Hs H.
  - destruct s; [|cbn in Hn; div_lia]. injection H as <-. now exists [].
  - destruct s as [|c s1]; [injection H as <-; now exists []|].
    cbn [length] in Hn. unfold code_units in Hs. cbn [forallb] in Hs.
    apply andb_true_iff in Hs as [Hc Hs1]. apply N.ltb_lt in Hc.
    cbn [encodeURIComponent] in H.
    destruct (uri_unreserved c) eqn:Hu.
    + destruct (encodeURIComponent s1) as [o|] eqn:E; [|discriminate].
      injection H as <-.
      destruct (IH s1 o ltac:(div_lia) Hs1 E) as (ts & Ht & Hd).
      exists (Plain c :: ts). cbn [uri_tokens].
      rewrite (unreserved_not_percent c Hu), Ht. cbn [option_map utf8_decode].
      now rewrite Hd.
    + destruct (is_trail c) eqn:Htr; [discriminate|].
      destruct (is_lead c) eqn:Hld.
      * destruct s1 as [|d s2]; [discriminate|].
        destruct (is_trail d) eqn:Htd; [|discriminate].
        destruct (encodeURIComponent s2) as [o|] eqn:E; [|discriminate].
        injection H as <-.
        cbn [forallb] in Hs1. apply andb_true_iff in Hs1 as [_ Hs2].
        cbn [length] in Hn.
        destruct (IH s2 o ltac:(div_lia) Hs2 E) as (ts & Ht & Hd).
        destruct (pair_code_point_valid c d Hld Htd) as (Hv & Hsur & H16).
        exists (map Octet (utf8 (pair_code_point c d)) ++ ts).
        rewrite uri_tokens_escapes, Ht by now apply utf8_octets.
        split; [reflexivity|].
        rewrite utf8_decode_octets, Hd, H16 by assumption. reflexivity.
      * destruct (encodeURIComponent s1) as [o|] eqn:E; [|discriminate].
        injection H as <-.
        destruct (IH s1 o ltac:(div_lia) Hs1 E) as (ts & Ht & Hd).
        assert (Hsur : in_range 55296%N 57343%N c = false).
        { unfold is_lead, is_trail, in_range in Htr, Hld. unfold in_range.
          rewrite andb_false_iff, !N.leb_gt in Htr, Hld.
          rewrite andb_false_iff, !N.leb_gt. div_lia. }
        exists (map Octet (utf8 c) ++ ts).
        rewrite uri_tokens_escapes, Ht by (apply utf8_octets; div_lia).
        split; [reflexivity|].
        rewrite utf8_decode_octets, Hd by (assumption || div_lia).
        unfold utf16. destruct (N.ltb_spec c 65536); [reflexivity | div_lia].
Qed.

Lemma decodeURIComponent_encodeURIComponent (s out : jsstring) :
  code_units s = true -> encodeURIComponent s = Some out ->
  decodeURIComponent out = Some s.
Proof.
  intros Hs H. destruct (decode_encode (length s) s out (le_n _) Hs H) as (ts & Ht & Hd).
  unfold decodeURIComponent. now rewrite Ht.
Qed.

(** ** The specimen address *)

Lemma In_specimenName (c : cu) (font : jsstring) :
  In c (specimenName font) -> In c font /\ is_quote c = false.
Proof.
  unfold specimenName. rewrite filter_In. intros [H Hq].
  split; [|now apply negb_true_iff in Hq].
  apply In_trim in H. now apply (In_split_on (ch ",") c font _ (split_on_hd _ _)).
Qed.

Lemma In_plus_runs (c : cu) (s : jsstring) :
  forall b, In c (plus_runs b s) -> c = ch "+" \/ In c s.
Proof.
  induction s as [|x s IH]; intros b H; [destruct H|].
  cbn [plus_runs] in H. destruct (is_space x).
  - destruct b.
    + destruct (IH _ H); [now left | right; now right].
    + destruct H as [<-|H]; [now left|].
      destruct (IH _ H); [now left | right; now right].
  - destruct H as [<-|H]; [right; now left|].
    destruct (IH _ H); [now left | right; now right].
Qed.

Lemma handleFontClick_name (font : jsstring) :
  Page.handleFontClick font
  = option_map (app Page.specimen) (encodeURIComponent (plus_runs false (specimenName font))).
Proof.
  unfold Page.handleFontClick. cbv zeta. now rewrite replace_quotes, replace_spaces.
Qed.




(** X14.  The segment [handleFontClick] appends to the specimen address
    decodes, by [decodeURIComponent], to the name looked up: the first
    piece of the entry, trimmed, without its quote characters, each run of
    white space written as one [+]. *)
Theorem specimen_address_decodes :
  forall font address : jsstring,
    code_units font = true ->
    Page.handleFontClick font = Some address ->
    exists segment,
      address = Page.specimen ++ segment
      /\ decodeURIComponent segment = Some (plus_runs false (specimenName font)).
Proof.
  intros font address Hf H. rewrite handleFontClick_name in H.
  destruct (encodeURIComponent (plus_runs false (specimenName font))) as [segment|] eqn:E;
    [|discriminate].
  injection H as <-. exists segment. split; [reflexivity|].
  apply decodeURIComponent_encodeURIComponent; [|exact E].
  unfold code_units in *. apply forallb_forall. intros c Hc. rewrite forallb_forall in Hf.
  apply In_plus_runs in Hc as [->|Hc]; [reflexivity|].
  apply In_specimenName in Hc as [Hc _]. now apply Hf.
Qed.

Lemma specimen_address_decodes_witness :
  code_units (js "Open Sans") = true
  /\ Page.handleFontClick (js "Open Sans") = Some (js "https://fonts.google.com/specimen/Open%2BSans")
  /\ exists segment,
      js "https://fonts.google.com/specimen/Open%2BSans" = Page.specimen ++ segment
      /\ decodeURIComponent segment = Some (plus_runs false (specimenName (js "Open Sans"))).
Proof.
  split; [reflexivity|]. split; [vm_compute; reflexivity|].
  apply (specimen_address_decodes (js "Open Sans")).
  - reflexivity.
  - vm_compute. reflexivity.
Defined.

(** ** Fonts and the text *)

Lemma In_skip_quote (c : cu) (s : jsstring) : In c (skip_quote s) -> In c s.
Proof.
  destruct s as [|q v]; [trivial|]. cbn [skip_quote].
  destruct (is_quote q); [intros H; now right | trivial].
Qed.

Lemma block_at_Some (rest m0 body : jsstring) :
  block_at rest = Some (m0, body) ->
  exists head after, rest = head ++ body ++ after.
Proof.
  unfold block_at.
  destruct (strip_prefix true (js "@font-face") rest) as [r1|] eqn:E; [|discriminate].
  apply strip_prefix_Some in E as (Hrest & _ & _).
  pose proof (takeWhile_dropWhile is_space r1) as Hr1.
  destruct (dropWhile is_space r1) as [|c r3]; [discriminate|].
  destruct (N.eqb c (ch "{")); [|discriminate].
  pose proof (takeWhile_dropWhile not_rbrace r3) as Hr3.
  destruct (takeWhile not_rbrace r3) as [|y b]; [discriminate|].
  destruct (dropWhile not_rbrace r3) as [|z after]; [discriminate|].
  intros [= _ <-].
  exists (firstn (length (js "@font-face")) rest ++ takeWhile is_space r1 ++ [c]), (z :: after).
  etransitivity; [exact Hrest|]. rewrite <- !app_assoc. f_equal.
  etransitivity; [symmetry; exact Hr1|]. f_equal. cbn [app]. f_equal.
  symmetry. exact Hr3.
Qed.

Lemma face_family_at_Some (rest g : jsstring) :
  face_family_at rest = Some g ->
  (forall c, In c g -> In c rest)
  /\ exists lit after,
      rest = lit ++ after /\ map upper lit = map upper (js "font-family").
Proof.
  unfold face_family_at.
  destruct (strip_prefix true (js "font-family") rest) as [r1|] eqn:E; [|discriminate].
  apply strip_prefix_Some in E as (Hrest & _ & Hlit).
  pose proof (takeWhile_dropWhile is_space r1) as Hr1.
  destruct (dropWhile is_space r1) as [|x r3]; [discriminate|].
  destruct (N.eqb x (ch ":")); [|discriminate].
  intros H. split.
  - assert (Hr3 : forall c, In c r3 -> In c rest).
    { intros c Hc. rewrite Hrest. apply in_or_app. right.
      rewrite <- Hr1. apply in_or_app. right. now right. }
    intros c Hc. apply Hr3.
    destruct (takeWhile not_quote_semi (skip_quote (dropWhile is_space r3))) as [|y run] eqn:Hrun.
    + destruct (rev (takeWhile is_space r3)) as [|w ws] eqn:Hrev; [discriminate|].
      injection H as <-. destruct Hc as [<-|[]].
      apply (In_takeWhile is_space). apply in_rev. rewrite Hrev. now left.
    + injection H as <-. rewrite <- Hrun in Hc.
      now apply In_takeWhile, In_skip_quote, In_dropWhile in Hc.
  - exists (firstn (length (js "font-family")) rest), r1. split; [exact Hrest | exact Hlit].
Qed.

Lemma declared_from_text (css f : jsstring) :
  In f (declaredFamilies css) ->
  (forall c, In c f -> In c css) /\ mentions_font_family css.
Proof.
  unfold declaredFamilies, declarations. rewrite in_flat_map.
  intros (value & Hv & Hf). apply in_map_iff in Hv as (d & <- & Hd).
  apply find_all_In in Hd as (before & rest & -> & Hd).
  apply declaration_at_value in Hd as (_ & _ & lit & spaces & after & -> & Hlit & _).
  split.
  - intros c Hc. apply familiesOf_In in Hf as (tok & Htok & -> & _).
    unfold cleanFont in Hc. apply filter_In in Hc as [Hc _].
    apply In_trim in Hc. apply (In_split_on _ _ _ _ Htok), In_trim in Hc.
    apply in_or_app. right. apply in_or_app. right. apply in_or_app. right.
    right. apply in_or_app. now left.
  - exists before, lit, (spaces ++ ch ":" :: snd d ++ after). now split.
Qed.

Lemma face_from_text (css f : jsstring) :
  In f (faceFamilies css) ->
  (forall c, In c f -> In c css) /\ mentions_font_family css.
Proof.
  unfold faceFamilies, blocks. rewrite in_flat_map.
  intros (body & Hb & Hf). apply in_map_iff in Hb as ([m0 body'] & Hs & Hb).
  cbn [snd] in Hs. subst body'.
  apply find_all_In in Hb as (before & rest & -> & Hb).
  apply block_at_Some in Hb as (head & after & ->).
  unfold block_family in Hf.
  destruct (find_first face_family_at body) as [g|] eqn:E; [|destruct Hf].
  cbn [option_map opt_list] in Hf. destruct Hf as [<-|[]].
  apply find_first_Some in E as (b1 & rest2 & -> & E).
  apply face_family_at_Some in E as (Hin & lit & r1 & -> & Hlit).
  split.
  - intros c Hc. apply In_trim, Hin in Hc.
    apply in_or_app. right. apply in_or_app. right. apply in_or_app. left.
    apply in_or_app. now right.
  - exists (before ++ head ++ b1), lit, (r1 ++ after). split; [|exact Hlit].
    now rewrite <- !app_assoc.
Qed.

(** X15.  [extractFonts] takes its entries from the text: every unit of
    an entry is a unit of the text, and a text that gives an entry
    contains [font-family], in some letter case. *)
Theorem fonts_come_from_the_text :
  forall css f : jsstring,
    In f (extractFonts css) ->
    (forall c, In c f -> In c css) /\ mentions_font_family css.
Proof.
  intros css f H. apply extractFonts_In in H as [H|H].
  - now apply declared_from_text.
  - now apply face_from_text.
Qed.

Lemma fonts_come_from_the_text_witness :
  In (js "Arial") (extractFonts (js "p { FONT-FAMILY: 'Arial' }"))
  /\ mentions_font_family (js "p { FONT-FAMILY: 'Arial' }").
Proof.
  split; [vm_compute; auto|].
  apply (fonts_come_from_the_text (js "p { FONT-FAMILY: 'Arial' }") (js "Arial")).
  vm_compute. auto.
Defined.
